(** * OAuth credential store and token refresh (src/setup-oauth.ts)

    A shallow embedding of [setup-oauth.ts]: the credential file of
    [loadCredentials] and [saveCredentials], the expiry check and refresh of
    [ensureValidToken], and [setupOAuthCredentials].

    The program is a handful of lines of TypeScript, and nearly everything it
    does is delegated to the JavaScript platform: [JSON.parse],
    [JSON.stringify], [parseInt], the coercions of [-], [+] and [<=], property
    access on arbitrary values, [fetch], [fs/promises] and [Date.now].  The
    first part of this file models that platform, the second is the program
    itself, written in a state-and-exception monad over the file system and
    a trace of the effects performed, and the third states and proves its
    properties.

    Modelling conventions.
    - A JavaScript string is its sequence of UTF-16 code units, a [list N].
      A file is held as the text [readFile(path, "utf-8")] yields.
    - A JavaScript number is [NaN], an infinity, or an exact decimal: an
      integer [Int z] or a number with a fraction, [Dec m k] for [m / 10^k].
      The code computes with doubles.  An integer of magnitude up to 2^53 is
      the same number in both, and so is every sum, difference, numeral and
      comparison of such integers that stays in that range.  [parseInt] and
      the conversion of a string to a number round an integer to the nearest
      double, as the code does; [+], [-], [JSON_parse] and [JSON_stringify]
      are exact, where the code rounds what lies beyond 2^53 and prints it
      with the shortest numeral.  A statement that depends on how such a
      number is rounded or printed carries the bound [safe].
    - Objects are association lists in property enumeration order.  The
      values are those of JSON: there are no functions, so the only methods
      an object has are the inherited ones, unless an own property hides
      them.
    - A path is its list of segments.  The file system is a set of regular
      files with their content and a set of directories; a path with a file
      beneath it is a directory too.  [mkdir] fails when a regular file is in
      its way, [writeFile] when the directory is missing or the target is a
      directory, [readFile] when there is no such file.  The other ways a
      file system fails (permissions, a full disk, a write cut short) are not
      modelled, and neither are two processes at once.
    - One invocation sees one clock reading and one remote end, a function
      from the request to what [fetch] does with it.
    - Messages of the errors the platform throws are engine-specific and are
      stand-ins; those the program builds are exact. *)

From Stdlib Require Import Ascii String.
From Stdlib Require Import ZArith Lia DecimalN DecimalPos DecimalFacts.
From stdpp Require Import gmap list.

#[local] Open Scope N_scope.
#[local] Open Scope list_scope.

(** ** Text *)

Module Text.

(** A string of UTF-16 code units. *)
Definition text := list N.

(** The code units of a literal of this file (all of them ASCII). *)
Fixpoint lit (s : string) : text :=
  match s with
  | EmptyString => []
  | String a r => N_of_ascii a :: lit r
  end.

Arguments lit : simpl never.

Definition LF : N := 10.
Definition SPACE : N := 32.
Definition QUOTE : N := 34.
Definition BACKSLASH : N := 92.

(** A literal in which ['] stands for the double quote. *)
Definition qlit (s : string) : text :=
  map (fun c => if c =? 39 then QUOTE else c) (lit s).

Definition text_eqb (a b : text) : bool := bool_decide (a = b).

(** [join sep parts] is [parts.join(sep)]. *)
Fixpoint join (sep : text) (parts : list text) : text :=
  match parts with
  | [] => []
  | [p] => p
  | p :: ps => p ++ sep ++ join sep ps
  end.

(** [strip_prefix p s] removes the prefix [p] from [s], if it is one. *)
Fixpoint strip_prefix (p s : text) : option text :=
  match p, s with
  | [], _ => Some s
  | a :: p', b :: s' => if a =? b then strip_prefix p' s' else None
  | _ :: _, [] => None
  end.

(** [contains needle s]: [s.includes(needle)]. *)
Fixpoint contains (needle s : text) : bool :=
  match strip_prefix needle s with
  | Some _ => true
  | None => match s with
            | [] => false
            | _ :: s' => contains needle s'
            end
  end.

Definition is_digit (c : N) : bool := (48 <=? c) && (c <=? 57).

(** *** Decimal numerals *)

Fixpoint chars_of_uint (d : Decimal.uint) : text :=
  match d with
  | Decimal.Nil => []
  | Decimal.D0 d => 48 :: chars_of_uint d
  | Decimal.D1 d => 49 :: chars_of_uint d
  | Decimal.D2 d => 50 :: chars_of_uint d
  | Decimal.D3 d => 51 :: chars_of_uint d
  | Decimal.D4 d => 52 :: chars_of_uint d
  | Decimal.D5 d => 53 :: chars_of_uint d
  | Decimal.D6 d => 54 :: chars_of_uint d
  | Decimal.D7 d => 55 :: chars_of_uint d
  | Decimal.D8 d => 56 :: chars_of_uint d
  | Decimal.D9 d => 57 :: chars_of_uint d
  end.

Definition digit_cons (c : N) (d : Decimal.uint) : Decimal.uint :=
  if c =? 48 then Decimal.D0 d else
  if c =? 49 then Decimal.D1 d else
  if c =? 50 then Decimal.D2 d else
  if c =? 51 then Decimal.D3 d else
  if c =? 52 then Decimal.D4 d else
  if c =? 53 then Decimal.D5 d else
  if c =? 54 then Decimal.D6 d else
  if c =? 55 then Decimal.D7 d else
  if c =? 56 then Decimal.D8 d else Decimal.D9 d.

Fixpoint uint_of_chars (s : text) : Decimal.uint :=
  match s with
  | [] => Decimal.Nil
  | c :: r => digit_cons c (uint_of_chars r)
  end.

(** The decimal numeral of a natural number, without leading zeros. *)
Definition dec_of_N (n : N) : text := chars_of_uint (N.to_uint n).

(** The value of a string of decimal digits. *)
Definition N_of_dec (s : text) : N := N.of_uint (uint_of_chars s).

(** The decimal numeral of an integer: a [-] sign for the negative ones. *)
Definition dec_of_Z (z : Z) : text :=
  match z with
  | Zneg p => 45 :: dec_of_N (Npos p)
  | _ => dec_of_N (Z.to_N z)
  end.

(** The longest prefix of [s] whose characters satisfy [p], and the rest. *)
Fixpoint span (p : N -> bool) (s : text) : text * text :=
  match s with
  | [] => ([], [])
  | c :: r => if p c then let '(a, b) := span p r in (c :: a, b) else ([], s)
  end.

(** *** Hexadecimal digits *)

Definition hex_digit (n : N) : N := if n <? 10 then 48 + n else 87 + n.

(** The four lower-case hexadecimal digits of a code unit. *)
Definition hex4 (c : N) : text :=
  [hex_digit (c / 4096 mod 16); hex_digit (c / 256 mod 16);
   hex_digit (c / 16 mod 16); hex_digit (c mod 16)].

Definition hex_value (c : N) : option N :=
  if is_digit c then Some (c - 48)
  else if (97 <=? c) && (c <=? 102) then Some (c - 87)
  else if (65 <=? c) && (c <=? 70) then Some (c - 55)
  else None.

Definition unhex4 (a b c d : N) : option N :=
  match hex_value a, hex_value b, hex_value c, hex_value d with
  | Some x, Some y, Some z, Some w => Some (x * 4096 + y * 256 + z * 16 + w)
  | _, _, _, _ => None
  end.

End Text.
Export Text.

(** ** JavaScript values and coercions *)

Module JS.

(** [Int z] is the integer [z]; [Dec m k] is [m / 10^k] for an [m] that is
    not a multiple of 10, so every number has one representation. *)
Inductive number :=
| NaN
| Int (z : Z)
| Dec (m : Z) (k : positive)
| Inf (negative : bool).

#[warnings="-register-all"]
Inductive value :=
| VUndefined
| VNull
| VBool (b : bool)
| VNum (n : number)
| VStr (s : text)
| VArr (elems : list value)
| VObj (props : list (text * value)).

(** What a [throw] carries.  Everything this program and the platform
    functions it calls throw is an [Error] instance, so a thrown value is its
    class and its [message]. *)
Inductive error_class := ErrorC | TypeErrorC | SyntaxErrorC | SystemErrorC.

Record exn := Exn { exn_class : error_class; message : text }.

(** [!v] is [negb (ToBoolean v)]. *)
Definition ToBoolean (v : value) : bool :=
  match v with
  | VUndefined | VNull => false
  | VBool b => b
  | VNum NaN => false
  | VNum (Int z) => negb (z =? 0)%Z
  | VNum (Dec _ _) | VNum (Inf _) => true
  | VStr s => match s with [] => false | _ => true end
  | VArr _ | VObj _ => true
  end.

(** *** Numbers *)

(** [reduce k m] is [m / 10^k] in its one representation. *)
Fixpoint reduce (k : nat) (m : Z) : number :=
  match k with
  | O => Int m
  | S k' => if (m mod 10 =? 0)%Z then reduce k' (m / 10)
            else Dec m (Pos.of_succ_nat k')
  end.

(** [decimal m e] is [m * 10^e]. *)
Definition decimal (m : Z) (e : Z) : number :=
  match e with
  | Z0 => Int m
  | Zpos _ => Int (m * 10 ^ e)
  | Zneg p => reduce (Pos.to_nat p) m
  end.

(** A finite number as [m / 10^k]. *)
Definition scaled (n : number) : option (Z * Z) :=
  match n with
  | Int z => Some (z, 0%Z)
  | Dec m k => Some (m, Zpos k)
  | NaN | Inf _ => None
  end.

Definition number_neg (n : number) : number :=
  match n with
  | NaN => NaN
  | Int z => Int (- z)
  | Dec m k => Dec (- m) k
  | Inf s => Inf (negb s)
  end.

Definition number_add (a b : number) : number :=
  match a, b with
  | Int x, Int y => Int (x + y)
  | NaN, _ | _, NaN => NaN
  | Inf s, Inf s' => if Bool.eqb s s' then Inf s else NaN
  | Inf s, _ | _, Inf s => Inf s
  | _, _ =>
      match scaled a, scaled b with
      | Some (m1, k1), Some (m2, k2) =>
          let k := Z.max k1 k2 in
          decimal (m1 * 10 ^ (k - k1) + m2 * 10 ^ (k - k2)) (- k)
      | _, _ => NaN
      end
  end.

Definition number_sub (a b : number) : number :=
  match a, b with
  | Int x, Int y => Int (x - y)
  | _, _ => number_add a (number_neg b)
  end.

(** [a <= b] on numbers: false as soon as one side is [NaN]. *)
Definition number_le (a b : number) : bool :=
  match a, b with
  | Int x, Int y => (x <=? y)%Z
  | NaN, _ | _, NaN => false
  | Inf s, Inf s' => implb s' s
  | Inf s, _ => s
  | _, Inf s => negb s
  | _, _ =>
      match scaled a, scaled b with
      | Some (m1, k1), Some (m2, k2) =>
          let k := Z.max k1 k2 in
          (m1 * 10 ^ (k - k1) <=? m2 * 10 ^ (k - k2))%Z
      | _, _ => false
      end
  end.

(** The nearest double to an integer, ties to the even mantissa: up to 2^53
    in magnitude the integer itself, beyond that the 53 leading bits,
    rounded, and an infinity from 2^1024 - 2^970 on. *)
Definition round_double (z : Z) : number :=
  let a := Z.abs z in
  if (a <=? 2 ^ 53)%Z then Int z
  else
    let k := (Z.log2 a - 52)%Z in
    let q := (a / 2 ^ k)%Z in
    let r := (a mod 2 ^ k)%Z in
    let half := (2 ^ (k - 1))%Z in
    let q' := if (half <? r)%Z || ((r =? half)%Z && Z.odd q) then (q + 1)%Z else q in
    if (2 ^ 1024 <=? q' * 2 ^ k)%Z then Inf (z <? 0)%Z
    else Int (Z.sgn z * (q' * 2 ^ k)).

(** An integer that is the same number as a double and in the model. *)
Definition safe (z : Z) : Prop := (Z.abs z <= 2 ^ 53)%Z.

(** WhiteSpace and LineTerminator of ECMA-262, as skipped by [parseInt] and
    by the conversion of a string to a number. *)
Definition is_str_ws (c : N) : bool :=
  ((9 <=? c) && (c <=? 13)) || (c =? 32) || (c =? 160) || (c =? 5760)
  || ((8192 <=? c) && (c <=? 8202)) || (c =? 8232) || (c =? 8233)
  || (c =? 8239) || (c =? 8287) || (c =? 12288) || (c =? 65279).

Fixpoint trim_start (s : text) : text :=
  match s with
  | [] => []
  | c :: r => if is_str_ws c then trim_start r else s
  end.

Definition trim (s : text) : text := rev (trim_start (rev (trim_start s))).

(** The value of a digit of a radix up to 16, if [c] is one. *)
Definition digit_of_radix (radix : N) (c : N) : option N :=
  match hex_value c with
  | Some d => if d <? radix then Some d else None
  | None => None
  end.

Definition is_radix_digit (radix : N) (c : N) : bool :=
  match digit_of_radix radix c with Some _ => true | None => false end.

Definition radix_value (radix : N) (ds : text) : N :=
  fold_left (fun acc c => acc * radix + default 0 (digit_of_radix radix c)) ds 0.

(** [strip_radix_prefix x s]: [s] without a leading [0x] or [0X]. *)
Definition strip_radix_prefix (lower upper : N) (s : text) : option text :=
  match s with
  | z :: x :: r => if (z =? 48) && ((x =? lower) || (x =? upper)) then Some r else None
  | _ => None
  end.

Definition signed (neg : bool) (n : N) : Z :=
  if neg then (- Z.of_N n)%Z else Z.of_N n.

(** A sign at the head of [s], and what follows it. *)
Definition take_sign (s : text) : bool * text :=
  match s with
  | c :: r => if c =? 45 then (true, r) else if c =? 43 then (false, r) else (false, s)
  | [] => (false, s)
  end.

(** The radix a [0x] prefix announces, and what follows it. *)
Definition take_radix (s : text) : N * text :=
  match strip_radix_prefix 120 88 s with
  | Some r => (16, r)
  | None => (10, s)
  end.

(** [parseInt(s)] with no radix argument (ECMA-262 19.2.5): skip leading
    white space, take a sign, take a [0x] prefix, then read digits up to the
    first character that is not one; no digit at all gives [NaN], and the
    integer read is rounded to a double. *)
Definition parseInt (input : text) : number :=
  let '(neg, s) := take_sign (trim_start input) in
  let '(radix, s) := take_radix s in
  match fst (span (is_radix_digit radix) s) with
  | [] => NaN
  | ds => round_double (signed neg (radix_value radix ds))
  end.

(** The numeral of [m / 10^k], for [m > 0] with digits [ds], as
    [Number::toString] lays it out (ECMA-262 6.1.6.1.20): with [n] the
    number of digits before the decimal point, plain notation when
    [-6 < n <= 21], exponent notation otherwise. *)
Definition fraction_text (ds : text) (k : positive) : text :=
  let n := (Z.of_nat (length ds) - Zpos k)%Z in
  if (0 <? n)%Z && (n <=? 21)%Z then
    take (Z.to_nat n) ds ++ 46 :: drop (Z.to_nat n) ds
  else if (-6 <? n)%Z && (n <=? 0)%Z then
    48 :: 46 :: replicate (Z.to_nat (- n)) 48 ++ ds
  else
    match ds with
    | [] => []
    | d :: r =>
        d :: match r with [] => [] | _ => 46 :: r end
          ++ 101 :: (if (0 <? n)%Z then 43 else 45) :: dec_of_N (Z.abs_N (n - 1))
    end.

(** [Number::toString] on the numbers of the model. *)
Definition number_to_text (n : number) : text :=
  match n with
  | NaN => lit "NaN"
  | Int z => dec_of_Z z
  | Dec m k => (if (m <? 0)%Z then [45] else []) ++ fraction_text (dec_of_N (Z.abs_N m)) k
  | Inf false => lit "Infinity"
  | Inf true => lit "-Infinity"
  end.

Definition not_primitive : exn :=
  Exn TypeErrorC (lit "Cannot convert object to primitive value").

(** How a primitive prints. *)
Definition primitive_text (v : value) : text :=
  match v with
  | VUndefined => lit "undefined"
  | VNull => lit "null"
  | VBool true => lit "true"
  | VBool false => lit "false"
  | VNum n => number_to_text n
  | VStr s => s
  | VArr _ | VObj _ => []
  end.

(** [f] on each element in turn, up to the first that throws. *)
Fixpoint traverse {A B : Type} (f : A -> exn + B) (l : list A) : exn + list B :=
  match l with
  | [] => inr []
  | x :: r =>
      match f x with
      | inl e => inl e
      | inr y => match traverse f r with
                 | inl e => inl e
                 | inr ys => inr (y :: ys)
                 end
      end
  end.

(** [ToString].  An array prints as [join(",")], its [null] and [undefined]
    elements empty.  An object prints through the [toString] it inherits,
    as [[object Object]]; an own property of that name hides the method,
    is not callable, and the conversion throws a [TypeError]. *)
Fixpoint ToString (v : value) : exn + text :=
  match v with
  | VArr l =>
      match traverse (fun x => match x with
                               | VUndefined | VNull => inr []
                               | _ => ToString x
                               end) l with
      | inl e => inl e
      | inr ts => inr (join (lit ",") ts)
      end
  | VObj props =>
      if existsb (fun p => text_eqb (fst p) (lit "toString")) props
      then inl not_primitive
      else inr (lit "[object Object]")
  | _ => inr (primitive_text v)
  end.

Definition all_digits (radix : N) (s : text) : bool :=
  match s with
  | [] => false
  | _ => forallb (is_radix_digit radix) s
  end.

(** An exponent part, [e] or [E], a sign, digits: its value and what
    follows; 0 when there is none, [None] when it is cut short. *)
Definition exponent_part (s : text) : option (Z * text) :=
  match s with
  | c :: r =>
      if (c =? 101) || (c =? 69) then
        let '(neg, r') :=
          match r with
          | g :: r1 => if g =? 45 then (true, r1) else if g =? 43 then (false, r1)
                       else (false, r)
          | [] => (false, r)
          end in
        match span is_digit r' with
        | ([], _) => None
        | (es, rest) => Some (signed neg (N_of_dec es), rest)
        end
      else Some (0%Z, s)
  | [] => Some (0%Z, s)
  end.

(** The number that the digits [ds], the fraction digits [fs] and the
    exponent [e] spell. *)
Definition literal_value (neg : bool) (ds fs : text) (e : Z) : number :=
  decimal (signed neg (N_of_dec (ds ++ fs))) (e - Z.of_nat (length fs)).

(** An integer is rounded to a double, what has a fraction is kept. *)
Definition rounded (n : number) : number :=
  match n with
  | Int z => round_double z
  | _ => n
  end.

(** [StrUnsignedDecimalLiteral]: [Infinity], or digits, a fraction and an
    exponent, of which the digits or the fraction digits may be missing;
    the whole string has to be one. *)
Definition unsigned_decimal (neg : bool) (s : text) : number :=
  if text_eqb s (lit "Infinity") then Inf neg
  else
    let '(ds, r1) := span is_digit s in
    let '(fs, r2) :=
      match r1 with
      | c :: r => if c =? 46 then span is_digit r else ([], r1)
      | [] => ([], r1)
      end in
    match ds ++ fs, exponent_part r2 with
    | _ :: _, Some (e, []) => rounded (literal_value neg ds fs e)
    | _, _ => NaN
    end.

(** [StringToNumber] (ECMA-262 7.1.4.1.1): white space around is dropped;
    the empty string is 0; then an unsigned [0x], [0o] or [0b] integer, or a
    signed decimal literal; every other string is [NaN]. *)
Definition StringToNumber (s : text) : number :=
  let t := trim s in
  match t with
  | [] => Int 0
  | c :: r =>
      match strip_radix_prefix 120 88 t, strip_radix_prefix 111 79 t,
            strip_radix_prefix 98 66 t with
      | Some h, _, _ =>
          if all_digits 16 h then round_double (Z.of_N (radix_value 16 h)) else NaN
      | _, Some o, _ =>
          if all_digits 8 o then round_double (Z.of_N (radix_value 8 o)) else NaN
      | _, _, Some b =>
          if all_digits 2 b then round_double (Z.of_N (radix_value 2 b)) else NaN
      | _, _, _ =>
          if c =? 45 then unsigned_decimal true r
          else if c =? 43 then unsigned_decimal false r
          else unsigned_decimal false t
      end
  end.

(** [ToPrimitive]: an object or array becomes its string ([valueOf], which
    comes first, gives the object back). *)
Definition ToPrimitive (v : value) : exn + value :=
  match v with
  | VArr _ | VObj _ =>
      match ToString v with
      | inl e => inl e
      | inr s => inr (VStr s)
      end
  | _ => inr v
  end.

(** [ToNumber] of a primitive. *)
Definition primitive_number (v : value) : number :=
  match v with
  | VUndefined => NaN
  | VNull => Int 0
  | VBool b => Int (if b then 1 else 0)
  | VNum n => n
  | VStr s => StringToNumber s
  | VArr _ | VObj _ => NaN
  end.

Definition ToNumber (v : value) : exn + number :=
  match ToPrimitive v with
  | inl e => inl e
  | inr p => inr (primitive_number p)
  end.

(** [a - b]: both operands are converted, the left one first. *)
Definition js_sub (a b : value) : exn + number :=
  match ToNumber a with
  | inl e => inl e
  | inr x => match ToNumber b with
             | inl e => inl e
             | inr y => inr (number_sub x y)
             end
  end.

(** [a + b]: concatenation as soon as one primitive is a string. *)
Definition js_add (a b : value) : exn + value :=
  match ToPrimitive a with
  | inl e => inl e
  | inr pa =>
      match ToPrimitive b with
      | inl e => inl e
      | inr pb =>
          inr match pa, pb with
              | VStr s, _ => VStr (s ++ primitive_text pb)
              | _, VStr s => VStr (primitive_text pa ++ s)
              | _, _ => VNum (number_add (primitive_number pa) (primitive_number pb))
              end
      end
  end.

(** *** Properties *)

Fixpoint obj_lookup (props : list (text * value)) (k : text) : option value :=
  match props with
  | [] => None
  | (k', v) :: r => if text_eqb k' k then Some v else obj_lookup r k
  end.

(** An array index is the canonical numeral of an integer below 2^32 - 1;
    such keys are enumerated first, in ascending order. *)
Definition array_index (k : text) : option N :=
  match k with
  | [] => None
  | c :: r =>
      if forallb is_digit k && implb (c =? 48) (match r with [] => true | _ => false end)
      then let n := N_of_dec k in if n <? 4294967295 then Some n else None
      else None
  end.

(** Where a new index key [n] goes: before the first key that is not an index
    or is a larger one. *)
Fixpoint insert_index (props : list (text * value)) (n : N) (k : text) (v : value)
  : list (text * value) :=
  match props with
  | [] => [(k, v)]
  | (k', v') :: r =>
      match array_index k' with
      | Some m => if m <? n then (k', v') :: insert_index r n k v
                  else (k, v) :: props
      | None => (k, v) :: props
      end
  end.

Fixpoint replace_prop (props : list (text * value)) (k : text) (v : value)
  : list (text * value) :=
  match props with
  | [] => []
  | (k', v') :: r => if text_eqb k' k then (k', v) :: r
                     else (k', v') :: replace_prop r k v
  end.

(** [o[k] = v] on the property list of an ordinary object: an existing
    property keeps its place, a new one goes last (among the index keys, if it
    is one). *)
Definition obj_set (props : list (text * value)) (k : text) (v : value)
  : list (text * value) :=
  match obj_lookup props k with
  | Some _ => replace_prop props k v
  | None => match array_index k with
            | Some n => insert_index props n k v
            | None => props ++ [(k, v)]
            end
  end.

Definition cannot_read (base : text) (k : text) : exn :=
  Exn TypeErrorC (lit "Cannot read properties of " ++ base ++ lit " (reading '" ++ k ++ lit "')").

Definition cannot_set (base : text) (k : text) : exn :=
  Exn TypeErrorC (lit "Cannot set properties of " ++ base ++ lit " (setting '" ++ k ++ lit "')").

Definition cannot_create (k : text) (v : value) : exn :=
  Exn TypeErrorC (lit "Cannot create property '" ++ k ++ lit "' on " ++ primitive_text v).

(** [v.k] for a name [k] that no prototype defines and that is neither
    [length] nor an index (the only names this program reads): a [TypeError]
    on [null] and [undefined], the own property of an ordinary object,
    [undefined] on everything else. *)
Definition Get (v : value) (k : text) : exn + value :=
  match v with
  | VUndefined => inl (cannot_read (lit "undefined") k)
  | VNull => inl (cannot_read (lit "null") k)
  | VObj props => inr (default VUndefined (obj_lookup props k))
  | _ => inr VUndefined
  end.

(** [v.k = x] in strict mode, for such a name [k]; the result is the object
    after the assignment.  A named property put on an array is invisible to
    [JSON.stringify] and is not kept. *)
Definition Set_ (v : value) (k : text) (x : value) : exn + value :=
  match v with
  | VUndefined => inl (cannot_set (lit "undefined") k)
  | VNull => inl (cannot_set (lit "null") k)
  | VObj props => inr (VObj (obj_set props k x))
  | VArr l => inr (VArr l)
  | _ => inl (cannot_create k v)
  end.

End JS.
Export JS.

(** ** JSON *)

Module JSON.

(** *** [JSON.stringify] (ECMA-262 25.5.2) *)

Definition is_high_surrogate (c : N) : bool := (55296 <=? c) && (c <=? 56319).
Definition is_low_surrogate (c : N) : bool := (56320 <=? c) && (c <=? 57343).

Definition unicode_escape (c : N) : text := BACKSLASH :: 117 :: hex4 c.

(** One code unit inside a quoted string: the short escapes, [\uXXXX] for the
    other control characters and for a surrogate on its own. *)
Definition escape_unit (c : N) : text :=
  if c =? 8 then [BACKSLASH; 98]
  else if c =? 9 then [BACKSLASH; 116]
  else if c =? 10 then [BACKSLASH; 110]
  else if c =? 12 then [BACKSLASH; 102]
  else if c =? 13 then [BACKSLASH; 114]
  else if c =? QUOTE then [BACKSLASH; QUOTE]
  else if c =? BACKSLASH then [BACKSLASH; BACKSLASH]
  else if (c <? 32) || is_high_surrogate c || is_low_surrogate c then unicode_escape c
  else [c].

(** A surrogate pair is copied, everything else goes through [escape_unit]. *)
Fixpoint quote_units (s : text) : text :=
  match s with
  | [] => []
  | c :: r =>
      match r with
      | d :: r' =>
          if is_high_surrogate c && is_low_surrogate d
          then c :: d :: quote_units r'
          else escape_unit c ++ quote_units r
      | [] => escape_unit c
      end
  end.

(** [QuoteJSONString]. *)
Definition quote (s : text) : text := QUOTE :: quote_units s ++ [QUOTE].

(** The brackets around the serialised members of an array or object: on one
    line when there is no [gap], one member per line, indented, otherwise. *)
Definition wrap (gap ind : text) (opening closing : N) (parts : list text) : text :=
  match parts with
  | [] => [opening; closing]
  | _ =>
      match gap with
      | [] => opening :: join [44] parts ++ [closing]
      | _ => opening :: LF :: (ind ++ gap)
               ++ join (44 :: LF :: (ind ++ gap)) parts
               ++ LF :: ind ++ [closing]
      end
  end.

Definition member (gap : text) (k : text) (t : text) : text :=
  quote k ++ 58 :: match gap with [] => t | _ => SPACE :: t end.

(** [SerializeJSONProperty] at indentation [ind]: [None] is [undefined].  An
    array element that is [undefined] prints as [null], an object property
    that is [undefined] is left out, and a number that is not finite prints
    as [null]. *)
Fixpoint serialize (gap ind : text) (v : value) {struct v} : option text :=
  match v with
  | VUndefined => None
  | VNull => Some (lit "null")
  | VBool true => Some (lit "true")
  | VBool false => Some (lit "false")
  | VNum NaN | VNum (Inf _) => Some (lit "null")
  | VNum n => Some (number_to_text n)
  | VStr s => Some (quote s)
  | VArr l =>
      Some (wrap gap ind 91 93
              (map (fun x => default (lit "null") (serialize gap (ind ++ gap) x)) l))
  | VObj l =>
      Some (wrap gap ind 123 125
              (omap (fun p => match p with
                              | (k, x) =>
                                  match serialize gap (ind ++ gap) x with
                                  | Some t => Some (member gap k t)
                                  | None => None
                                  end
                              end) l))
  end.

(** [JSON.stringify(v, null, space)] for a number of spaces [space]. *)
Definition JSON_stringify (v : value) (space : nat) : option text :=
  serialize (replicate (Nat.min space 10) SPACE) [] v.

(** *** [JSON.parse] (ECMA-404) *)

Definition is_json_ws (c : N) : bool :=
  (c =? 9) || (c =? 10) || (c =? 13) || (c =? 32).

Fixpoint skip_ws (s : text) : text :=
  match s with
  | [] => []
  | c :: r => if is_json_ws c then skip_ws r else s
  end.

Definition expect (c : N) (s : text) : option text :=
  match s with
  | x :: r => if x =? c then Some r else None
  | [] => None
  end.

Definition unescape (e : N) : option N :=
  if e =? QUOTE then Some QUOTE
  else if e =? BACKSLASH then Some BACKSLASH
  else if e =? 47 then Some 47
  else if e =? 98 then Some 8
  else if e =? 102 then Some 12
  else if e =? 110 then Some 10
  else if e =? 114 then Some 13
  else if e =? 116 then Some 9
  else None.

(** The characters of a string up to its closing quote (the opening one is
    already read), and what follows it. *)
Fixpoint parse_string (s : text) : option (text * text) :=
  match s with
  | [] => None
  | c :: r =>
      if c =? QUOTE then Some ([], r)
      else if c =? BACKSLASH then
        match r with
        | [] => None
        | e :: r1 =>
            if e =? 117 then
              match r1 with
              | h1 :: h2 :: h3 :: h4 :: r2 =>
                  match unhex4 h1 h2 h3 h4, parse_string r2 with
                  | Some u, Some (str, rest) => Some (u :: str, rest)
                  | _, _ => None
                  end
              | _ => None
              end
            else
              match unescape e, parse_string r1 with
              | Some u, Some (str, rest) => Some (u :: str, rest)
              | _, _ => None
              end
        end
      else if c <? 32 then None
      else
        match parse_string r with
        | Some (str, rest) => Some (c :: str, rest)
        | None => None
        end
  end.

(** A fraction, [.] and at least one digit: its digits and what follows;
    no digits when there is none. *)
Definition fraction_part (s : text) : option (text * text) :=
  match s with
  | c :: r =>
      if c =? 46 then
        match span is_digit r with
        | ([], _) => None
        | (fs, rest) => Some (fs, rest)
        end
      else Some ([], s)
  | [] => Some ([], s)
  end.

(** A number after its sign: the digits, [0] or digits that do not start
    with [0], then a fraction and an exponent if there are any.  The value
    is the decimal the literal spells. *)
Definition parse_digits (neg : bool) (s : text) : option (number * text) :=
  let '(ds, rest) := span is_digit s in
  match ds with
  | [] => None
  | d :: ds' =>
      if (d =? 48) && match ds' with [] => false | _ => true end then None
      else
        match fraction_part rest with
        | Some (fs, rest1) =>
            match exponent_part rest1 with
            | Some (e, rest2) => Some (literal_value neg ds fs e, rest2)
            | None => None
            end
        | None => None
        end
  end.

(** A number literal: an optional [-], then the rest. *)
Definition parse_number (s : text) : option (number * text) :=
  match s with
  | c :: r => if c =? 45 then parse_digits true r else parse_digits false s
  | [] => None
  end.

(** A value at the head of [s] (white space already skipped), and the rest.
    [parse_elements] and [parse_members] read what follows [[] and [{] when
    the brackets are not empty; object members are added with [obj_set], so a
    repeated key keeps its place and takes the last value. *)
Fixpoint parse_value (fuel : nat) (s : text) {struct fuel} : option (value * text) :=
  match fuel with
  | O => None
  | S f =>
      match s with
      | [] => None
      | c :: r =>
          if c =? 123 then
            match expect 125 (skip_ws r) with
            | Some r' => Some (VObj [], r')
            | None => parse_members f [] (skip_ws r)
            end
          else if c =? 91 then
            match expect 93 (skip_ws r) with
            | Some r' => Some (VArr [], r')
            | None => parse_elements f [] (skip_ws r)
            end
          else if c =? QUOTE then
            match parse_string r with
            | Some (str, r') => Some (VStr str, r')
            | None => None
            end
          else if c =? 116 then
            match strip_prefix (lit "rue") r with
            | Some r' => Some (VBool true, r')
            | None => None
            end
          else if c =? 102 then
            match strip_prefix (lit "alse") r with
            | Some r' => Some (VBool false, r')
            | None => None
            end
          else if c =? 110 then
            match strip_prefix (lit "ull") r with
            | Some r' => Some (VNull, r')
            | None => None
            end
          else
            match parse_number s with
            | Some (n, r') => Some (VNum n, r')
            | None => None
            end
      end
  end
with parse_elements (fuel : nat) (acc : list value) (s : text) {struct fuel}
  : option (value * text) :=
  match fuel with
  | O => None
  | S f =>
      match parse_value f s with
      | Some (v, r) =>
          match skip_ws r with
          | c :: r' =>
              if c =? 44 then parse_elements f (acc ++ [v]) (skip_ws r')
              else if c =? 93 then Some (VArr (acc ++ [v]), r')
              else None
          | [] => None
          end
      | None => None
      end
  end
with parse_members (fuel : nat) (acc : list (text * value)) (s : text) {struct fuel}
  : option (value * text) :=
  match fuel with
  | O => None
  | S f =>
      match expect QUOTE s with
      | Some r =>
          match parse_string r with
          | Some (k, r1) =>
              match expect 58 (skip_ws r1) with
              | Some r2 =>
                  match parse_value f (skip_ws r2) with
                  | Some (v, r3) =>
                      match skip_ws r3 with
                      | c :: r4 =>
                          if c =? 44 then parse_members f (obj_set acc k v) (skip_ws r4)
                          else if c =? 125 then Some (VObj (obj_set acc k v), r4)
                          else None
                      | [] => None
                      end
                  | None => None
                  end
              | None => None
              end
          | None => None
          end
      | None => None
      end
  end.

(** [JSON.parse(s)]: [None] is the [SyntaxError].  A text of [n] characters
    never needs more than [n] nested calls. *)
Definition JSON_parse (s : text) : option value :=
  match parse_value (S (length s)) (skip_ws s) with
  | Some (v, r) => match skip_ws r with
                   | [] => Some v
                   | _ :: _ => None
                   end
  | None => None
  end.

End JSON.
Export JSON.

(** ** The platform: file system, network, clock, console *)

Module Platform.

(** A path is its list of segments; [join(p, seg)] adds one. *)
Definition path := list text.

Definition join_path (p : path) (seg : text) : path := p ++ [seg].

Definition dirname (p : path) : path := removelast p.

Definition path_text (p : path) : text := concat (map (fun seg => 47 :: seg) p).

(** A directory and the directories above it. *)
Fixpoint prefixes (p : path) : list path :=
  [] :: match p with
        | [] => []
        | seg :: r => map (cons seg) (prefixes r)
        end.

Record request := Request {
  req_url : text;
  req_method : text;
  req_headers : list (text * text);
  req_body : option text
}.

(** What [fetch] resolves to: a response of any status, or a rejection when
    the transport fails. *)
Inductive fetch_result :=
| FetchRejected (e : exn)
| FetchResponse (status : Z) (body : text).

(** The effects a run leaves behind, oldest first. *)
Inductive event :=
| EFetch (r : request)
| EMkdir (p : path)
| EWriteFile (p : path) (content : text)
| ELog (msg : text).

(** What one invocation reads from outside: the home directory, the clock
    ([Date.now()], in milliseconds) and the remote end of [fetch]. *)
Record env := Env {
  homedir : path;
  date_now : Z;
  fetch : request -> fetch_result
}.

Record world := World {
  files : gmap path text;
  dirs : gset path;
  trace : list event
}.

(** State and exceptions: a computation ends with a value or a thrown error,
    and in both cases with the world it has reached. *)
Definition M (A : Type) : Type := world -> (exn + A) * world.

Definition ret {A} (a : A) : M A := fun w => (inr a, w).

Definition throw {A} (e : exn) : M A := fun w => (inl e, w).

Definition bind {A B} (m : M A) (k : A -> M B) : M B :=
  fun w => match m w with
           | (inl e, w') => (inl e, w')
           | (inr a, w') => k a w'
           end.

(** [try { m } catch (e) { h e }]. *)
Definition try_catch {A} (m : M A) (h : exn -> M A) : M A :=
  fun w => match m w with
           | (inl e, w') => h e w'
           | (inr a, w') => (inr a, w')
           end.

(** A pure step that may throw. *)
Definition lift {A} (r : exn + A) : M A := fun w => (r, w).

Definition emit (ev : event) : M unit :=
  fun w => (inr tt, World (files w) (dirs w) (trace w ++ [ev])).

Definition console_log (msg : text) : M unit := emit (ELog msg).

Definition enoent (p : path) : exn :=
  Exn SystemErrorC (lit "ENOENT: no such file or directory, open '" ++ path_text p ++ lit "'").

Definition eisdir (p : path) : exn :=
  Exn SystemErrorC (lit "EISDIR: illegal operation on a directory, open '"
                      ++ path_text p ++ lit "'").

Definition eexist (p : path) : exn :=
  Exn SystemErrorC (lit "EEXIST: file already exists, mkdir '" ++ path_text p ++ lit "'").

Definition enotdir (p : path) : exn :=
  Exn SystemErrorC (lit "ENOTDIR: not a directory, mkdir '" ++ path_text p ++ lit "'").

(** [p] has a file somewhere beneath it. *)
Definition has_file_beneath (w : world) (p : path) : Prop :=
  set_Exists (fun q => p <> q /\ p `prefix_of` q) (dom (files w)).

(** A directory is a path recorded as one, or one with a file beneath it. *)
Definition is_directory (w : world) (p : path) : bool :=
  bool_decide (p ∈ dirs w \/ has_file_beneath w p).

Definition is_file (w : world) (p : path) : bool :=
  bool_decide (is_Some (files w !! p)).

(** A regular file where a directory is wanted. *)
Definition in_the_way (w : world) (p : path) : bool :=
  is_file w p && negb (is_directory w p).

(** [readFile(p, "utf-8")]. *)
Definition readFile (p : path) : M text :=
  fun w => match files w !! p with
           | Some content => (inr content, w)
           | None => (inl (enoent p), w)
           end.

(** [mkdir(p, { recursive: true })]: makes [p] and the directories above it
    that are missing; it is no error that they exist, it is one that [p]
    ([EEXIST]) or a path above it ([ENOTDIR]) is a regular file, and nothing
    is made then. *)
Definition mkdir_recursive (p : path) : M unit :=
  fun w => match List.find (in_the_way w) (prefixes p) with
           | Some q => (inl (if bool_decide (q = p) then eexist p else enotdir p), w)
           | None =>
               (inr tt, World (files w) (dirs w ∪ list_to_set (prefixes p))
                              (trace w ++ [EMkdir p]))
           end.

(** [writeFile(p, data)]: replaces the whole content; [data] has to be a
    string ([None] stands for [undefined]), the directory has to be there
    and [p] must not be a directory. *)
Definition writeFile (p : path) (data : option text) : M unit :=
  fun w => match data with
           | None =>
               (inl (Exn TypeErrorC
                       (qlit "The 'data' argument must be of type string. Received undefined")),
                w)
           | Some content =>
               if negb (is_directory w (dirname p)) then (inl (enoent p), w)
               else if is_directory w p && negb (is_file w p) then (inl (eisdir p), w)
               else (inr tt, World (<[p := content]> (files w)) (dirs w)
                                   (trace w ++ [EWriteFile p content]))
           end.

(** [fetch(url, init)]: one remote call; the promise rejects when the
    transport fails and resolves to the response otherwise. *)
Definition fetch_ (remote : request -> fetch_result) (r : request) : M (Z * text) :=
  fun w =>
    let w' := World (files w) (dirs w) (trace w ++ [EFetch r]) in
    match remote r with
    | FetchRejected e => (inl e, w')
    | FetchResponse status body => (inr (status, body), w')
    end.

Definition response_ok (status : Z) : bool := ((200 <=? status) && (status <=? 299))%Z.

(** [response.json()]. *)
Definition response_json (body : text) : M value :=
  match JSON_parse body with
  | Some v => ret v
  | None => throw (Exn SyntaxErrorC (lit "Unexpected token in JSON"))
  end.

Definition is_fetch (ev : event) : bool :=
  match ev with EFetch _ => true | _ => false end.

Definition is_write (ev : event) : bool :=
  match ev with EWriteFile _ _ => true | _ => false end.

(** How many remote calls, and how many file writes, a trace holds. *)
Definition remote_calls (t : list event) : nat := length (List.filter is_fetch t).
Definition file_writes (t : list event) : nat := length (List.filter is_write t).

End Platform.
Export Platform.

Notation "x <- m ;; k" := (bind m (fun x => k))
  (at level 100, m at next level, right associativity).
Notation "m ;; k" := (bind m (fun _ => k))
  (at level 100, right associativity).

(** ** The program: src/setup-oauth.ts *)

(** [interface OAuthCredentials]: what setup is given. *)
Record OAuthCredentials := {
  in_accessToken : text;
  in_refreshToken : text;
  in_expiresAt : text
}.

(** The content of [interface StoredCredentials], the [claudeAiOauth] object. *)
Record StoredCredentials := {
  accessToken : text;
  refreshToken : text;
  expiresAt : number;
  scopes : list text
}.

(** [interface RefreshTokenResponse]. *)
Record RefreshTokenResponse := {
  access_token : text;
  refresh_token : text;
  expires_in : Z
}.

(** The JavaScript object of a [StoredCredentials]: the [claudeAiOauth]
    member, and the document around it. *)
Definition oauth_value (r : StoredCredentials) : value :=
  VObj [(lit "accessToken", VStr (accessToken r));
        (lit "refreshToken", VStr (refreshToken r));
        (lit "expiresAt", VNum (expiresAt r));
        (lit "scopes", VArr (map VStr (scopes r)))].

Definition stored_value (r : StoredCredentials) : value :=
  VObj [(lit "claudeAiOauth", oauth_value r)].

Definition token_endpoint : text := lit "https://api.anthropic.com/v1/oauth/token".

Definition refresh_request (refreshToken : value) : request :=
  {| req_url := token_endpoint;
     req_method := lit "POST";
     req_headers := [(lit "Content-Type", lit "application/json")];
     req_body := JSON_stringify (VObj [(lit "grant_type", VStr (lit "refresh_token"));
                                       (lit "refresh_token", refreshToken)]) 0 |}.

(** [o.k1.k2 = x]: the object [o.k1] is changed in place, so [o] sees it. *)
Definition assign_member (o : value) (k1 k2 : text) (x : value) : exn + value :=
  match Get o k1 with
  | inl e => inl e
  | inr inner =>
      match Set_ inner k2 x with
      | inl e => inl e
      | inr inner' =>
          inr (match o with
               | VObj props => VObj (replace_prop props k1 inner')
               | _ => o
               end)
      end
  end.

(** The three assignments of lines 84-86, each reading one member of the
    response and storing it in [credentials.claudeAiOauth]. *)
Definition apply_response (credentials now refreshResponse : value) : exn + value :=
  match Get refreshResponse (lit "access_token") with
  | inl e => inl e
  | inr new_access =>
  match assign_member credentials (lit "claudeAiOauth") (lit "accessToken") new_access with
  | inl e => inl e
  | inr credentials =>
  match Get refreshResponse (lit "refresh_token") with
  | inl e => inl e
  | inr new_refresh =>
  match assign_member credentials (lit "claudeAiOauth") (lit "refreshToken") new_refresh with
  | inl e => inl e
  | inr credentials =>
  match Get refreshResponse (lit "expires_in") with
  | inl e => inl e
  | inr expires_in =>
  match js_add now expires_in with
  | inl e => inl e
  | inr sum =>
      assign_member credentials (lit "claudeAiOauth") (lit "expiresAt") sum
  end end end end end end.

Section Program.

Variable E : env.

Definition claudeDir : path := join_path (homedir E) (lit ".claude").
Definition credentialsPath : path := join_path claudeDir (lit ".credentials.json").

(** [Math.floor(Date.now() / 1000)]. *)
Definition now_seconds : Z := (date_now E / 1000)%Z.

(** Lines 26-44. *)
Definition refreshAccessToken (refreshToken : value) : M value :=
  response <- fetch_ (fetch E) (refresh_request refreshToken) ;;
  let '(status, body) := response in
  if negb (response_ok status) then
    let errorText := body in
    throw (Exn ErrorC (lit "Failed to refresh token: " ++ number_to_text (Int status)
                         ++ lit " " ++ errorText))
  else response_json body.

(** Lines 46-56. *)
Definition loadCredentials : M value :=
  try_catch
    (credentialsContent <- readFile credentialsPath ;;
     match JSON_parse credentialsContent with
     | Some v => ret v
     | None => throw (Exn SyntaxErrorC (lit "Unexpected token in JSON"))
     end)
    (fun error => ret VNull).

(** Lines 58-64. *)
Definition saveCredentials (credentials : value) : M unit :=
  mkdir_recursive claudeDir ;;
  writeFile credentialsPath (JSON_stringify credentials 2).

Definition no_credentials : exn :=
  Exn ErrorC (lit "No OAuth credentials found. Please set up OAuth first.").

(** The [try] block, lines 81-89. *)
Definition refresh_and_save (credentials : value) (now : value) : M unit :=
  oauth <- lift (Get credentials (lit "claudeAiOauth")) ;;
  refreshToken <- lift (Get oauth (lit "refreshToken")) ;;
  refreshResponse <- refreshAccessToken refreshToken ;;
  credentials <- lift (apply_response credentials now refreshResponse) ;;
  saveCredentials credentials ;;
  console_log (lit "Access token refreshed successfully").

(** The [catch] block, line 91. *)
Definition refresh_failed (error : exn) : exn :=
  Exn ErrorC (lit "Failed to refresh OAuth token: " ++ message error).

(** Lines 66-94. *)
Definition ensureValidToken : M unit :=
  credentials <- loadCredentials ;;
  if negb (ToBoolean credentials) then throw no_credentials
  else
    let now := VNum (Int now_seconds) in
    oauth <- lift (Get credentials (lit "claudeAiOauth")) ;;
    expiresAt <- lift (Get oauth (lit "expiresAt")) ;;
    remaining <- lift (js_sub expiresAt now) ;;
    if number_le remaining (Int 300) then
      console_log (lit "Access token expired or expiring soon, refreshing...") ;;
      try_catch (refresh_and_save credentials now)
                (fun error => throw (refresh_failed error))
    else ret tt.

(** The object built at lines 104-111. *)
Definition credentialsData (credentials : OAuthCredentials) : value :=
  VObj [(lit "claudeAiOauth",
         VObj [(lit "accessToken", VStr (in_accessToken credentials));
               (lit "refreshToken", VStr (in_refreshToken credentials));
               (lit "expiresAt", VNum (parseInt (in_expiresAt credentials)));
               (lit "scopes", VArr [VStr (lit "user:inference"); VStr (lit "user:profile")])])].

(** Lines 96-117. *)
Definition setupOAuthCredentials (credentials : OAuthCredentials) : M unit :=
  mkdir_recursive claudeDir ;;
  writeFile credentialsPath (JSON_stringify (credentialsData credentials) 2) ;;
  console_log (lit "OAuth credentials written to " ++ path_text credentialsPath).

End Program.

(** ** Notions used to state the properties *)

(** What may follow a number: anything but a digit, a fraction or an
    exponent. *)
Definition ends_number (rest : text) : bool :=
  match rest with
  | [] => true
  | c :: _ => negb (is_digit c || (c =? 46) || (c =? 101) || (c =? 69))
  end.

(** [c] put in front of the string a parser returns. *)
Definition push (c : N) (o : option (text * text)) : option (text * text) :=
  match o with
  | Some (str, rest) => Some (c :: str, rest)
  | None => None
  end.

(** A key that is not an array index keeps its place in insertion order. *)
Definition plain_key (k : text) : bool :=
  match array_index k with Some _ => false | None => true end.

(** [plain v]: [v] is printed by [JSON.stringify] and read back unchanged by
    [JSON.parse]: no [undefined], no number but the integers, and objects
    whose keys are distinct and are not array indices. *)
Fixpoint plain (v : value) : bool :=
  match v with
  | VUndefined => false
  | VNum NaN | VNum (Dec _ _) | VNum (Inf _) => false
  | VNull | VBool _ | VNum (Int _) | VStr _ => true
  | VArr l => forallb plain l
  | VObj l => bool_decide (NoDup (map fst l)) && forallb plain_key (map fst l)
              && forallb (fun p => plain (snd p)) l
  end.

(** What the text of a value starts with: not white space, not a closing
    bracket. *)
Definition value_head (s : text) : bool :=
  match s with
  | c :: _ => negb (is_json_ws c) && negb (c =? 93) && negb (c =? 125)
  | [] => false
  end.

(** What a JSON text starts with, after white space: a bracket, a quote, the
    first letter of [true], [false] or [null], a minus sign or a digit. *)
Definition value_start (s : text) : bool :=
  match skip_ws s with
  | [] => false
  | c :: _ =>
      (c =? 123) || (c =? 91) || (c =? 34) || (c =? 116) || (c =? 102) || (c =? 110)
      || (c =? 45) || is_digit c
  end.

(** What is proved of each value, by induction on it. *)
Definition reads_back (gap : text) (v : value) : Prop :=
  plain v = true ->
  forall ind t rest fuel,
    forallb is_json_ws ind = true ->
    serialize gap ind v = Some t ->
    ends_number rest = true ->
    (length t <= fuel)%nat ->
    parse_value fuel (t ++ rest) = Some (v, rest).


(** A parse that succeeds with fuel [f] consumes at least one character and
    succeeds, with the same result, with any fuel that is at least the
    number of characters consumed. *)
Definition enough_fuel {A : Type} (parse : nat -> A -> text -> option (value * text))
           (f : nat) : Prop :=
  forall (a : A) (s : text) (v : value) (r : text),
    parse f a s = Some (v, r) ->
    (length r < length s)%nat
    /\ forall f', (length s - length r <= f')%nat -> parse f' a s = Some (v, r).

(** The response body [v] has the three members of a
    [RefreshTokenResponse], with the values of [resp]. *)
Definition carries (v : value) (resp : RefreshTokenResponse) : Prop :=
  Get v (lit "access_token") = inr (VStr (access_token resp))
  /\ Get v (lit "refresh_token") = inr (VStr (refresh_token resp))
  /\ Get v (lit "expires_in") = inr (VNum (Int (expires_in resp))).

(** The record after a refresh at time [now] answered by [resp]: the scopes
    are the only thing kept. *)
Definition refreshed (r : StoredCredentials) (resp : RefreshTokenResponse) (now : Z)
  : StoredCredentials :=
  {| accessToken := access_token resp;
     refreshToken := refresh_token resp;
     expiresAt := Int (now + expires_in resp);
     scopes := scopes r |}.

(** [saveCredentials] and [setupOAuthCredentials] can write: no regular file
    is in the way of [<home>/.claude], and the credential file is not a
    directory. *)
Definition writable (E : env) (w : world) : bool :=
  forallb (fun q => negb (in_the_way w q)) (prefixes (claudeDir E))
  && (is_file w (credentialsPath E) || negb (is_directory w (credentialsPath E))).

(** The world after [mkdir] and [writeFile] of [t]. *)
Definition written (E : env) (w : world) (t : text) : world :=
  World (<[credentialsPath E := t]> (files w))
        (dirs w ∪ list_to_set (prefixes (claudeDir E)))
        (trace w ++ [EMkdir (claudeDir E); EWriteFile (credentialsPath E) t]).

(** The world after a setup that wrote [t]. *)
Definition installed (E : env) (w : world) (t : text) : world :=
  World (<[credentialsPath E := t]> (files w))
        (dirs w ∪ list_to_set (prefixes (claudeDir E)))
        (trace w ++ [EMkdir (claudeDir E);
                     EWriteFile (credentialsPath E) t;
                     ELog (lit "OAuth credentials written to "
                             ++ path_text (credentialsPath E))]).

(** A number that [JSON.stringify] writes and [JSON.parse] reads in the
    model as they do in the code: an integer up to 2^53, and what is
    written as [null]. *)
Definition exact (n : number) : Prop :=
  match n with
  | Int z => safe z
  | Dec _ _ => False
  | NaN | Inf _ => True
  end.

(** What may follow the numeral of an expiry without changing what
    [parseInt] reads: anything but a digit, and but the [x] that would make
    a lone [0] a radix prefix. *)
Definition ends_numeral (rest : text) : bool :=
  match rest with
  | [] => true
  | c :: _ => negb (is_digit c || (c =? 120) || (c =? 88))
  end.

(** Every number in [v] is an integer up to 2^53. *)
Fixpoint exact_value (v : value) : bool :=
  match v with
  | VNum (Int z) => (Z.abs z <=? 2 ^ 53)%Z
  | VNum _ => false
  | VArr l => forallb exact_value l
  | VObj l => forallb (fun p => exact_value (snd p)) l
  | _ => true
  end.

(** What a run has added to the trace. *)
Definition new_remote_calls (w w' : world) : nat :=
  remote_calls (trace w') - remote_calls (trace w).

Definition new_file_writes (w w' : world) : nat :=
  file_writes (trace w') - file_writes (trace w).

(** What [refreshAccessToken] ends with, as a function of what the remote end
    answers: the parsed body of a 2xx response, or the error thrown. *)
Definition refresh_result (E : env) (refreshToken : value) : exn + value :=
  match fetch E (refresh_request refreshToken) with
  | FetchRejected e => inl e
  | FetchResponse status body =>
      if response_ok status then
        match JSON_parse body with
        | Some v => inr v
        | None => inl (Exn SyntaxErrorC (lit "Unexpected token in JSON"))
        end
      else inl (Exn ErrorC (lit "Failed to refresh token: "
                              ++ number_to_text (Int status) ++ lit " " ++ body))
  end.

(** The world once the refresh has been announced on the console, and once
    the remote call has been made. *)
Definition announced (w : world) : world :=
  World (files w) (dirs w)
        (trace w ++ [ELog (lit "Access token expired or expiring soon, refreshing...")]).

Definition called (w : world) (refreshToken : value) : world :=
  World (files w) (dirs w) (trace w ++ [EFetch (refresh_request refreshToken)]).

(** The world after a refresh that wrote [t]. *)
Definition saved (E : env) (w : world) (refreshToken : value) (t : text) : world :=
  World (<[credentialsPath E := t]> (files w))
        (dirs w ∪ list_to_set (prefixes (claudeDir E)))
        (trace w ++ [ELog (lit "Access token expired or expiring soon, refreshing...");
                     EFetch (refresh_request refreshToken);
                     EMkdir (claudeDir E);
                     EWriteFile (credentialsPath E) t;
                     ELog (lit "Access token refreshed successfully")]).

(** [ensureValidToken] rejects with an [Error] whose message contains each of
    [needles], after exactly one remote call, with no write and the files as
    they were. *)
Definition rejects_unchanged (E : env) (w : world) (needles : list text) : Prop :=
  exists msg w',
    ensureValidToken E w = (inl (Exn ErrorC msg), w')
    /\ files w' = files w
    /\ new_remote_calls w w' = 1%nat
    /\ new_file_writes w w' = 0%nat
    /\ Forall (fun needle => contains needle msg = true) needles.

(** [v.claudeAiOauth.k]. *)
Definition member_of (v : value) (k : text) : exn + value :=
  match Get v (lit "claudeAiOauth") with
  | inl e => inl e
  | inr oauth => Get oauth k
  end.

Definition fixed_scopes : value :=
  VArr [VStr (lit "user:inference"); VStr (lit "user:profile")].

(** What [JSON.parse] reads back from the file setup writes: the object of
    [credentialsData], its expiry [null] when [parseInt] gave [NaN] or an
    infinity. *)
Definition persisted_data (credentials : OAuthCredentials) : value :=
  VObj [(lit "claudeAiOauth",
         VObj [(lit "accessToken", VStr (in_accessToken credentials));
               (lit "refreshToken", VStr (in_refreshToken credentials));
               (lit "expiresAt", match parseInt (in_expiresAt credentials) with
                                 | NaN | Inf _ => VNull
                                 | n => VNum n
                                 end);
               (lit "scopes", fixed_scopes)])].

(** ** Sample data, for the concrete instances *)

Module Sample.

Definition home : path := [lit "home"; lit "runner"].

(** The clock reads 1 700 000 000 s. *)
Definition clock : Z := 1700000000999.

Definition record (expiry : number) : StoredCredentials :=
  {| accessToken := lit "A1";
     refreshToken := lit "R1";
     expiresAt := expiry;
     scopes := [lit "user:inference"; lit "user:profile"] |}.

Definition document (expiry : number) : text :=
  default [] (JSON_stringify (stored_value (record expiry)) 2).

(** A world whose credential file holds [content]. *)
Definition holding (content : text) : world :=
  World {[ join_path (join_path home (lit ".claude")) (lit ".credentials.json") := content ]}
        ∅ [].

Definition empty_world : world := World ∅ ∅ [].

(** A world in which [<home>/.claude] is a regular file. *)
Definition blocked_world : world :=
  World {[ join_path home (lit ".claude") := lit "not a directory" ]} ∅ [].

(** A record about to expire (100 s left), one still valid (301 s left). *)
Definition expiring_world : world := holding (document (Int 1700000100)).
Definition valid_world : world := holding (document (Int 1700000301)).

(** Setup inputs: an expiry with no digits, one with digits and a tail. *)
Definition input (expiry : string) : OAuthCredentials :=
  {| in_accessToken := lit "A1"; in_refreshToken := lit "R1"; in_expiresAt := lit expiry |}.

Definition good_body : text :=
  qlit "{'access_token':'A2','refresh_token':'R2','expires_in':3600}".

Definition good_response : RefreshTokenResponse :=
  {| access_token := lit "A2"; refresh_token := lit "R2"; expires_in := 3600 |}.

(** Remote ends: one that grants, one that refuses, one that is down. *)
Definition granting : env := Env home clock (fun _ => FetchResponse 200 good_body).
Definition refusing : env := Env home clock (fun _ => FetchResponse 401 (lit "denied")).
Definition down : env :=
  Env home clock (fun _ => FetchRejected (Exn TypeErrorC (lit "fetch failed"))).

(** One whose [expires_in] is a string. *)
Definition quoting : env :=
  Env home clock
      (fun _ => FetchResponse 200
                  (qlit "{'access_token':'A2','refresh_token':'R2','expires_in':'3600'}")).

(** One that answers 200 with an empty object. *)
Definition vacuous : env := Env home clock (fun _ => FetchResponse 200 (lit "{}")).

(** The world after setup with [expiry], starting from nothing. *)
Definition after_setup (expiry : string) : world :=
  snd (setupOAuthCredentials granting (input expiry) empty_world).

End Sample.

(** * Properties *)

(** ** The model on concrete inputs *)

Example parseInt_junk : parseInt (lit "tomorrow") = NaN.
Proof. reflexivity. Qed.

Example parseInt_prefix : parseInt (lit " 1700000000abc") = Int 1700000000.
Proof. reflexivity. Qed.

Example parseInt_hex : parseInt (lit "-0x1F") = Int (-31).
Proof. reflexivity. Qed.

(** Beyond 2^53 the integer read is rounded to a double, ties to even, and
    to an infinity when it is too large for one. *)
Example parseInt_rounds :
  parseInt (lit "9007199254740993") = Int 9007199254740992
  /\ parseInt (lit "-9007199254740995") = Int (-9007199254740996)
  /\ parseInt (lit "1" ++ replicate 309 48) = Inf false.
Proof. repeat split; vm_compute; reflexivity. Qed.

Example StringToNumber_forms :
  StringToNumber (lit " 1e3 ") = Int 1000
  /\ StringToNumber (lit "1.5") = Dec 15 1
  /\ StringToNumber (lit "-.5") = Dec (-5) 1
  /\ StringToNumber (lit "-Infinity") = Inf true
  /\ StringToNumber (lit "0x1F") = Int 31
  /\ StringToNumber (lit "-0x1F") = NaN
  /\ StringToNumber (lit "12px") = NaN
  /\ StringToNumber (lit "") = Int 0.
Proof. repeat split; vm_compute; reflexivity. Qed.

Example ToNumber_arr : ToNumber (VArr [VArr [VStr (lit " 12 ")]]) = inr (Int 12).
Proof. reflexivity. Qed.

(** An own [toString] property hides the inherited method: the object can
    no longer be converted, whether on its own or inside an array. *)
Example ToNumber_hidden :
  ToNumber (VObj [(lit "toString", VNum (Int 1))]) = inl not_primitive
  /\ ToNumber (VArr [VObj [(lit "toString", VNull)]]) = inl not_primitive
  /\ ToNumber (VObj [(lit "valueOf", VNum (Int 1))]) = inr NaN.
Proof. repeat split; vm_compute; reflexivity. Qed.

Example number_text :
  number_to_text (Dec 17000003015 1) = lit "1700000301.5"
  /\ number_to_text (Dec (-125) 5) = lit "-0.00125"
  /\ number_to_text (Dec 125 9) = lit "1.25e-7"
  /\ number_to_text (Inf true) = lit "-Infinity".
Proof. repeat split; vm_compute; reflexivity. Qed.

Example obj_set_order :
  obj_set [(lit "7", VNull); (lit "b", VNull)] (lit "2") (VBool true)
  = [(lit "2", VBool true); (lit "7", VNull); (lit "b", VNull)].
Proof. vm_compute. reflexivity. Qed.

Example stringify_nested :
  JSON_stringify (VObj [(lit "a", VArr [VNum (Int 1); VUndefined; VNum NaN]);
                        (lit "u", VUndefined); (lit "o", VObj [])]) 2
  = Some (lit "{" ++ [LF] ++ qlit "  'a': [" ++ [LF] ++ lit "    1," ++ [LF]
          ++ lit "    null," ++ [LF] ++ lit "    null" ++ [LF] ++ lit "  ]," ++ [LF]
          ++ qlit "  'o': {}" ++ [LF] ++ lit "}").
Proof. vm_compute. reflexivity. Qed.

Example stringify_compact :
  JSON_stringify (VObj [(lit "grant_type", VStr (lit "refresh_token"));
                        (lit "refresh_token", VStr (lit "R1"))]) 0
  = Some (qlit "{'grant_type':'refresh_token','refresh_token':'R1'}").
Proof. vm_compute. reflexivity. Qed.

Example parse_sample :
  JSON_parse (qlit " { 'b' : [1, -20, 'x\nA'], 'a': {}, 'b': null, '3': true } ")
  = Some (VObj [(lit "3", VBool true); (lit "b", VNull); (lit "a", VObj [])]).
Proof. vm_compute. reflexivity. Qed.

Example parse_trailing : JSON_parse (lit "[1,]") = None.
Proof. vm_compute. reflexivity. Qed.

Example parse_leading_zero : JSON_parse (lit "01") = None.
Proof. vm_compute. reflexivity. Qed.

Example parse_nested : JSON_parse (lit "[[[[[[[[1]]]]]]]]")
  = Some (VArr [VArr [VArr [VArr [VArr [VArr [VArr [VArr [VNum (Int 1)]]]]]]]]).
Proof. vm_compute. reflexivity. Qed.

Example parse_numbers :
  JSON_parse (lit "[1700000301.5, 3.6e3, -1.250E-3, -0, 0.0]")
  = Some (VArr [VNum (Dec 17000003015 1); VNum (Int 3600); VNum (Dec (-125) 5);
                VNum (Int 0); VNum (Int 0)]).
Proof. vm_compute. reflexivity. Qed.

Example parse_bad_numbers :
  JSON_parse (lit "1.") = None /\ JSON_parse (lit ".5") = None
  /\ JSON_parse (lit "1e") = None /\ JSON_parse (lit "-") = None
  /\ JSON_parse (lit "+1") = None /\ JSON_parse (lit "0x10") = None.
Proof. repeat split; vm_compute; reflexivity. Qed.

Example stringify_numbers :
  JSON_stringify (VArr [VNum (Dec 15 1); VNum (Inf true); VNum NaN; VNum (Int (-3))]) 0
  = Some (lit "[1.5,null,null,-3]").
Proof. vm_compute. reflexivity. Qed.

(** A record about to expire and a remote end that grants: the file after the
    run. *)
Example refresh_sample :
  files (snd (ensureValidToken Sample.granting Sample.expiring_world))
    !! credentialsPath Sample.granting
  = JSON_stringify
      (stored_value (refreshed (Sample.record (Int 1700000100))
                               Sample.good_response 1700000000)) 2.
Proof. vm_compute. reflexivity. Qed.

(** The message thrown when the remote end refuses, and when it is down. *)
Example refusal_message :
  fst (ensureValidToken Sample.refusing Sample.expiring_world)
  = inl (Exn ErrorC (lit "Failed to refresh OAuth token: Failed to refresh token: 401 denied")).
Proof. vm_compute. reflexivity. Qed.

Example down_message :
  fst (ensureValidToken Sample.down Sample.expiring_world)
  = inl (Exn ErrorC (lit "Failed to refresh OAuth token: fetch failed")).
Proof. vm_compute. reflexivity. Qed.

(** A [claudeAiOauth] without expiry: [undefined - now] is [NaN], no
    comparison with [NaN] holds, and the token passes for valid. *)
Example missing_expiry_passes :
  ensureValidToken Sample.granting (Sample.holding (qlit "{'claudeAiOauth':{}}"))
  = (inr tt, Sample.holding (qlit "{'claudeAiOauth':{}}")).
Proof. vm_compute. reflexivity. Qed.

(** A 200 response without the three members: nothing is checked, the tokens
    become [undefined] and are left out of the file, the expiry is
    [now + undefined], written as [null]. *)
Example vacuous_response :
  fst (loadCredentials Sample.vacuous
         (snd (ensureValidToken Sample.vacuous Sample.expiring_world)))
  = inr (VObj [(lit "claudeAiOauth",
                VObj [(lit "expiresAt", VNull);
                      (lit "scopes", fixed_scopes)])]).
Proof. vm_compute. reflexivity. Qed.

(** An expiry with a fraction is compared as it is. *)
Example fraction_expiry :
  ensureValidToken Sample.granting
    (Sample.holding (qlit "{'claudeAiOauth':{'expiresAt':1700000300.5}}"))
  = (inr tt, Sample.holding (qlit "{'claudeAiOauth':{'expiresAt':1700000300.5}}")).
Proof. vm_compute. reflexivity. Qed.

(** An expiry that cannot be converted: the subtraction throws, outside the
    [try] block, and nothing has been done. *)
Example unconvertible_expiry :
  ensureValidToken Sample.granting
    (Sample.holding (qlit "{'claudeAiOauth':{'expiresAt':{'toString':1}}}"))
  = (inl not_primitive,
     Sample.holding (qlit "{'claudeAiOauth':{'expiresAt':{'toString':1}}}")).
Proof. vm_compute. reflexivity. Qed.

(** A regular file where [<home>/.claude] should be: setup throws and writes
    nothing. *)
Example setup_blocked :
  setupOAuthCredentials Sample.granting (Sample.input "1700000100") Sample.blocked_world
  = (inl (eexist (claudeDir Sample.granting)), Sample.blocked_world).
Proof. vm_compute. reflexivity. Qed.

(** ** Facts about text *)

Lemma strip_prefix_app (p s : text) : strip_prefix p (p ++ s) = Some s.
Proof.
  induction p as [|a p IH]; simpl; [reflexivity|].
  now rewrite N.eqb_refl.
Qed.

Lemma contains_here (needle s : text) : contains needle (needle ++ s) = true.
Proof.
  destruct (needle ++ s) eqn:Hs; simpl;
    rewrite <- Hs, strip_prefix_app; reflexivity.
Qed.

Lemma contains_app_r (needle a b : text) :
  contains needle b = true -> contains needle (a ++ b) = true.
Proof.
  intros Hb. induction a as [|c a IH]; simpl; [exact Hb|].
  destruct (strip_prefix needle (c :: a ++ b)); [reflexivity | exact IH].
Qed.

Lemma contains_middle (needle a b : text) : contains needle (a ++ needle ++ b) = true.
Proof. apply contains_app_r, contains_here. Qed.

(** ** Facts about numerals *)

Lemma digit_cons_chars (d : Decimal.uint) : uint_of_chars (chars_of_uint d) = d.
Proof. induction d; simpl; unfold digit_cons; simpl; congruence. Qed.

Lemma chars_of_uint_digits (d : Decimal.uint) : forallb is_digit (chars_of_uint d) = true.
Proof. induction d; simpl; auto. Qed.

Lemma N_of_dec_of_N (n : N) : N_of_dec (dec_of_N n) = n.
Proof.
  unfold N_of_dec, dec_of_N. rewrite digit_cons_chars.
  apply DecimalN.Unsigned.of_to.
Qed.

Lemma to_uint_unorm (n : N) : N.to_uint n = Decimal.unorm (N.to_uint n).
Proof.
  rewrite <- (DecimalN.Unsigned.to_of (N.to_uint n)).
  now rewrite DecimalN.Unsigned.of_to.
Qed.

(** A numeral is never empty, and starts with [0] only when it is [0]. *)
Lemma dec_of_N_head (n : N) :
  exists c r, dec_of_N n = c :: r /\ is_digit c = true /\ (c = 48 -> r = []).
Proof.
  unfold dec_of_N. rewrite to_uint_unorm. unfold Decimal.unorm.
  pose proof (nzhead_nonzero (N.to_uint n)) as Hnz.
  destruct (Decimal.nzhead (N.to_uint n)) as [|u|u|u|u|u|u|u|u|u|u] eqn:Hh; simpl;
    try (eexists _, _; split; [reflexivity | split; [reflexivity | discriminate]]).
  - eexists _, _; split; [reflexivity | split; [reflexivity | reflexivity]].
  - exfalso. now apply (Hnz u).
Qed.

Lemma span_app (p : N -> bool) (a rest : text) :
  forallb p a = true ->
  match rest with [] => True | c :: _ => p c = false end ->
  span p (a ++ rest) = (a, rest).
Proof.
  intros Ha Hrest. induction a as [|c a IH]; simpl in *.
  - destruct rest as [|c r]; [reflexivity|]. simpl. now rewrite Hrest.
  - apply andb_true_iff in Ha as [Hc Ha]. rewrite Hc, (IH Ha). reflexivity.
Qed.


Lemma is_digit_range (c : N) : is_digit c = true <-> 48 <= c <= 57.
Proof. unfold is_digit. rewrite andb_true_iff, !N.leb_le. reflexivity. Qed.

(** What cannot go on a number is neither a fraction nor an exponent. *)
Lemma ends_number_parts (rest : text) :
  ends_number rest = true ->
  fraction_part rest = Some ([], rest) /\ exponent_part rest = Some (0%Z, rest).
Proof.
  destruct rest as [|c r]; [split; reflexivity|]. simpl. intros Hrest.
  apply negb_true_iff in Hrest.
  apply orb_false_iff in Hrest as [Hrest H69].
  apply orb_false_iff in Hrest as [Hrest H101].
  apply orb_false_iff in Hrest as [_ H46].
  now rewrite H46, H101, H69.
Qed.

Lemma literal_value_integer (neg : bool) (ds : text) :
  literal_value neg ds [] 0 = Int (signed neg (N_of_dec ds)).
Proof. unfold literal_value. now rewrite app_nil_r. Qed.

Lemma parse_digits_dec (neg : bool) (n : N) (rest : text) :
  ends_number rest = true ->
  parse_digits neg (dec_of_N n ++ rest) = Some (Int (signed neg n), rest).
Proof.
  intros Hrest. unfold parse_digits.
  rewrite span_app.
  - destruct (dec_of_N_head n) as (c & r & Heq & Hc & Hzero).
    pose proof (N_of_dec_of_N n) as Hval. rewrite Heq in *.
    assert (Hlead : (c =? 48) && match r with [] => false | _ => true end = false).
    { destruct (N.eqb_spec c 48) as [->|]; [|reflexivity].
      now rewrite (Hzero eq_refl). }
    rewrite Hlead.
    destruct (ends_number_parts rest Hrest) as [-> ->].
    now rewrite literal_value_integer, Hval.
  - apply chars_of_uint_digits.
  - destruct rest as [|c r]; [exact I|]. simpl in Hrest.
    apply negb_true_iff in Hrest. repeat (apply orb_false_iff in Hrest as [Hrest ?]).
    exact Hrest.
Qed.

Lemma parse_number_dec (z : Z) (rest : text) :
  ends_number rest = true ->
  parse_number (dec_of_Z z ++ rest) = Some (Int z, rest).
Proof.
  intros Hrest. unfold parse_number, dec_of_Z.
  destruct z as [|p|p].
  - destruct (dec_of_N_head (Z.to_N 0)) as (c & r & Heq & Hc & _).
    pose proof (parse_digits_dec false (Z.to_N 0) rest Hrest) as Hd.
    rewrite Heq in *. simpl app in *. apply is_digit_range in Hc.
    cbv beta iota. destruct (N.eqb_spec c 45); [lia | exact Hd].
  - destruct (dec_of_N_head (Z.to_N (Zpos p))) as (c & r & Heq & Hc & _).
    pose proof (parse_digits_dec false (Z.to_N (Zpos p)) rest Hrest) as Hd.
    rewrite Heq in *. simpl app in *. apply is_digit_range in Hc.
    cbv beta iota. destruct (N.eqb_spec c 45); [lia | exact Hd].
  - simpl. apply (parse_digits_dec true (Npos p) rest Hrest).
Qed.

(** ** Facts about quoted strings *)

Lemma hex_value_digit (n : N) : n < 16 -> hex_value (hex_digit n) = Some n.
Proof.
  intros Hn.
  assert (Hall : forallb (fun k => bool_decide (hex_value (hex_digit k) = Some k))
                   (map N.of_nat (seq 0 16)) = true) by (vm_compute; reflexivity).
  rewrite forallb_forall in Hall.
  specialize (Hall n). rewrite bool_decide_eq_true in Hall. apply Hall.
  apply in_map_iff. exists (N.to_nat n). split; [lia|]. apply in_seq. lia.
Qed.

Lemma unhex4_hex4 (c : N) : c < 65536 ->
  match hex4 c with
  | [h1; h2; h3; h4] => unhex4 h1 h2 h3 h4 = Some c
  | _ => False
  end.
Proof.
  intros Hc. unfold hex4, unhex4.
  rewrite !hex_value_digit by (apply N.mod_upper_bound; lia).
  f_equal. zify. Z.to_euclidean_division_equations. lia.
Qed.


Lemma parse_string_literal (c : N) (t : text) :
  c <> QUOTE -> c <> BACKSLASH -> 32 <= c ->
  parse_string (c :: t) = push c (parse_string t).
Proof.
  intros Hq Hb Hc. simpl.
  destruct (N.eqb_spec c QUOTE); [contradiction|].
  destruct (N.eqb_spec c BACKSLASH); [contradiction|].
  destruct (N.ltb_spec c 32); [lia|]. reflexivity.
Qed.

Lemma parse_string_unicode (c : N) (t : text) :
  c < 65536 -> parse_string (unicode_escape c ++ t) = push c (parse_string t).
Proof.
  intros Hc. pose proof (unhex4_hex4 c Hc) as Hhex.
  unfold unicode_escape. unfold hex4 in *. simpl. now rewrite Hhex.
Qed.

Lemma parse_string_escape (c : N) (t : text) :
  parse_string (escape_unit c ++ t) = push c (parse_string t).
Proof.
  unfold escape_unit.
  destruct (N.eqb_spec c 8) as [->|]; [reflexivity|].
  destruct (N.eqb_spec c 9) as [->|]; [reflexivity|].
  destruct (N.eqb_spec c 10) as [->|]; [reflexivity|].
  destruct (N.eqb_spec c 12) as [->|]; [reflexivity|].
  destruct (N.eqb_spec c 13) as [->|]; [reflexivity|].
  destruct (N.eqb_spec c QUOTE) as [->|]; [reflexivity|].
  destruct (N.eqb_spec c BACKSLASH) as [->|]; [reflexivity|].
  destruct ((c <? 32) || is_high_surrogate c || is_low_surrogate c) eqn:Hesc.
  - apply parse_string_unicode.
    unfold is_high_surrogate, is_low_surrogate in Hesc.
    repeat (apply orb_true_iff in Hesc as [Hesc|Hesc]).
    + apply N.ltb_lt in Hesc. lia.
    + apply andb_true_iff in Hesc as [_ Hesc]. apply N.leb_le in Hesc. lia.
    + apply andb_true_iff in Hesc as [_ Hesc]. apply N.leb_le in Hesc. lia.
  - apply orb_false_iff in Hesc as [Hesc _]. apply orb_false_iff in Hesc as [Hesc _].
    apply N.ltb_ge in Hesc. now apply parse_string_literal.
Qed.

Lemma quote_units_pair (c d : N) (r : text) :
  quote_units (c :: d :: r)
  = if is_high_surrogate c && is_low_surrogate d
    then c :: d :: quote_units r
    else escape_unit c ++ quote_units (d :: r).
Proof. reflexivity. Qed.

Lemma parse_quote_units (s : text) (rest : text) :
  parse_string (quote_units s ++ QUOTE :: rest) = Some (s, rest).
Proof.
  remember (length s) as n eqn:Hn.
  revert s Hn. induction n as [n IH] using lt_wf_ind. intros s Hn.
  destruct s as [|c [|d r]].
  - reflexivity.
  - simpl quote_units. rewrite parse_string_escape. reflexivity.
  - rewrite quote_units_pair.
    destruct (is_high_surrogate c && is_low_surrogate d) eqn:Hpair.
    + apply andb_true_iff in Hpair as [Hc Hd].
      unfold is_high_surrogate in Hc. unfold is_low_surrogate in Hd.
      apply andb_true_iff in Hc as [Hc _]. apply andb_true_iff in Hd as [Hd _].
      apply N.leb_le in Hc, Hd. simpl app.
      rewrite parse_string_literal by (unfold QUOTE, BACKSLASH; lia).
      rewrite parse_string_literal by (unfold QUOTE, BACKSLASH; lia).
      rewrite (IH (length r) ltac:(simpl in Hn; lia) r eq_refl). reflexivity.
    + rewrite <- app_assoc, parse_string_escape.
      rewrite (IH (length (d :: r)) ltac:(simpl in Hn |- *; lia) (d :: r) eq_refl). reflexivity.
Qed.

(** Reading back a quoted string. *)
Lemma parse_string_quote (s rest : text) :
  expect QUOTE (quote s ++ rest) = Some (quote_units s ++ QUOTE :: rest)
  /\ parse_string (quote_units s ++ QUOTE :: rest) = Some (s, rest).
Proof.
  split; [|apply parse_quote_units].
  unfold quote. simpl. now rewrite <- app_assoc.
Qed.

(** ** Values that survive serialisation *)


Lemma value_induction (P : value -> Prop) :
  P VUndefined -> P VNull -> (forall b, P (VBool b)) -> (forall n, P (VNum n)) ->
  (forall s, P (VStr s)) ->
  (forall l, Forall P l -> P (VArr l)) ->
  (forall l, Forall (fun p => P (snd p)) l -> P (VObj l)) ->
  forall v, P v.
Proof.
  intros HU HN HB HNum HS HA HO. fix IH 1.
  intros [ | | b | n | s | l | l].
  - exact HU.
  - exact HN.
  - apply HB.
  - apply HNum.
  - apply HS.
  - apply HA. induction l as [|x l IHl]; constructor; [apply IH | exact IHl].
  - apply HO. induction l as [|[k x] l IHl]; constructor; [apply IH | exact IHl].
Qed.

Lemma skip_ws_head (s : text) : value_head s = true -> skip_ws s = s.
Proof.
  destruct s as [|c s]; [reflexivity|]. simpl.
  destruct (is_json_ws c); [discriminate | reflexivity].
Qed.

Lemma skip_ws_blank (b s : text) :
  forallb is_json_ws b = true -> skip_ws (b ++ s) = skip_ws s.
Proof.
  induction b as [|c b IH]; [reflexivity|]. simpl.
  intros [Hc Hb]%andb_true_iff. rewrite Hc. auto.
Qed.

Lemma expect_head (c : N) (s : text) :
  value_head s = true -> c = 93 \/ c = 125 -> expect c s = None.
Proof.
  destruct s as [|x s]; [reflexivity|]. simpl.
  intros [[_ H93]%andb_true_iff H125]%andb_true_iff Hc.
  apply negb_true_iff in H93, H125.
  destruct Hc as [-> | ->]; [now rewrite H93 | now rewrite H125].
Qed.

Lemma value_head_app (t s : text) : value_head t = true -> value_head (t ++ s) = true.
Proof. destruct t; [discriminate | auto]. Qed.

Lemma dec_of_Z_head (z : Z) : value_head (dec_of_Z z) = true.
Proof.
  unfold dec_of_Z.
  assert (forall n, value_head (dec_of_N n) = true) as Hn.
  { intros n. destruct (dec_of_N_head n) as (c & r & -> & Hc & _).
    apply is_digit_range in Hc. simpl. unfold is_json_ws.
    repeat match goal with
           | |- context [?a =? ?b] => destruct (N.eqb_spec a b); [lia|]
           end.
    reflexivity. }
  destruct z; auto.
Qed.

Lemma digit_head (c : N) (r : text) : is_digit c = true -> value_head (c :: r) = true.
Proof.
  intros Hc%is_digit_range. simpl. unfold is_json_ws.
  repeat match goal with
         | |- context [?a =? ?b] => destruct (N.eqb_spec a b); [lia|]
         end.
  reflexivity.
Qed.

Lemma fraction_text_head (n : N) (k : positive) :
  value_head (fraction_text (dec_of_N n) k) = true.
Proof.
  destruct (dec_of_N_head n) as (c & r & -> & Hc & _). unfold fraction_text.
  set (p := (Z.of_nat (length (c :: r)) - Z.pos k)%Z).
  destruct (Z.ltb_spec 0 p) as [Hp|Hp]; cbn [andb].
  - destruct (p <=? 21)%Z.
    + destruct (Z.to_nat p) eqn:Hn; [lia|]. cbn [take app]. now apply digit_head.
    + destruct ((-6 <? p)%Z && (p <=? 0)%Z); [reflexivity | now apply digit_head].
  - destruct ((-6 <? p)%Z && (p <=? 0)%Z); [reflexivity | now apply digit_head].
Qed.

Lemma number_text_head (m : Z) (k : positive) :
  value_head (number_to_text (Dec m k)) = true.
Proof.
  cbn [number_to_text]. destruct (m <? 0)%Z; [reflexivity|]. apply fraction_text_head.
Qed.

Lemma serialize_head (gap ind : text) (v : value) (t : text) :
  serialize gap ind v = Some t -> value_head t = true.
Proof.
  destruct v as [ | | [|] | [|z|m k|b] | s | l | l]; simpl; intros Ht;
    try discriminate; injection Ht as <-; try reflexivity.
  - apply dec_of_Z_head.
  - apply number_text_head.
  - unfold wrap. destruct (map _ l); [reflexivity|]. destruct gap; reflexivity.
  - unfold wrap. destruct (omap _ l); [reflexivity|]. destruct gap; reflexivity.
Qed.

Lemma serialize_defined (gap ind : text) (v : value) :
  plain v = true -> exists t, serialize gap ind v = Some t.
Proof.
  destruct v as [ | | [|] | [|z|m k|b] | s | l | l]; simpl; try discriminate; eauto.
Qed.

Lemma join_cons2 (sep p q : text) (ps : list text) :
  join sep (p :: q :: ps) = p ++ sep ++ join sep (q :: ps).
Proof. reflexivity. Qed.

Lemma join_cons_ne (sep p : text) (ps : list text) :
  ps <> [] -> join sep (p :: ps) = p ++ sep ++ join sep ps.
Proof. destruct ps; [contradiction | reflexivity]. Qed.

Lemma join_head (sep p : text) (ps : list text) (tail : text) :
  value_head p = true -> value_head (join sep (p :: ps) ++ tail) = true.
Proof.
  intros Hp. destruct ps as [|q ps].
  - now apply value_head_app.
  - rewrite join_cons2, <- app_assoc. now apply value_head_app.
Qed.

Lemma obj_lookup_fresh (acc : list (text * value)) (k : text) :
  k ∉ map fst acc -> obj_lookup acc k = None.
Proof.
  induction acc as [|[k' v'] acc IH]; [reflexivity|]. simpl. intros Hk.
  apply not_elem_of_cons in Hk as [Hne Hk].
  unfold text_eqb. rewrite bool_decide_eq_false_2 by congruence.
  now apply IH.
Qed.

Lemma obj_set_fresh (acc : list (text * value)) (k : text) (v : value) :
  k ∉ map fst acc -> plain_key k = true -> obj_set acc k v = acc ++ [(k, v)].
Proof.
  intros Hk Hp. unfold obj_set. rewrite obj_lookup_fresh by assumption.
  unfold plain_key in Hp. now destruct (array_index k).
Qed.

Lemma parse_value_S (f : nat) (c : N) (r : text) :
  parse_value (S f) (c :: r)
  = if c =? 123 then
      match expect 125 (skip_ws r) with
      | Some r' => Some (VObj [], r')
      | None => parse_members f [] (skip_ws r)
      end
    else if c =? 91 then
      match expect 93 (skip_ws r) with
      | Some r' => Some (VArr [], r')
      | None => parse_elements f [] (skip_ws r)
      end
    else if c =? QUOTE then
      match parse_string r with
      | Some (str, r') => Some (VStr str, r')
      | None => None
      end
    else if c =? 116 then
      match strip_prefix (lit "rue") r with
      | Some r' => Some (VBool true, r')
      | None => None
      end
    else if c =? 102 then
      match strip_prefix (lit "alse") r with
      | Some r' => Some (VBool false, r')
      | None => None
      end
    else if c =? 110 then
      match strip_prefix (lit "ull") r with
      | Some r' => Some (VNull, r')
      | None => None
      end
    else
      match parse_number (c :: r) with
      | Some (n, r') => Some (VNum n, r')
      | None => None
      end.
Proof. reflexivity. Qed.

Lemma parse_elements_S (f : nat) (acc : list value) (s : text) :
  parse_elements (S f) acc s
  = match parse_value f s with
    | Some (v, r) =>
        match skip_ws r with
        | c :: r' =>
            if c =? 44 then parse_elements f (acc ++ [v]) (skip_ws r')
            else if c =? 93 then Some (VArr (acc ++ [v]), r')
            else None
        | [] => None
        end
    | None => None
    end.
Proof. reflexivity. Qed.

Lemma parse_members_S (f : nat) (acc : list (text * value)) (s : text) :
  parse_members (S f) acc s
  = match expect QUOTE s with
    | Some r =>
        match parse_string r with
        | Some (k, r1) =>
            match expect 58 (skip_ws r1) with
            | Some r2 =>
                match parse_value f (skip_ws r2) with
                | Some (v, r3) =>
                    match skip_ws r3 with
                    | c :: r4 =>
                        if c =? 44 then parse_members f (obj_set acc k v) (skip_ws r4)
                        else if c =? 125 then Some (VObj (obj_set acc k v), r4)
                        else None
                    | [] => None
                    end
                | None => None
                end
            | None => None
            end
        | None => None
        end
    | None => None
    end.
Proof. reflexivity. Qed.

(** ** [JSON.parse] reads back what [JSON.stringify] prints *)

Section RoundTrip.

Variable gap : text.
Hypothesis gap_blank : forallb is_json_ws gap = true.
Hypothesis gap_nonempty : gap <> [].


Lemma wrap_pretty (ind : text) (o c : N) (p : text) (ps : list text) :
  wrap gap ind o c (p :: ps)
  = o :: LF :: (ind ++ gap) ++ join (44 :: LF :: (ind ++ gap)) (p :: ps)
      ++ LF :: ind ++ [c].
Proof. unfold wrap. destruct gap; [contradiction | reflexivity]. Qed.

Lemma member_pretty (k t : text) : member gap k t = quote k ++ 58 :: SPACE :: t.
Proof. unfold member. destruct gap; [contradiction | reflexivity]. Qed.

Lemma blank_indent (ind : text) :
  forallb is_json_ws ind = true -> forallb is_json_ws (ind ++ gap) = true.
Proof. intros H. rewrite forallb_app, H. exact gap_blank. Qed.

(** After a value: white space, then the text that follows. *)
Lemma skip_ws_line (b s : text) :
  forallb is_json_ws b = true -> value_head s = true ->
  skip_ws (LF :: b ++ s) = s.
Proof.
  intros Hb Hs. change (LF :: b ++ s) with ((LF :: b) ++ s).
  rewrite skip_ws_blank by (simpl; exact Hb). now apply skip_ws_head.
Qed.

Lemma skip_ws_closing (b : text) (c : N) (rest : text) :
  forallb is_json_ws b = true -> is_json_ws c = false ->
  skip_ws (LF :: b ++ c :: rest) = c :: rest.
Proof.
  intros Hb Hc. change (LF :: b ++ c :: rest) with ((LF :: b) ++ c :: rest).
  rewrite skip_ws_blank by (simpl; exact Hb). simpl. now rewrite Hc.
Qed.

Lemma parse_elements_join (ind' ind rest : text) (l : list value) (parts : list text) :
  Forall2 (fun v t => serialize gap ind' v = Some t) l parts ->
  Forall (reads_back gap) l ->
  forallb plain l = true ->
  l <> [] ->
  forallb is_json_ws ind' = true ->
  forallb is_json_ws ind = true ->
  forall acc fuel,
    (length (join (44%N :: LF :: ind') parts) < fuel)%nat ->
    parse_elements fuel acc (join (44 :: LF :: ind') parts ++ LF :: ind ++ 93 :: rest)
    = Some (VArr (acc ++ l), rest).
Proof.
  intros Hparts HIH Hplain Hne Hind' Hind.
  induction Hparts as [|v t l parts Ht Hparts IHl]; [contradiction|].
  intros acc fuel Hfuel.
  apply Forall_cons in HIH as [Hv HIH].
  apply andb_true_iff in Hplain as [Hpv Hpl].
  pose proof (serialize_head _ _ _ _ Ht) as Hhead.
  destruct fuel as [|f]; [lia|].
  rewrite parse_elements_S.
  destruct Hparts as [|v2 t2 l parts Ht2 Hparts].
  - cbn [join] in *.
    rewrite (Hv Hpv ind' t (LF :: ind ++ 93 :: rest) f Hind' Ht eq_refl) by lia.
    rewrite skip_ws_closing by (assumption || reflexivity).
    reflexivity.
  - rewrite join_cons_ne in * by discriminate.
    rewrite !length_app in Hfuel. cbn [length] in Hfuel.
    rewrite <- !app_assoc. cbn [app].
    match goal with
    | |- context [parse_value f (t ++ ?r)] =>
        rewrite (Hv Hpv ind' t r f Hind' Ht eq_refl) by lia
    end.
    rewrite (skip_ws_head (44 :: _)) by reflexivity. rewrite N.eqb_refl.
    assert (Hnext : value_head (join (44 :: LF :: ind') (t2 :: parts)
                                 ++ LF :: ind ++ 93 :: rest) = true).
    { apply join_head. eapply serialize_head, Ht2. }
    rewrite skip_ws_line by assumption.
    rewrite (IHl HIH Hpl ltac:(discriminate) (acc ++ [v]) f) by lia.
    now rewrite <- app_assoc.
Qed.

Lemma elements_text (ind' : text) (l : list value) :
  forallb plain l = true ->
  Forall2 (fun v t => serialize gap ind' v = Some t) l
          (map (fun x => default (lit "null") (serialize gap ind' x)) l).
Proof.
  induction l as [|v l IH]; [constructor|].
  intros [Hv Hl]%andb_true_iff.
  destruct (serialize_defined gap ind' v Hv) as [t Ht].
  cbn [map]. constructor; [|auto]. now rewrite Ht.
Qed.

Lemma parse_members_join (ind' ind rest : text) (l : list (text * value))
      (parts : list text) :
  Forall2 (fun p m => exists t, serialize gap ind' (snd p) = Some t
                                /\ m = member gap (fst p) t) l parts ->
  Forall (fun p => (reads_back gap) (snd p)) l ->
  forallb (fun p => plain (snd p)) l = true ->
  forallb plain_key (map fst l) = true ->
  l <> [] ->
  forallb is_json_ws ind' = true ->
  forallb is_json_ws ind = true ->
  forall acc fuel,
    NoDup (map fst (acc ++ l)) ->
    (length (join (44%N :: LF :: ind') parts) < fuel)%nat ->
    parse_members fuel acc (join (44 :: LF :: ind') parts ++ LF :: ind ++ 125 :: rest)
    = Some (VObj (acc ++ l), rest).
Proof.
  intros Hparts HIH Hplain Hkeys Hne Hind' Hind.
  induction Hparts as [|[k v] m l parts (t & Ht & ->) Hparts IHl]; [contradiction|].
  intros acc fuel Hdup Hfuel. cbn [fst snd] in *.
  apply Forall_cons in HIH as [Hv HIH]. cbn [snd] in Hv.
  cbn [forallb map fst snd] in Hplain, Hkeys.
  apply andb_true_iff in Hplain as [Hpv Hpl].
  apply andb_true_iff in Hkeys as [Hk Hkl].
  pose proof (serialize_head _ _ _ _ Ht) as Hhead.
  assert (Hfresh : k ∉ map fst acc).
  { rewrite map_app in Hdup. apply NoDup_app in Hdup as (_ & Hdisj & _).
    intros Hin. apply (Hdisj k Hin). cbn [map fst]. apply elem_of_cons. now left. }
  assert (Hdup' : NoDup (map fst ((acc ++ [(k, v)]) ++ l))).
  { now rewrite <- app_assoc. }
  rewrite member_pretty in *.
  destruct fuel as [|f]; [lia|].
  rewrite parse_members_S.
  assert (Hstep : forall X,
    ends_number X = true -> (length t <= f)%nat ->
    match expect QUOTE ((quote k ++ 58 :: SPACE :: t) ++ X) with
    | Some r =>
        match parse_string r with
        | Some (k', r1) =>
            match expect 58 (skip_ws r1) with
            | Some r2 =>
                match parse_value f (skip_ws r2) with
                | Some (v', r3) =>
                    match skip_ws r3 with
                    | c :: r4 =>
                        if c =? 44 then parse_members f (obj_set acc k' v') (skip_ws r4)
                        else if c =? 125 then Some (VObj (obj_set acc k' v'), r4)
                        else None
                    | [] => None
                    end
                | None => None
                end
            | None => None
            end
        | None => None
        end
    | None => None
    end
    = match skip_ws X with
      | c :: r4 =>
          if c =? 44 then parse_members f (acc ++ [(k, v)]) (skip_ws r4)
          else if c =? 125 then Some (VObj (acc ++ [(k, v)]), r4)
          else None
      | [] => None
      end).
  { intros X HX Hlen. rewrite <- app_assoc.
    destruct (parse_string_quote k ((58 :: SPACE :: t) ++ X)) as [-> ->].
    cbn [app]. rewrite (skip_ws_head (58 :: _)) by reflexivity.
    cbn [expect]. rewrite N.eqb_refl.
    change (SPACE :: t ++ X) with ([SPACE] ++ t ++ X).
    rewrite skip_ws_blank by reflexivity.
    rewrite skip_ws_head by (now apply value_head_app).
    rewrite (Hv Hpv ind' t X f Hind' Ht HX Hlen).
    now rewrite obj_set_fresh. }
  destruct Hparts as [|[k2 v2] m2 l parts (t2 & Ht2 & ->) Hparts].
  - cbn [join] in *. rewrite !length_app in Hfuel. cbn [length] in Hfuel.
    rewrite Hstep by (reflexivity || lia).
    rewrite skip_ws_closing by (assumption || reflexivity).
    reflexivity.
  - rewrite join_cons_ne in * by discriminate.
    rewrite !length_app in Hfuel. cbn [length] in Hfuel.
    rewrite <- (app_assoc (quote k ++ 58 :: SPACE :: t)).
    rewrite Hstep by (reflexivity || lia).
    rewrite <- !app_assoc. cbn [app].
    rewrite (skip_ws_head (44 :: _)) by reflexivity. rewrite N.eqb_refl.
    assert (Hnext : value_head (join (44 :: LF :: ind') (member gap k2 t2 :: parts)
                                 ++ LF :: ind ++ 125 :: rest) = true).
    { apply join_head. rewrite member_pretty. reflexivity. }
    rewrite skip_ws_line by assumption.
    rewrite (IHl HIH Hpl Hkl ltac:(discriminate) (acc ++ [(k, v)]) f Hdup') by lia.
    now rewrite <- app_assoc.
Qed.

Lemma members_text (ind' : text) (l : list (text * value)) :
  forallb (fun p => plain (snd p)) l = true ->
  exists parts,
    omap (fun p => match p with
                   | (k, x) => match serialize gap ind' x with
                               | Some t => Some (member gap k t)
                               | None => None
                               end
                   end) l = parts
    /\ Forall2 (fun p m => exists t, serialize gap ind' (snd p) = Some t
                                     /\ m = member gap (fst p) t) l parts.
Proof.
  induction l as [|[k v] l IH].
  - intros _. exists []. split; [reflexivity | constructor].
  - intros [Hv Hl]%andb_true_iff. cbn [snd] in Hv.
    destruct (IH Hl) as (parts & Hparts & Hall).
    destruct (serialize_defined gap ind' v Hv) as [t Ht].
    exists (member gap k t :: parts). split.
    + cbn [omap list_omap]. rewrite Ht. cbn. now rewrite <- Hparts.
    + constructor; [|exact Hall]. exists t. auto.
Qed.

Lemma dec_of_Z_first (z : Z) :
  exists c r, dec_of_Z z = c :: r /\ (c = 45 \/ 48 <= c <= 57).
Proof.
  unfold dec_of_Z. destruct z as [|p|p].
  - destruct (dec_of_N_head (Z.to_N 0)) as (c & r & -> & Hc%is_digit_range & _). eauto.
  - destruct (dec_of_N_head (Z.to_N (Zpos p))) as (c & r & -> & Hc%is_digit_range & _). eauto.
  - eauto.
Qed.

(** One value, at any indentation, followed by anything that cannot extend a
    number. *)
Theorem parse_serialize (v : value) : reads_back gap v.
Proof.
  induction v as [ | | b | n | s | l IHl | l IHl] using value_induction;
    intros Hplain ind t rest fuel Hind Ht Hrest Hfuel.
  - discriminate.
  - injection Ht as <-. assert (1 <= fuel)%nat as Hf by (etransitivity; [|exact Hfuel]; cbv; lia).
    destruct fuel as [|fuel]; [lia|]. reflexivity.
  - destruct b; injection Ht as <-;
      (assert (1 <= fuel)%nat as Hf by (etransitivity; [|exact Hfuel]; cbv; lia));
      (destruct fuel as [|fuel]; [lia|]); reflexivity.
  - destruct n as [|z|m k|b]; try discriminate. injection Ht as <-.
    cbn [number_to_text] in *.
    destruct (dec_of_Z_first z) as (c & r & Heq & Hc).
    pose proof (parse_number_dec z rest Hrest) as Hnum.
    rewrite Heq in *. cbn [app] in *.
    destruct fuel as [|fuel]; [cbn in Hfuel; lia|].
    rewrite parse_value_S, Hnum.
    repeat match goal with
           | |- context [c =? ?b] => destruct (N.eqb_spec c b); [unfold QUOTE in *; lia|]
           end.
    reflexivity.
  - injection Ht as <-. unfold quote in *. cbn [app length] in *.
    destruct fuel as [|fuel]; [lia|].
    rewrite parse_value_S. cbn [N.eqb Pos.eqb QUOTE].
    rewrite <- app_assoc. cbn [app]. now rewrite parse_quote_units.
  - cbn [plain] in Hplain. cbn [serialize] in Ht. injection Ht as <-.
    pose proof (elements_text (ind ++ gap) l Hplain) as Hparts.
    destruct Hparts as [|v t l parts Hvt Hparts].
    + destruct fuel as [|fuel]; [cbn in Hfuel; lia|]. reflexivity.
    + rewrite wrap_pretty in *.
      assert (Hhead : value_head (join (44 :: LF :: ind ++ gap) (t :: parts)
                                   ++ LF :: ind ++ 93 :: rest) = true).
      { apply join_head. eapply serialize_head, Hvt. }
      cbn [app length] in *. rewrite !length_app in Hfuel. cbn [length] in Hfuel.
      destruct fuel as [|fuel]; [lia|].
      match goal with
      | |- parse_value _ (?o :: LF :: ((?a ++ ?j ++ LF :: ?i ++ [?c]) ++ ?r)) = _ =>
          replace (o :: LF :: ((a ++ j ++ LF :: i ++ [c]) ++ r))
            with (o :: LF :: a ++ (j ++ LF :: i ++ c :: r))
            by (cbn [app]; rewrite <- !app_assoc; cbn [app]; rewrite <- ?app_assoc; reflexivity)
      end.
      rewrite parse_value_S. cbn [N.eqb Pos.eqb].
      rewrite (skip_ws_line (ind ++ gap)) by (assumption || now apply blank_indent).
      rewrite expect_head by (assumption || auto).
      apply (parse_elements_join (ind ++ gap) ind rest (v :: l) (t :: parts));
        [now constructor | exact IHl | exact Hplain | discriminate
        | now apply blank_indent | exact Hind | lia].
  - cbn [plain] in Hplain.
    apply andb_true_iff in Hplain as [[Hdup%bool_decide_eq_true Hkeys]%andb_true_iff Hpl].
    destruct (members_text (ind ++ gap) l Hpl) as (parts & Heq & Hparts).
    cbn [serialize] in Ht. rewrite Heq in Ht. injection Ht as <-.
    destruct Hparts as [|[k v] m l parts Hm Hparts].
    + destruct fuel as [|fuel]; [cbn in Hfuel; lia|]. reflexivity.
    + rewrite wrap_pretty in *.
      assert (Hhead : value_head (join (44 :: LF :: ind ++ gap) (m :: parts)
                                   ++ LF :: ind ++ 125 :: rest) = true).
      { apply join_head. destruct Hm as (t & _ & ->). now rewrite member_pretty. }
      cbn [app length] in *. rewrite !length_app in Hfuel. cbn [length] in Hfuel.
      destruct fuel as [|fuel]; [lia|].
      match goal with
      | |- parse_value _ (?o :: LF :: ((?a ++ ?j ++ LF :: ?i ++ [?c]) ++ ?r)) = _ =>
          replace (o :: LF :: ((a ++ j ++ LF :: i ++ [c]) ++ r))
            with (o :: LF :: a ++ (j ++ LF :: i ++ c :: r))
            by (cbn [app]; rewrite <- !app_assoc; cbn [app]; rewrite <- ?app_assoc; reflexivity)
      end.
      rewrite parse_value_S. cbn [N.eqb Pos.eqb].
      rewrite (skip_ws_line (ind ++ gap)) by (assumption || now apply blank_indent).
      rewrite expect_head by (assumption || auto).
      apply (parse_members_join (ind ++ gap) ind rest ((k, v) :: l) (m :: parts));
        [now constructor | exact IHl | exact Hpl | exact Hkeys | discriminate
        | now apply blank_indent | exact Hind | exact Hdup | lia].
Qed.


End RoundTrip.

(** [JSON.parse(JSON.stringify(v, null, n))] is [v] for a plain [v] and any
    indentation [n] of at least one space. *)
Theorem JSON_parse_stringify (v : value) (space : nat) (t : text) :
  plain v = true -> (1 <= space)%nat ->
  JSON_stringify v space = Some t -> JSON_parse t = Some v.
Proof.
  intros Hplain Hspace Ht. unfold JSON_stringify in Ht.
  set (gap := replicate (Nat.min space 10) SPACE) in *.
  assert (Hblank : forallb is_json_ws gap = true).
  { subst gap. clear. induction (Nat.min space 10); [reflexivity | exact IHn]. }
  assert (Hne : gap <> []).
  { subst gap. destruct (Nat.min space 10) eqn:Hmin; [lia | discriminate]. }
  pose proof (parse_serialize gap Hblank Hne v Hplain [] t [] (S (length t))
                eq_refl Ht eq_refl ltac:(lia)) as Hparse.
  rewrite app_nil_r in Hparse.
  unfold JSON_parse.
  rewrite skip_ws_head by (eapply serialize_head, Ht).
  now rewrite Hparse.
Qed.

(** [JSON.stringify] of an object or array is never [undefined]. *)
Lemma JSON_stringify_obj (props : list (text * value)) (space : nat) :
  exists t, JSON_stringify (VObj props) space = Some t.
Proof. unfold JSON_stringify. cbn [serialize]. eauto. Qed.

Lemma plain_strings (l : list text) : forallb plain (map VStr l) = true.
Proof. induction l; [reflexivity | exact IHl]. Qed.

Lemma plain_stored_value (r : StoredCredentials) (z : Z) :
  expiresAt r = Int z -> plain (stored_value r) = true.
Proof.
  intros Hexp. unfold stored_value, oauth_value. rewrite Hexp.
  cbn [plain map fst snd forallb].
  rewrite plain_strings.
  repeat (apply andb_true_intro; split); try reflexivity;
    try (apply bool_decide_eq_true; vm_compute; repeat constructor; set_solver).
Qed.

(** ** The fuel of [parse_value] is never what decides *)

Lemma skip_ws_length (s : text) : (length (skip_ws s) <= length s)%nat.
Proof.
  induction s as [|c s IH]; simpl; [lia|].
  destruct (is_json_ws c); simpl; lia.
Qed.

Lemma expect_length (c : N) (s r : text) :
  expect c s = Some r -> length s = S (length r).
Proof.
  destruct s as [|x s]; simpl; [discriminate|].
  destruct (x =? c); [|discriminate]. now intros [= ->].
Qed.

Lemma strip_prefix_length (p s r : text) :
  strip_prefix p s = Some r -> (length r <= length s)%nat.
Proof.
  revert s. induction p as [|a p IH]; intros [|b s]; simpl; try discriminate.
  - now intros [= <-].
  - now intros [= <-].
  - destruct (a =? b); [|discriminate]. intros H. apply IH in H. lia.
Qed.

Lemma span_length (p : N -> bool) (s a b : text) :
  span p s = (a, b) -> length s = (length a + length b)%nat.
Proof.
  revert a b. induction s as [|c s IH]; simpl; intros a b.
  - now intros [= <- <-].
  - destruct (p c).
    + destruct (span p s) as [a' b'] eqn:Hs. intros [= <- <-].
      simpl. now rewrite (IH a' b' eq_refl).
    + now intros [= <- <-].
Qed.

Lemma fraction_part_length (s fs r : text) :
  fraction_part s = Some (fs, r) -> (length r <= length s)%nat.
Proof.
  unfold fraction_part. destruct s as [|c s']; [now intros [= _ <-]|].
  destruct (c =? 46); [|now intros [= _ <-]].
  destruct (span is_digit s') as [ds rest] eqn:Hspan.
  apply span_length in Hspan. destruct ds; [discriminate|].
  intros [= _ <-]. simpl in *. lia.
Qed.

Lemma exponent_part_length (s : text) (e : Z) (r : text) :
  exponent_part s = Some (e, r) -> (length r <= length s)%nat.
Proof.
  unfold exponent_part. destruct s as [|c s']; [now intros [= _ <-]|].
  destruct ((c =? 101) || (c =? 69)); [|now intros [= _ <-]].
  assert (Hsign : forall neg r', (length r' <= length s')%nat ->
            (let '(es, rest) := span is_digit r' in
             match es with
             | [] => None
             | _ :: _ => Some (signed neg (N_of_dec es), rest)
             end) = Some (e, r) -> (length r <= length (c :: s'))%nat).
  { intros neg r' Hr'. destruct (span is_digit r') as [ds rest] eqn:Hspan.
    apply span_length in Hspan. destruct ds; [discriminate|].
    intros [= _ <-]. simpl in *. lia. }
  destruct s' as [|g r1]; [apply (Hsign false []); simpl; lia|].
  destruct (g =? 45); [apply (Hsign true r1); simpl; lia|].
  destruct (g =? 43); [apply (Hsign false r1); simpl; lia|].
  apply (Hsign false (g :: r1)); simpl; lia.
Qed.

Lemma parse_digits_length (neg : bool) (s : text) (n : number) (r : text) :
  parse_digits neg s = Some (n, r) -> (length r < length s)%nat.
Proof.
  unfold parse_digits. destruct (span is_digit s) as [ds rest] eqn:Hspan.
  apply span_length in Hspan. destruct ds as [|d ds']; [discriminate|].
  destruct ((d =? 48) && _); [discriminate|].
  destruct (fraction_part rest) as [[fs rest1]|] eqn:Hfrac; [|discriminate].
  destruct (exponent_part rest1) as [[e rest2]|] eqn:Hexp; [|discriminate].
  apply fraction_part_length in Hfrac. apply exponent_part_length in Hexp.
  intros [= _ <-]. simpl in *. lia.
Qed.

Lemma parse_number_length (s : text) (n : number) (r : text) :
  parse_number s = Some (n, r) -> (length r < length s)%nat.
Proof.
  unfold parse_number. destruct s as [|c s']; [discriminate|].
  destruct (c =? 45); intros H%parse_digits_length; simpl in *; lia.
Qed.

Lemma parse_string_length (s k r : text) :
  parse_string s = Some (k, r) -> (length r < length s)%nat.
Proof.
  remember (length s) as n eqn:Hn. revert s k r Hn.
  induction n as [n IH] using lt_wf_ind. intros s k r Hn.
  destruct s as [|c s]; [discriminate|]. simpl in Hn. simpl parse_string.
  destruct (c =? QUOTE); [intros [= _ <-]; lia|].
  destruct (c =? BACKSLASH).
  - destruct s as [|e s1]; [discriminate|].
    destruct (e =? 117).
    + destruct s1 as [|h1 [|h2 [|h3 [|h4 s2]]]]; try discriminate.
      destruct (unhex4 h1 h2 h3 h4); [|discriminate].
      destruct (parse_string s2) as [[str rest]|] eqn:Hrec; [|discriminate].
      intros [= _ <-].
      pose proof (IH (length s2) ltac:(simpl in Hn; lia) s2 str rest eq_refl Hrec).
      simpl in *. lia.
    + destruct (unescape e); [|discriminate].
      destruct (parse_string s1) as [[str rest]|] eqn:Hrec; [|discriminate].
      intros [= _ <-].
      pose proof (IH (length s1) ltac:(simpl in Hn; lia) s1 str rest eq_refl Hrec).
      simpl in *. lia.
  - destruct (c <? 32); [discriminate|].
    destruct (parse_string s) as [[str rest]|] eqn:Hrec; [|discriminate].
    intros [= _ <-].
    pose proof (IH (length s) ltac:(lia) s str rest eq_refl Hrec). lia.
Qed.

Lemma parse_fuel (f : nat) :
  enough_fuel (fun f (_ : unit) => parse_value f) f
  /\ enough_fuel parse_elements f
  /\ enough_fuel parse_members f.
Proof.
  induction f as [|f (IHv & IHe & IHm)].
  { split; [|split]; intros a s v r Hp; discriminate Hp. }
  assert (Hv : enough_fuel (fun f (_ : unit) => parse_value f) (S f)).
  { intros _ s v r. cbv beta. destruct s as [|c s']; [discriminate|].
    rewrite parse_value_S. pose proof (skip_ws_length s') as Hws.
    assert (Hfree : forall res : option (value * text),
              (forall f', parse_value (S f') (c :: s') = res) ->
              res = Some (v, r) -> (length r < length (c :: s'))%nat ->
              (length r < length (c :: s'))%nat
              /\ forall f', (length (c :: s') - length r <= f')%nat ->
                            parse_value f' (c :: s') = Some (v, r)).
    { intros res Hres -> Hlen. split; [exact Hlen|].
      intros [|f'] Hf'; [simpl in *; lia | apply Hres]. }
    destruct (c =? 123) eqn:H123.
    { destruct (expect 125 (skip_ws s')) as [r'|] eqn:Hexp.
      - intros [= <- <-]. pose proof (expect_length _ _ _ Hexp) as Hlen.
        apply (Hfree (Some (VObj [], r'))); [|reflexivity|simpl; lia].
        intros f'. now rewrite parse_value_S, H123, Hexp.
      - intros H. destruct (IHm [] (skip_ws s') v r H) as [Hlen Hmore].
        split; [simpl; lia|]. intros [|f'] Hf'; [simpl in *; lia|].
        rewrite parse_value_S, H123, Hexp. apply Hmore. simpl in *. lia. }
    destruct (c =? 91) eqn:H91.
    { destruct (expect 93 (skip_ws s')) as [r'|] eqn:Hexp.
      - intros [= <- <-]. pose proof (expect_length _ _ _ Hexp) as Hlen.
        apply (Hfree (Some (VArr [], r'))); [|reflexivity|simpl; lia].
        intros f'. now rewrite parse_value_S, H123, H91, Hexp.
      - intros H. destruct (IHe [] (skip_ws s') v r H) as [Hlen Hmore].
        split; [simpl; lia|]. intros [|f'] Hf'; [simpl in *; lia|].
        rewrite parse_value_S, H123, H91, Hexp. apply Hmore. simpl in *. lia. }
    destruct (c =? QUOTE) eqn:Hq.
    { destruct (parse_string s') as [[str r']|] eqn:Hstr; [|discriminate].
      intros [= <- <-]. pose proof (parse_string_length _ _ _ Hstr) as Hlen.
      apply (Hfree (Some (VStr str, r'))); [|reflexivity|simpl; lia].
      intros f'. now rewrite parse_value_S, H123, H91, Hq, Hstr. }
    destruct (c =? 116) eqn:Ht.
    { destruct (strip_prefix (lit "rue") s') as [r'|] eqn:Hp; [|discriminate].
      intros [= <- <-]. pose proof (strip_prefix_length _ _ _ Hp) as Hlen.
      apply (Hfree (Some (VBool true, r'))); [|reflexivity|simpl; lia].
      intros f'. now rewrite parse_value_S, H123, H91, Hq, Ht, Hp. }
    destruct (c =? 102) eqn:Hf.
    { destruct (strip_prefix (lit "alse") s') as [r'|] eqn:Hp; [|discriminate].
      intros [= <- <-]. pose proof (strip_prefix_length _ _ _ Hp) as Hlen.
      apply (Hfree (Some (VBool false, r'))); [|reflexivity|simpl; lia].
      intros f'. now rewrite parse_value_S, H123, H91, Hq, Ht, Hf, Hp. }
    destruct (c =? 110) eqn:Hn.
    { destruct (strip_prefix (lit "ull") s') as [r'|] eqn:Hp; [|discriminate].
      intros [= <- <-]. pose proof (strip_prefix_length _ _ _ Hp) as Hlen.
      apply (Hfree (Some (VNull, r'))); [|reflexivity|simpl; lia].
      intros f'. now rewrite parse_value_S, H123, H91, Hq, Ht, Hf, Hn, Hp. }
    destruct (parse_number (c :: s')) as [[n r']|] eqn:Hnum; [|discriminate].
    intros [= <- <-]. pose proof (parse_number_length _ _ _ Hnum) as Hlen.
    apply (Hfree (Some (VNum n, r'))); [|reflexivity|exact Hlen].
    intros f'. now rewrite parse_value_S, H123, H91, Hq, Ht, Hf, Hn, Hnum. }
  split; [exact Hv|]. split.
  - intros acc s v r. rewrite parse_elements_S.
    destruct (parse_value f s) as [[v1 r1]|] eqn:Hv1; [|discriminate].
    destruct (IHv tt s v1 r1 Hv1) as [Hlen1 Hmore1].
    pose proof (skip_ws_length r1) as Hws1.
    destruct (skip_ws r1) as [|c r'] eqn:Hskip; [discriminate|].
    pose proof (skip_ws_length r') as Hws'. simpl in Hws1.
    destruct (c =? 44) eqn:H44.
    + intros H. destruct (IHe (acc ++ [v1]) (skip_ws r') v r H) as [Hlen Hmore].
      split; [lia|]. intros [|f'] Hf'; [lia|].
      rewrite parse_elements_S, (Hmore1 f') by lia. rewrite Hskip, H44.
      apply Hmore. lia.
    + destruct (c =? 93) eqn:H93; [|discriminate]. intros [= <- <-].
      split; [lia|]. intros [|f'] Hf'; [lia|].
      rewrite parse_elements_S, (Hmore1 f') by lia. now rewrite Hskip, H44, H93.
  - intros acc s v r. rewrite parse_members_S.
    destruct (expect QUOTE s) as [r0|] eqn:Hq; [|discriminate].
    pose proof (expect_length _ _ _ Hq) as Hlen0.
    destruct (parse_string r0) as [[k r1]|] eqn:Hk; [|discriminate].
    pose proof (parse_string_length _ _ _ Hk) as Hlen1.
    pose proof (skip_ws_length r1) as Hws1.
    destruct (expect 58 (skip_ws r1)) as [r2|] eqn:Hc; [|discriminate].
    pose proof (expect_length _ _ _ Hc) as Hlen2.
    pose proof (skip_ws_length r2) as Hws2.
    destruct (parse_value f (skip_ws r2)) as [[v1 r3]|] eqn:Hv1; [|discriminate].
    destruct (IHv tt (skip_ws r2) v1 r3 Hv1) as [Hlen3 Hmore3].
    pose proof (skip_ws_length r3) as Hws3.
    destruct (skip_ws r3) as [|c r4] eqn:Hskip; [discriminate|].
    pose proof (skip_ws_length r4) as Hws4. simpl in Hws3.
    destruct (c =? 44) eqn:H44.
    + intros H. destruct (IHm (obj_set acc k v1) (skip_ws r4) v r H) as [Hlen Hmore].
      split; [lia|]. intros [|f'] Hf'; [lia|].
      rewrite parse_members_S, Hq, Hk, Hc, (Hmore3 f') by lia. rewrite Hskip, H44.
      apply Hmore. lia.
    + destruct (c =? 125) eqn:H125; [|discriminate]. intros [= <- <-].
      split; [lia|]. intros [|f'] Hf'; [lia|].
      rewrite parse_members_S, Hq, Hk, Hc, (Hmore3 f') by lia.
      now rewrite Hskip, H44, H125.
Qed.

(** [JSON_parse] returns what [parse_value] finds with any amount of fuel:
    the fuel it runs with is always enough. *)
Theorem JSON_parse_any_fuel (s : text) (f : nat) (v : value) (r : text) :
  parse_value f (skip_ws s) = Some (v, r) -> skip_ws r = [] ->
  JSON_parse s = Some v.
Proof.
  intros Hparse Hend.
  destruct (parse_fuel f) as [Hv _].
  destruct (Hv tt (skip_ws s) v r Hparse) as [_ Hmore].
  unfold JSON_parse. rewrite (Hmore (S (length s))), Hend; [reflexivity|].
  pose proof (skip_ws_length s). lia.
Qed.

(** ** The platform primitives *)

Lemma remote_calls_app (a b : list event) :
  remote_calls (a ++ b) = (remote_calls a + remote_calls b)%nat.
Proof. unfold remote_calls. now rewrite List.filter_app, length_app. Qed.

Lemma file_writes_app (a b : list event) :
  file_writes (a ++ b) = (file_writes a + file_writes b)%nat.
Proof. unfold file_writes. now rewrite List.filter_app, length_app. Qed.

Lemma prefixes_self (p : path) : p ∈ prefixes p.
Proof.
  induction p as [|seg p IH]; simpl.
  - apply elem_of_cons. now left.
  - apply elem_of_cons. right. apply list_elem_of_fmap. eauto.
Qed.

Lemma dirname_credentialsPath (E : env) : dirname (credentialsPath E) = claudeDir E.
Proof. unfold dirname, credentialsPath, join_path. apply removelast_last. Qed.

Lemma prefixes_prefix (p q : path) : q ∈ prefixes p -> q `prefix_of` p.
Proof.
  revert q. induction p as [|seg p IH]; intros q; simpl.
  - intros ->%list_elem_of_singleton. reflexivity.
  - intros [-> | Hq]%elem_of_cons; [apply prefix_nil|].
    apply list_elem_of_fmap in Hq as (q' & -> & Hq').
    apply prefix_cons, IH, Hq'.
Qed.

(** The credential file lies strictly beneath [<home>/.claude] and every
    directory above it. *)
Lemma above_credentialsPath (E : env) (q : path) :
  q ∈ prefixes (claudeDir E) -> q <> credentialsPath E /\ q `prefix_of` credentialsPath E.
Proof.
  intros Hq%prefixes_prefix. split.
  - intros ->. apply prefix_length in Hq.
    unfold credentialsPath, join_path in Hq. rewrite length_app in Hq. simpl in Hq. lia.
  - etransitivity; [exact Hq|]. now apply prefix_app_r.
Qed.

Lemma find_none {A : Type} (f : A -> bool) (l : list A) :
  forallb (fun x => negb (f x)) l = true -> List.find f l = None.
Proof.
  induction l as [|x l IH]; [reflexivity|]. simpl.
  intros [Hx Hl]%andb_true_iff. apply negb_true_iff in Hx. rewrite Hx. auto.
Qed.

Lemma find_some {A : Type} (f : A -> bool) (l : list A) :
  forallb (fun x => negb (f x)) l = false -> exists x, List.find f l = Some x.
Proof.
  induction l as [|x l IH]; [discriminate|]. simpl.
  destruct (f x); [eauto | exact IH].
Qed.

(** [mkdir] and [writeFile] throw before they change anything, or succeed. *)
Lemma mkdir_spec (p : path) (w : world) :
  if forallb (fun q => negb (in_the_way w q)) (prefixes p)
  then mkdir_recursive p w
       = (inr tt, World (files w) (dirs w ∪ list_to_set (prefixes p))
                        (trace w ++ [EMkdir p]))
  else exists e, mkdir_recursive p w = (inl e, w).
Proof.
  unfold mkdir_recursive.
  destruct (forallb _ (prefixes p)) eqn:Hall.
  - now rewrite (find_none _ _ Hall).
  - destruct (find_some _ _ Hall) as [q ->]. eauto.
Qed.

Lemma writeFile_cases (p : path) (data : option text) (w : world) :
  (exists e, writeFile p data w = (inl e, w))
  \/ exists content,
       data = Some content
       /\ writeFile p data w
          = (inr tt, World (<[p := content]> (files w)) (dirs w)
                           (trace w ++ [EWriteFile p content])).
Proof.
  unfold writeFile. destruct data as [content|]; [|eauto].
  destruct (negb (is_directory w (dirname p))); [eauto|].
  destruct (is_directory w p && negb (is_file w p)); eauto.
Qed.

Lemma bind_assoc {A B C : Type} (m : M A) (f : A -> M B) (g : B -> M C) (w : world) :
  bind m (fun a => bind (f a) g) w = bind (bind m f) g w.
Proof. unfold bind. destruct (m w) as [[e|a] w']; reflexivity. Qed.

Section ProgramFacts.

Variable E : env.

(** [loadCredentials] never throws and changes nothing. *)
Lemma load_spec (w : world) :
  loadCredentials E w
  = (inr match files w !! credentialsPath E with
         | Some content => match JSON_parse content with
                           | Some v => v
                           | None => VNull
                           end
         | None => VNull
         end, w).
Proof.
  unfold loadCredentials, try_catch, bind, readFile.
  destruct (files w !! credentialsPath E) as [content|]; [|reflexivity].
  destruct (JSON_parse content); reflexivity.
Qed.

(** Where the credential file exists, it can be written again. *)
Lemma file_writable (w : world) (t : text) :
  files w !! credentialsPath E = Some t -> writable E w = true.
Proof.
  intros Hfile. unfold writable. apply andb_true_intro. split.
  - apply forallb_forall. intros q Hq%list_elem_of_In.
    apply above_credentialsPath in Hq.
    unfold in_the_way, is_directory. rewrite bool_decide_eq_true_2; [now rewrite andb_false_r|].
    right. exists (credentialsPath E). split; [|exact Hq].
    apply elem_of_dom. eauto.
  - unfold is_file. rewrite bool_decide_eq_true_2; eauto.
Qed.

(** The directories [mkdir] makes do not turn the credential file into
    one. *)
Lemma made_directory (w : world) (tr : list event) :
  is_directory (World (files w) (dirs w ∪ list_to_set (prefixes (claudeDir E))) tr)
               (claudeDir E) = true
  /\ is_directory (World (files w) (dirs w ∪ list_to_set (prefixes (claudeDir E))) tr)
                  (credentialsPath E)
     = is_directory w (credentialsPath E).
Proof.
  unfold is_directory, has_file_beneath. cbn [files dirs]. split.
  - apply bool_decide_eq_true_2. left.
    apply elem_of_union_r, elem_of_list_to_set, prefixes_self.
  - apply bool_decide_ext. rewrite elem_of_union, elem_of_list_to_set.
    split; [|tauto]. intros [[H | H] | H]; [tauto | | tauto].
    now apply above_credentialsPath in H as [H _].
Qed.

(** [mkdir] then [writeFile]: the two succeed exactly when there is a text
    to write and the place is [writable]; when they do not, the files are
    left as they were and the place is no more writable than it was. *)
Lemma write_cases (data : option text) (w : world) :
  (exists t, data = Some t /\ writable E w = true
             /\ (mkdir_recursive (claudeDir E) ;; writeFile (credentialsPath E) data) w
                = (inr tt, written E w t))
  \/ ((writable E w = false \/ data = None)
      /\ exists e w',
           (mkdir_recursive (claudeDir E) ;; writeFile (credentialsPath E) data) w
           = (inl e, w')
           /\ files w' = files w
           /\ (writable E w = false -> writable E w' = false)
           /\ (trace w' = trace w \/ trace w' = trace w ++ [EMkdir (claudeDir E)])).
Proof.
  unfold writable, bind. pose proof (mkdir_spec (claudeDir E) w) as Hmk.
  destruct (forallb _ (prefixes (claudeDir E))) eqn:Hall; cbn [andb].
  - rewrite Hmk. unfold writeFile.
    destruct (made_directory w (trace w ++ [EMkdir (claudeDir E)])) as [Hdir Hsame].
    rewrite dirname_credentialsPath, Hdir. cbn [negb].
    destruct data as [t|].
    + destruct (is_file w (credentialsPath E) || negb (is_directory w (credentialsPath E)))
        eqn:Hplace.
      * left. exists t. split; [reflexivity|]. split; [reflexivity|].
        rewrite Hsame.
        change (is_file (World (files w) _ _) (credentialsPath E))
          with (is_file w (credentialsPath E)).
        apply orb_true_iff in Hplace as [-> | ->%negb_true_iff].
        -- rewrite andb_false_r. unfold written. cbn [files dirs trace].
           now rewrite <- app_assoc.
        -- unfold written. cbn [files dirs trace andb]. now rewrite <- app_assoc.
      * right. split; [now left|].
        apply orb_false_iff in Hplace as [Hfile Hd%negb_false_iff].
        rewrite Hsame.
        change (is_file (World (files w) _ _) (credentialsPath E))
          with (is_file w (credentialsPath E)).
        rewrite Hfile, Hd. cbn [negb andb].
        eexists _, _. split; [reflexivity|]. split; [reflexivity|].
        split; [|now right]. intros _.
        rewrite Hsame.
        change (is_file (World (files w) _ _) (credentialsPath E))
          with (is_file w (credentialsPath E)).
        rewrite Hfile, Hd. apply andb_false_r.
    + right. split; [now right|]. eexists _, _. split; [reflexivity|].
      split; [reflexivity|]. split; [|now right]. intros Hw.
      rewrite Hsame.
      change (is_file (World (files w) _ _) (credentialsPath E))
        with (is_file w (credentialsPath E)).
      rewrite Hw. apply andb_false_r.
  - destruct Hmk as [e ->]. right. split; [now left|].
    eexists _, _. split; [reflexivity|]. split; [reflexivity|].
    split; [|now left]. intros _.
    now rewrite Hall.
Qed.

(** [saveCredentials] of anything [JSON.stringify] prints, where it can
    write: the directory is made, then the file written. *)
Lemma save_spec (credentials : value) (t : text) (w : world) :
  writable E w = true ->
  JSON_stringify credentials 2 = Some t ->
  saveCredentials E credentials w = (inr tt, written E w t).
Proof.
  intros Hw Ht. unfold saveCredentials.
  destruct (write_cases (JSON_stringify credentials 2) w)
    as [(t' & Ht' & _ & ->) | ([Hw' | Hnone] & _)]; congruence.
Qed.

(** Every run of [saveCredentials]: it writes the serialisation and returns,
    or throws and leaves the files as they were. *)
Lemma save_cases (credentials : value) (w : world) :
  (exists t, JSON_stringify credentials 2 = Some t
             /\ writable E w = true
             /\ saveCredentials E credentials w = (inr tt, written E w t))
  \/ (exists e, fst (saveCredentials E credentials w) = inl e
                /\ files (snd (saveCredentials E credentials w)) = files w).
Proof.
  unfold saveCredentials.
  destruct (write_cases (JSON_stringify credentials 2) w)
    as [(t & Ht & Hw & Hrun) | (_ & e & w' & Hrun & Hfiles & _)].
  - left. eauto.
  - right. exists e. now rewrite Hrun.
Qed.

(** A [saveCredentials] that throws has written nothing and called
    nobody. *)
Lemma save_throws (credentials : value) (w : world) (e : exn) :
  fst (saveCredentials E credentials w) = inl e ->
  files (snd (saveCredentials E credentials w)) = files w
  /\ (trace (snd (saveCredentials E credentials w)) = trace w
      \/ trace (snd (saveCredentials E credentials w))
         = trace w ++ [EMkdir (claudeDir E)]).
Proof.
  unfold saveCredentials.
  destruct (write_cases (JSON_stringify credentials 2) w)
    as [(t & _ & _ & Hrun) | (_ & e' & w' & Hrun & Hfiles & _ & Htrace)];
    rewrite Hrun; [discriminate|]. auto.
Qed.

End ProgramFacts.

(** ** Property access on the stored record *)

Lemma Get_stored (r : StoredCredentials) :
  Get (stored_value r) (lit "claudeAiOauth") = inr (oauth_value r).
Proof. reflexivity. Qed.

Lemma Get_expiresAt (r : StoredCredentials) :
  Get (oauth_value r) (lit "expiresAt") = inr (VNum (expiresAt r)).
Proof. reflexivity. Qed.

Lemma Get_refreshToken (r : StoredCredentials) :
  Get (oauth_value r) (lit "refreshToken") = inr (VStr (refreshToken r)).
Proof. reflexivity. Qed.

(** The three assignments on a well-formed record and a well-formed
    response. *)
Lemma apply_response_stored (r : StoredCredentials) (resp : RefreshTokenResponse)
      (v : value) (now : Z) :
  carries v resp ->
  apply_response (stored_value r) (VNum (Int now)) v
  = inr (stored_value (refreshed r resp now)).
Proof.
  intros (Ha & Hr & He). unfold apply_response. rewrite Ha, Hr, He. reflexivity.
Qed.

Lemma assign_member_obj (o : value) (k1 k2 : text) (x o' : value) :
  assign_member o k1 k2 x = inr o' -> exists props, o' = VObj props.
Proof.
  unfold assign_member.
  destruct o as [ | | b | n | s | l | l]; simpl; try discriminate.
  destruct (default VUndefined (obj_lookup l k1)); simpl; try discriminate;
    intros [= <-]; eauto.
Qed.

Lemma apply_response_obj (c now v c' : value) :
  apply_response c now v = inr c' -> exists props, c' = VObj props.
Proof.
  unfold apply_response. intros H.
  repeat match type of H with
         | match ?x with _ => _ end = _ => destruct x eqn:?; try discriminate
         end.
  eapply assign_member_obj, H.
Qed.

(** Only an object can hold an expiry that compares at all: the expiry read
    off anything else is [undefined], and [undefined - now] is [NaN]. *)
Lemma expiring_is_object (oauth ex : value) (now : Z) (remaining : number) :
  Get oauth (lit "expiresAt") = inr ex ->
  js_sub ex (VNum (Int now)) = inr remaining ->
  number_le remaining (Int 300) = true ->
  exists props, oauth = VObj props.
Proof.
  destruct oauth; simpl; try discriminate; eauto;
    intros [= <-] [= <-]; discriminate.
Qed.

Section EnsureFacts.

Variable E : env.

Lemma refresh_spec (rt : value) (w : world) :
  refreshAccessToken E rt w = (refresh_result E rt, called w rt).
Proof.
  unfold refreshAccessToken, refresh_result, bind, fetch_, called.
  destruct (fetch E (refresh_request rt)) as [e|status body]; [reflexivity|].
  destruct (response_ok status); simpl; [|reflexivity].
  unfold response_json. destruct (JSON_parse body); reflexivity.
Qed.

(** The [try] block, step by step. *)
Lemma refresh_and_save_eq (c now oauth rt : value) (w : world) :
  Get c (lit "claudeAiOauth") = inr oauth ->
  Get oauth (lit "refreshToken") = inr rt ->
  refresh_and_save E c now w
  = match refresh_result E rt with
    | inl e => (inl e, called w rt)
    | inr v =>
        match apply_response c now v with
        | inl e => (inl e, called w rt)
        | inr c' =>
            (saveCredentials E c' ;;
             console_log (lit "Access token refreshed successfully")) (called w rt)
        end
    end.
Proof.
  intros Hc Ho. unfold refresh_and_save.
  unfold bind at 1. unfold lift at 1. rewrite Hc.
  unfold bind at 1. unfold lift at 1. rewrite Ho.
  unfold bind at 1. rewrite refresh_spec.
  destruct (refresh_result E rt) as [e|v]; [reflexivity|].
  unfold bind at 1. unfold lift at 1.
  destruct (apply_response c now v) as [e|c']; reflexivity.
Qed.

Lemma load_world (w : world) : snd (loadCredentials E w) = w.
Proof. now rewrite load_spec. Qed.

(** A record that was loaded and is truthy came from a file, and the file
    can be written again. *)
Lemma loaded_writable (c : value) (w : world) :
  fst (loadCredentials E w) = inr c -> ToBoolean c = true -> writable E w = true.
Proof.
  rewrite load_spec. cbn [fst].
  destruct (files w !! credentialsPath E) as [t|] eqn:Hfile.
  - intros _ _. apply (file_writable E w t Hfile).
  - intros [= <-]. discriminate.
Qed.

(** [ensureValidToken] up to the comparison. *)
Lemma ensure_check (c oauth ex : value) (w : world) :
  fst (loadCredentials E w) = inr c ->
  ToBoolean c = true ->
  Get c (lit "claudeAiOauth") = inr oauth ->
  Get oauth (lit "expiresAt") = inr ex ->
  ensureValidToken E w
  = match js_sub ex (VNum (Int (now_seconds E))) with
    | inl e => (inl e, w)
    | inr remaining =>
        if number_le remaining (Int 300)
        then try_catch (refresh_and_save E c (VNum (Int (now_seconds E))))
                       (fun error => throw (refresh_failed error)) (announced w)
        else (inr tt, w)
    end.
Proof.
  intros Hload Htrue Hc Ho.
  assert (Hl : loadCredentials E w = (inr c, w)).
  { rewrite (surjective_pairing (loadCredentials E w)), Hload, load_world. reflexivity. }
  unfold ensureValidToken. unfold bind at 1. rewrite Hl, Htrue. cbn [negb].
  unfold bind at 1. unfold lift at 1. rewrite Hc.
  unfold bind at 1. unfold lift at 1. rewrite Ho.
  unfold bind at 1. unfold lift at 1.
  destruct (js_sub ex _) as [e|remaining]; [reflexivity|].
  destruct (number_le _ _); reflexivity.
Qed.

(** The refresh branch: a failure of the exchange, or of the assignments, is
    rethrown and leaves the files alone; otherwise the record is saved. *)
Lemma ensure_refresh (c oauth ex rt : value) (remaining : number) (w : world) :
  fst (loadCredentials E w) = inr c ->
  ToBoolean c = true ->
  Get c (lit "claudeAiOauth") = inr oauth ->
  Get oauth (lit "expiresAt") = inr ex ->
  Get oauth (lit "refreshToken") = inr rt ->
  js_sub ex (VNum (Int (now_seconds E))) = inr remaining ->
  number_le remaining (Int 300) = true ->
  match refresh_result E rt with
  | inl e => ensureValidToken E w = (inl (refresh_failed e), called (announced w) rt)
  | inr v =>
      match apply_response c (VNum (Int (now_seconds E))) v with
      | inl e => ensureValidToken E w = (inl (refresh_failed e), called (announced w) rt)
      | inr c' =>
          exists t, JSON_stringify c' 2 = Some t
                    /\ ensureValidToken E w = (inr tt, saved E w rt t)
      end
  end.
Proof.
  intros Hload Htrue Hc Ho Hrt Hsub Hle.
  rewrite (ensure_check c oauth ex w Hload Htrue Hc Ho), Hsub, Hle.
  unfold try_catch. rewrite (refresh_and_save_eq c _ oauth rt _ Hc Hrt).
  destruct (refresh_result E rt) as [e|v]; [reflexivity|].
  destruct (apply_response c _ v) as [e|c'] eqn:Happly; [reflexivity|].
  destruct (apply_response_obj _ _ _ _ Happly) as [props ->].
  destruct (JSON_stringify_obj props 2) as [t Ht]. exists t. split; [exact Ht|].
  unfold bind.
  rewrite (save_spec E _ t (called (announced w) rt) (loaded_writable c w Hload Htrue) Ht).
  unfold console_log, emit, called, announced, saved, written.
  cbn [files dirs trace]. rewrite <- !app_assoc. reflexivity.
Qed.

(** What the stored record of hypothesis looks like to [ensureValidToken]. *)
Lemma load_stored (r : StoredCredentials) (t : text) (w : world) :
  files w !! credentialsPath E = Some t ->
  JSON_parse t = Some (stored_value r) ->
  fst (loadCredentials E w) = inr (stored_value r).
Proof. intros Hfile Hparse. now rewrite load_spec, Hfile, Hparse. Qed.

End EnsureFacts.

(** ** What a run adds to the trace *)

Lemma calls_after_failure (w : world) (rt : value) :
  new_remote_calls w (called (announced w) rt) = 1%nat
  /\ new_file_writes w (called (announced w) rt) = 0%nat.
Proof.
  unfold new_remote_calls, new_file_writes, called, announced. cbn [trace].
  rewrite !remote_calls_app, !file_writes_app.
  change (remote_calls [ELog ?m]) with 0%nat.
  change (remote_calls [EFetch ?r]) with 1%nat.
  change (file_writes [ELog ?m]) with 0%nat.
  change (file_writes [EFetch ?r]) with 0%nat.
  lia.
Qed.

Lemma calls_after_save (E : env) (w : world) (rt : value) (t : text) :
  new_remote_calls w (saved E w rt t) = 1%nat
  /\ new_file_writes w (saved E w rt t) = 1%nat.
Proof.
  unfold new_remote_calls, new_file_writes, saved. cbn [trace].
  rewrite !remote_calls_app, !file_writes_app.
  match goal with
  | |- context [remote_calls ?l] =>
      match l with _ :: _ => change (remote_calls l) with 1%nat end
  end.
  match goal with
  | |- context [file_writes ?l] =>
      match l with _ :: _ => change (file_writes l) with 1%nat end
  end.
  lia.
Qed.

Lemma contains_suffix (needle a : text) : contains needle (a ++ needle) = true.
Proof. rewrite <- (app_nil_r needle) at 2. apply contains_middle. Qed.

Lemma compare_expiry (z now : Z) :
  js_sub (VNum (Int z)) (VNum (Int now)) = inr (Int (z - now)).
Proof. reflexivity. Qed.

(** What is read from a file that holds the serialisation of a well-formed
    record. *)
Lemma load_after_write (E : env) (w : world) (r : StoredCredentials) (z : Z) (t : text) :
  expiresAt r = Int z ->
  JSON_stringify (stored_value r) 2 = Some t ->
  files w !! credentialsPath E = Some t ->
  loadCredentials E w = (inr (stored_value r), w).
Proof.
  intros Hexp Ht Hfile. rewrite load_spec, Hfile.
  now rewrite (JSON_parse_stringify _ 2 t (plain_stored_value r z Hexp) ltac:(lia) Ht).
Qed.

(** A text that does not start as a value does is not JSON. *)
Lemma parse_not_a_value (s : text) : value_start s = false -> JSON_parse s = None.
Proof.
  unfold value_start, JSON_parse. destruct (skip_ws s) as [|c r]; [reflexivity|].
  intros H. rewrite parse_value_S.
  apply orb_false_iff in H as [H Hdigit].
  apply orb_false_iff in H as [H H45].
  apply orb_false_iff in H as [H H110].
  apply orb_false_iff in H as [H H102].
  apply orb_false_iff in H as [H H116].
  apply orb_false_iff in H as [H H34].
  apply orb_false_iff in H as [H123 H91].
  unfold QUOTE. rewrite H123, H91, H34, H116, H102, H110.
  unfold parse_number. rewrite H45. unfold parse_digits. cbn [span].
  now rewrite Hdigit.
Qed.

(** ** The claims *)

(** C4. [loadCredentials] returns what the file at the fixed path parses to,
    and [null] (absent), not an error, when there is no file or its content
    does not parse; it changes nothing.  A file that holds the
    serialisation of a record does parse, to that record; a file that is
    empty, or starts with anything that no JSON value starts with, does
    not. *)
Theorem load_returns_record_or_absent (E : env) (w : world) :
  loadCredentials E w
  = (inr match files w !! credentialsPath E with
         | None => VNull
         | Some content =>
             match JSON_parse content with
             | None => VNull
             | Some v => v
             end
         end, w)
  /\ (forall (r : StoredCredentials) (z : Z) (t : text),
        expiresAt r = Int z -> safe z ->
        JSON_stringify (stored_value r) 2 = Some t ->
        files w !! credentialsPath E = Some t ->
        loadCredentials E w = (inr (stored_value r), w))
  /\ (forall content : text,
        files w !! credentialsPath E = Some content ->
        value_start content = false ->
        loadCredentials E w = (inr VNull, w)).
Proof.
  split; [|split].
  - rewrite load_spec. destruct (files w !! credentialsPath E); reflexivity.
  - intros r z t Hexp _ Ht Hfile. apply (load_after_write E w r z t Hexp Ht Hfile).
  - intros content Hfile Hstart.
    now rewrite load_spec, Hfile, (parse_not_a_value content Hstart).
Qed.

Lemma load_returns_record_or_absent_witness :
  loadCredentials Sample.granting Sample.valid_world
  = (inr (stored_value (Sample.record (Int 1700000301))), Sample.valid_world)
  /\ loadCredentials Sample.granting (Sample.holding (lit "<html>"))
     = (inr VNull, Sample.holding (lit "<html>"))
  /\ loadCredentials Sample.granting Sample.empty_world = (inr VNull, Sample.empty_world).
Proof.
  split; [|split].
  - apply (proj1 (proj2 (load_returns_record_or_absent Sample.granting Sample.valid_world))
             (Sample.record (Int 1700000301)) 1700000301%Z
             (Sample.document (Int 1700000301))).
    + reflexivity.
    + unfold safe. vm_compute. discriminate.
    + vm_compute. reflexivity.
    + reflexivity.
  - apply (proj2 (proj2 (load_returns_record_or_absent Sample.granting
                           (Sample.holding (lit "<html>"))))
             (lit "<html>")).
    + reflexivity.
    + reflexivity.
  - exact (proj1 (load_returns_record_or_absent Sample.granting Sample.empty_world)).
Defined.

(** C5. When [loadCredentials] finds no record, [ensureValidToken] throws
    "No OAuth credentials found" and leaves the world as it was: no remote
    call, no write, no second attempt. *)
Theorem missing_credentials_is_terminal (E : env) (w : world) :
  fst (loadCredentials E w) = inr VNull ->
  ensureValidToken E w = (inl no_credentials, w).
Proof.
  intros Hload.
  assert (Hl : loadCredentials E w = (inr VNull, w)).
  { rewrite (surjective_pairing (loadCredentials E w)), Hload, load_world. reflexivity. }
  unfold ensureValidToken, bind. now rewrite Hl.
Qed.

Lemma missing_credentials_is_terminal_witness :
  fst (loadCredentials Sample.granting Sample.empty_world) = inr VNull
  /\ ensureValidToken Sample.granting Sample.empty_world
     = (inl no_credentials, Sample.empty_world).
Proof.
  split; [reflexivity|].
  apply (missing_credentials_is_terminal Sample.granting Sample.empty_world).
  reflexivity.
Defined.

(** C2. A stored record that expires more than 300 seconds from now: no
    remote call, no write, the world (the file, byte for byte) unchanged. *)
Theorem valid_token_untouched (E : env) (w : world) (r : StoredCredentials)
        (t : text) (z : Z) :
  files w !! credentialsPath E = Some t ->
  JSON_parse t = Some (stored_value r) ->
  expiresAt r = Int z ->
  (z - now_seconds E > 300)%Z ->
  ensureValidToken E w = (inr tt, w).
Proof.
  intros Hfile Hparse Hexp Hgt.
  rewrite (ensure_check E (stored_value r) (oauth_value r) (VNum (expiresAt r)) w
             (load_stored E r t w Hfile Hparse) eq_refl (Get_stored r) (Get_expiresAt r)).
  rewrite Hexp, compare_expiry. cbn [number_le].
  destruct (Z.leb_spec (z - now_seconds E) 300); [lia | reflexivity].
Qed.

Lemma valid_token_untouched_witness :
  files Sample.valid_world !! credentialsPath Sample.granting
  = Some (Sample.document (Int 1700000301))
  /\ ensureValidToken Sample.granting Sample.valid_world = (inr tt, Sample.valid_world).
Proof.
  split; [reflexivity|].
  apply (valid_token_untouched Sample.granting _ (Sample.record (Int 1700000301))
           (Sample.document (Int 1700000301)) 1700000301).
  - reflexivity.
  - vm_compute. reflexivity.
  - reflexivity.
  - vm_compute. reflexivity.
Defined.



(** C3. A stored record that expires within 300 seconds, and a refresh that
    fails: on a response outside 2xx the error thrown has a message holding
    the status and the body, on a rejected [fetch] it holds the message of
    the underlying error; in both cases there has been one remote call, no
    write, and the files are what they were. *)
Theorem refresh_failure_reported (E : env) (w : world) (r : StoredCredentials)
        (t : text) (z : Z) :
  files w !! credentialsPath E = Some t ->
  JSON_parse t = Some (stored_value r) ->
  expiresAt r = Int z ->
  (z - now_seconds E <= 300)%Z ->
  match fetch E (refresh_request (VStr (refreshToken r))) with
  | FetchResponse status body =>
      response_ok status = false ->
      rejects_unchanged E w [number_to_text (Int status); body]
  | FetchRejected e => rejects_unchanged E w [message e]
  end.
Proof.
  intros Hfile Hparse Hexp Hle.
  assert (Hsub : js_sub (VNum (expiresAt r)) (VNum (Int (now_seconds E)))
                 = inr (Int (z - now_seconds E))).
  { rewrite Hexp. apply compare_expiry. }
  assert (Hcmp : number_le (Int (z - now_seconds E)) (Int 300) = true).
  { now apply Z.leb_le. }
  pose proof (ensure_refresh E (stored_value r) (oauth_value r) (VNum (expiresAt r))
                (VStr (refreshToken r)) _ w (load_stored E r t w Hfile Hparse) eq_refl
                (Get_stored r) (Get_expiresAt r) (Get_refreshToken r) Hsub Hcmp) as Hrun.
  unfold refresh_result in Hrun.
  destruct (fetch E (refresh_request (VStr (refreshToken r)))) as [e|status body].
  - eexists _, _. split; [exact Hrun|].
    destruct (calls_after_failure w (VStr (refreshToken r))) as [Hc Hw].
    repeat split; try assumption.
    repeat constructor. cbn [message]. apply contains_suffix.
  - intros Hok. rewrite Hok in Hrun.
    eexists _, _. split; [exact Hrun|].
    destruct (calls_after_failure w (VStr (refreshToken r))) as [Hc Hw].
    repeat split; try assumption.
    cbn [message]. repeat constructor.
    + rewrite (app_assoc _ (lit "Failed to refresh token: ")). apply contains_middle.
    + rewrite !app_assoc. apply contains_suffix.
Qed.

Lemma refresh_failure_reported_witness :
  rejects_unchanged Sample.refusing Sample.expiring_world [lit "401"; lit "denied"].
Proof.
  apply (refresh_failure_reported Sample.refusing Sample.expiring_world
           (Sample.record (Int 1700000100))
           (Sample.document (Int 1700000100)) 1700000100).
  - reflexivity.
  - vm_compute. reflexivity.
  - reflexivity.
  - vm_compute. discriminate.
  - reflexivity.
Defined.

(** ** Setup *)

Lemma round_double_cases (z : Z) :
  (exists z', round_double z = Int z') \/ (exists b, round_double z = Inf b).
Proof.
  unfold round_double. destruct (Z.abs z <=? 2 ^ 53)%Z; [eauto|].
  cbv zeta. destruct (2 ^ 1024 <=? _)%Z; eauto.
Qed.

Lemma round_double_safe (z : Z) : safe z -> round_double z = Int z.
Proof. unfold safe, round_double. intros H%Z.leb_le. now rewrite H. Qed.

(** [parseInt] gives [NaN], an integer, or an infinity. *)
Lemma parseInt_cases (s : text) :
  parseInt s = NaN \/ (exists z, parseInt s = Int z) \/ (exists b, parseInt s = Inf b).
Proof.
  unfold parseInt.
  destruct (take_sign (trim_start s)) as [neg s1].
  destruct (take_radix s1) as [radix s2].
  destruct (fst (span (is_radix_digit radix) s2)) as [|d ds]; [now left|].
  right. apply round_double_cases.
Qed.

(** Every run of setup: where the place is [writable] the file is written
    and the run returns; where it is not, the run throws, the files are
    left as they were and the place is still not writable. *)
Lemma setup_cases (E : env) (c : OAuthCredentials) (w : world) :
  exists t,
    JSON_stringify (credentialsData c) 2 = Some t
    /\ if writable E w
       then setupOAuthCredentials E c w = (inr tt, installed E w t)
       else exists e,
              fst (setupOAuthCredentials E c w) = inl e
              /\ files (snd (setupOAuthCredentials E c w)) = files w
              /\ writable E (snd (setupOAuthCredentials E c w)) = false
              /\ (trace (snd (setupOAuthCredentials E c w)) = trace w
                  \/ trace (snd (setupOAuthCredentials E c w))
                     = trace w ++ [EMkdir (claudeDir E)]).
Proof.
  destruct (JSON_stringify_obj
              [(lit "claudeAiOauth",
                VObj [(lit "accessToken", VStr (in_accessToken c));
                      (lit "refreshToken", VStr (in_refreshToken c));
                      (lit "expiresAt", VNum (parseInt (in_expiresAt c)));
                      (lit "scopes", fixed_scopes)])] 2) as [t Ht].
  change (VObj _) with (credentialsData c) in Ht.
  exists t. split; [exact Ht|].
  assert (Hsetup : setupOAuthCredentials E c w
                   = match (mkdir_recursive (claudeDir E) ;;
                            writeFile (credentialsPath E)
                                      (JSON_stringify (credentialsData c) 2)) w with
                     | (inl e, w') => (inl e, w')
                     | (inr _, w') =>
                         console_log (lit "OAuth credentials written to "
                                        ++ path_text (credentialsPath E)) w'
                     end).
  { unfold setupOAuthCredentials. now rewrite bind_assoc. }
  rewrite !Hsetup.
  destruct (write_cases E (JSON_stringify (credentialsData c) 2) w)
    as [(t' & Ht' & Hw & Hrun)
       | ([Hw | Hnone] & e & w' & Hrun & Hfiles & Hstill & Htrace)];
    [| |congruence]; rewrite Hrun, Hw.
  - assert (t' = t) as -> by congruence.
    unfold console_log, emit, written, installed. cbn [files dirs trace].
    now rewrite <- app_assoc.
  - exists e. cbn [fst snd]. repeat split; auto.
Qed.

(** What is not finite is written as [null]. *)
Lemma stringify_credentialsData (c : OAuthCredentials) :
  JSON_stringify (credentialsData c) 2 = JSON_stringify (persisted_data c) 2.
Proof.
  unfold credentialsData, persisted_data, JSON_stringify.
  destruct (parseInt (in_expiresAt c)); reflexivity.
Qed.

Lemma plain_persisted_data (c : OAuthCredentials) : plain (persisted_data c) = true.
Proof.
  unfold persisted_data.
  destruct (parseInt_cases (in_expiresAt c)) as [-> | [[z ->] | [b ->]]];
    vm_compute; reflexivity.
Qed.

Lemma parse_credentialsData (c : OAuthCredentials) (t : text) :
  JSON_stringify (credentialsData c) 2 = Some t ->
  JSON_parse t = Some (persisted_data c).
Proof.
  rewrite stringify_credentialsData. intros Ht.
  apply (JSON_parse_stringify _ 2 t (plain_persisted_data c) ltac:(lia) Ht).
Qed.

(** A setup that returns has written the serialisation of its record, and
    the place was writable. *)
Lemma setup_returns (E : env) (c : OAuthCredentials) (w : world) :
  fst (setupOAuthCredentials E c w) = inr tt ->
  writable E w = true
  /\ exists t, JSON_stringify (credentialsData c) 2 = Some t
               /\ setupOAuthCredentials E c w = (inr tt, installed E w t).
Proof.
  intros Hret. destruct (setup_cases E c w) as (t & Ht & Hrun).
  destruct (writable E w); [eauto|].
  destruct Hrun as (e & He & _). congruence.
Qed.

(** A setup that throws has written nothing. *)
Lemma setup_throws (E : env) (c : OAuthCredentials) (w : world) (e : exn) :
  fst (setupOAuthCredentials E c w) = inl e ->
  files (snd (setupOAuthCredentials E c w)) = files w
  /\ writable E w = false
  /\ writable E (snd (setupOAuthCredentials E c w)) = false
  /\ (trace (snd (setupOAuthCredentials E c w)) = trace w
      \/ trace (snd (setupOAuthCredentials E c w)) = trace w ++ [EMkdir (claudeDir E)]).
Proof.
  intros Hret. destruct (setup_cases E c w) as (t & Ht & Hrun).
  destruct (writable E w).
  - rewrite Hrun in Hret. discriminate.
  - destruct Hrun as (e' & _ & Hfiles & Hstill & Htrace). auto.
Qed.

(** The counterexample to C6: a record whose expiry is [NaN] is written with
    a [null] expiry, and that is what is read back. *)
Lemma roundtrip_loses_NaN :
  fst (saveCredentials Sample.granting (stored_value (Sample.record NaN))
                       Sample.empty_world) = inr tt
  /\ fst (loadCredentials Sample.granting
            (snd (saveCredentials Sample.granting (stored_value (Sample.record NaN))
                                  Sample.empty_world)))
     <> inr (stored_value (Sample.record NaN)).
Proof. split; [reflexivity | vm_compute; discriminate]. Qed.

(** C6, amended. For a record whose expiry is an integer of magnitude up to
    2^53, whenever [saveCredentials] returns, [loadCredentials] then returns
    the record. *)
Theorem save_load_roundtrip (E : env) (w : world) (r : StoredCredentials) (z : Z) :
  expiresAt r = Int z ->
  safe z ->
  fst (saveCredentials E (stored_value r) w) = inr tt ->
  fst (loadCredentials E (snd (saveCredentials E (stored_value r) w)))
  = inr (stored_value r).
Proof.
  intros Hexp _ Hret.
  destruct (save_cases E (stored_value r) w) as [(t & Ht & _ & Hrun) | (e & He & _)];
    [|congruence].
  rewrite Hrun. cbn [snd].
  rewrite (load_after_write E _ r z t Hexp Ht); [reflexivity|].
  unfold written. cbn [files]. apply lookup_insert_eq.
Qed.

Lemma save_load_roundtrip_witness :
  fst (saveCredentials Sample.granting (stored_value (Sample.record (Int 1700000100)))
                       Sample.empty_world) = inr tt
  /\ fst (loadCredentials Sample.granting
            (snd (saveCredentials Sample.granting
                    (stored_value (Sample.record (Int 1700000100)))
                    Sample.empty_world)))
     = inr (stored_value (Sample.record (Int 1700000100))).
Proof.
  split; [reflexivity|].
  apply (save_load_roundtrip Sample.granting Sample.empty_world
           (Sample.record (Int 1700000100)) 1700000100%Z).
  - reflexivity.
  - unfold safe. vm_compute. discriminate.
  - reflexivity.
Defined.

(** Two setups of which the second returns: the place was writable from the
    start, and the files are what the second alone leaves. *)
Lemma setup_twice (E : env) (w : world) (c1 c2 : OAuthCredentials) :
  fst (setupOAuthCredentials E c2 (snd (setupOAuthCredentials E c1 w))) = inr tt ->
  exists t2,
    JSON_stringify (credentialsData c2) 2 = Some t2
    /\ setupOAuthCredentials E c2 w = (inr tt, installed E w t2)
    /\ files (snd (setupOAuthCredentials E c2 (snd (setupOAuthCredentials E c1 w))))
       = <[credentialsPath E := t2]> (files w).
Proof.
  intros Hret.
  destruct (setup_returns E c2 _ Hret) as (Hw1 & t2 & Ht2 & Hrun2).
  exists t2. split; [exact Ht2|].
  destruct (fst (setupOAuthCredentials E c1 w)) as [e|[]] eqn:Hfirst.
  - destruct (setup_throws E c1 w e Hfirst) as (_ & _ & Hstill & _). congruence.
  - destruct (setup_returns E c1 w Hfirst) as (Hw & t1 & _ & Hrun1).
    destruct (setup_cases E c2 w) as (t2' & Ht2' & Hrun). rewrite Hw in Hrun.
    assert (t2' = t2) as -> by congruence.
    split; [exact Hrun|].
    rewrite Hrun2, Hrun1. unfold installed. cbn [snd files].
    apply insert_insert_eq.
Qed.

(** C7. Setup twice.  Every record setup builds has the two fixed scopes.
    When the second run throws, it has written nothing: the files are those
    the first run left.  When it returns, the files are what the second run
    alone leaves; what is then read from the credential file has the tokens
    of the second input and the two fixed scopes; and when the second
    expiry is written as it is in the code (an integer up to 2^53, or
    [null]), the file is the serialisation of the second record and the
    whole record is read back. *)
Theorem setup_overwrites (E : env) (w : world) (c1 c2 : OAuthCredentials) :
  member_of (credentialsData c1) (lit "scopes") = inr fixed_scopes
  /\ member_of (credentialsData c2) (lit "scopes") = inr fixed_scopes
  /\ match fst (setupOAuthCredentials E c2 (snd (setupOAuthCredentials E c1 w))) with
     | inl _ =>
         files (snd (setupOAuthCredentials E c2 (snd (setupOAuthCredentials E c1 w))))
         = files (snd (setupOAuthCredentials E c1 w))
     | inr _ =>
         files (snd (setupOAuthCredentials E c2 (snd (setupOAuthCredentials E c1 w))))
         = files (snd (setupOAuthCredentials E c2 w))
         /\ (exists v,
               fst (loadCredentials E
                      (snd (setupOAuthCredentials E c2
                              (snd (setupOAuthCredentials E c1 w)))))
               = inr v
               /\ member_of v (lit "accessToken") = inr (VStr (in_accessToken c2))
               /\ member_of v (lit "refreshToken") = inr (VStr (in_refreshToken c2))
               /\ member_of v (lit "scopes") = inr fixed_scopes
               /\ (exact (parseInt (in_expiresAt c2)) -> v = persisted_data c2))
         /\ (exact (parseInt (in_expiresAt c2)) ->
             files (snd (setupOAuthCredentials E c2 (snd (setupOAuthCredentials E c1 w))))
               !! credentialsPath E
             = JSON_stringify (credentialsData c2) 2)
     end.
Proof.
  split; [reflexivity|]. split; [reflexivity|].
  destruct (fst (setupOAuthCredentials E c2 (snd (setupOAuthCredentials E c1 w))))
    as [e|[]] eqn:Hret.
  - apply (setup_throws E c2 _ e Hret).
  - destruct (setup_twice E w c1 c2 Hret) as (t2 & Ht2 & Hrun & Hfiles).
    split; [now rewrite Hfiles, Hrun|]. split.
    + exists (persisted_data c2). repeat split.
      rewrite load_spec, Hfiles. cbn [fst]. rewrite lookup_insert_eq.
      now rewrite (parse_credentialsData c2 t2 Ht2).
    + intros _. now rewrite Hfiles, lookup_insert_eq.
Qed.

Lemma setup_overwrites_witness :
  fst (setupOAuthCredentials Sample.granting (Sample.input "1700000100")
         (Sample.after_setup "tomorrow")) = inr tt
  /\ fst (loadCredentials Sample.granting
            (snd (setupOAuthCredentials Sample.granting (Sample.input "1700000100")
                    (Sample.after_setup "tomorrow"))))
     = inr (persisted_data (Sample.input "1700000100")).
Proof.
  assert (Hret : fst (setupOAuthCredentials Sample.granting (Sample.input "1700000100")
                        (snd (setupOAuthCredentials Sample.granting
                                (Sample.input "tomorrow") Sample.empty_world)))
                 = inr tt) by reflexivity.
  split; [exact Hret|].
  destruct (setup_overwrites Sample.granting Sample.empty_world
              (Sample.input "tomorrow") (Sample.input "1700000100"))
    as (_ & _ & Hsecond).
  rewrite Hret in Hsecond.
  destruct Hsecond as (_ & (v & Hload & _ & _ & _ & Hv) & _).
  unfold Sample.after_setup. rewrite Hload. f_equal. apply Hv.
  unfold exact, safe. vm_compute. discriminate.
Defined.

(** ** No validation of what is loaded *)

(** The counterexample to C10: [null] is valid JSON, and a file holding it
    reads as absent; [ensureValidToken] then reports missing credentials. *)
Lemma null_document_reads_as_absent :
  JSON_parse (lit "null") = Some VNull
  /\ loadCredentials Sample.granting (Sample.holding (lit "null"))
     = (inr VNull, Sample.holding (lit "null"))
  /\ ensureValidToken Sample.granting (Sample.holding (lit "null"))
     = (inl no_credentials, Sample.holding (lit "null")).
Proof. repeat split; vm_compute; reflexivity. Qed.

(** C10, amended. Whatever value the file parses to is returned as it is,
    without any check of its shape.  When that value is truthy and has no
    [claudeAiOauth] member, or a [null] one, [ensureValidToken] ends with the
    [TypeError] of the property access, before any effect; when it is falsy
    ([null], [false], [0], the empty string) it ends with "No OAuth credentials
    found". *)
Theorem load_does_not_validate (E : env) (w : world) (t : text) (v : value) :
  files w !! credentialsPath E = Some t ->
  JSON_parse t = Some v ->
  loadCredentials E w = (inr v, w)
  /\ (ToBoolean v = true ->
      Get v (lit "claudeAiOauth") = inr VUndefined
      \/ Get v (lit "claudeAiOauth") = inr VNull ->
      exists msg, ensureValidToken E w = (inl (Exn TypeErrorC msg), w))
  /\ (ToBoolean v = false -> ensureValidToken E w = (inl no_credentials, w)).
Proof.
  intros Hfile Hparse.
  assert (Hl : loadCredentials E w = (inr v, w)) by now rewrite load_spec, Hfile, Hparse.
  split; [exact Hl|]. split.
  - intros Htrue Hget. unfold ensureValidToken. unfold bind at 1.
    rewrite Hl, Htrue. cbn [negb]. unfold bind at 1. unfold lift at 1.
    destruct Hget as [-> | ->]; unfold bind, lift; cbn [Get]; eexists; reflexivity.
  - intros Hfalse. unfold ensureValidToken, bind. now rewrite Hl, Hfalse.
Qed.

Lemma load_does_not_validate_witness :
  loadCredentials Sample.granting (Sample.holding (lit "{}"))
  = (inr (VObj []), Sample.holding (lit "{}"))
  /\ exists msg, ensureValidToken Sample.granting (Sample.holding (lit "{}"))
                 = (inl (Exn TypeErrorC msg), Sample.holding (lit "{}")).
Proof.
  destruct (load_does_not_validate Sample.granting (Sample.holding (lit "{}"))
              (lit "{}") (VObj [])) as (Hload & Htype & _).
  - reflexivity.
  - vm_compute. reflexivity.
  - split; [exact Hload|]. apply Htype; [reflexivity | left; reflexivity].
Defined.

(** ** Assignments to the members of [claudeAiOauth] *)

Lemma text_eqb_refl (k : text) : text_eqb k k = true.
Proof. unfold text_eqb. now apply bool_decide_eq_true_2. Qed.

Lemma text_eqb_ne (k k' : text) : k <> k' -> text_eqb k k' = false.
Proof. intros H. unfold text_eqb. now apply bool_decide_eq_false_2. Qed.

Lemma text_eqb_eq (k k' : text) : text_eqb k k' = true -> k = k'.
Proof. unfold text_eqb. apply bool_decide_eq_true_1. Qed.

Lemma obj_lookup_replace (l : list (text * value)) (k : text) (x : value) :
  obj_lookup l k <> None -> obj_lookup (replace_prop l k x) k = Some x.
Proof.
  induction l as [|[k' v'] l IH]; simpl; [contradiction|].
  destruct (text_eqb k' k) eqn:Hk; simpl; rewrite Hk; auto.
Qed.

Lemma obj_lookup_replace_ne (l : list (text * value)) (k k' : text) (x : value) :
  k <> k' -> obj_lookup (replace_prop l k x) k' = obj_lookup l k'.
Proof.
  intros Hne. induction l as [|[k0 v0] l IH]; simpl; [reflexivity|].
  destruct (text_eqb k0 k) eqn:Hk; simpl.
  - apply text_eqb_eq in Hk as ->. now rewrite text_eqb_ne.
  - now rewrite IH.
Qed.

Lemma obj_lookup_app (l : list (text * value)) (k k' : text) (x : value) :
  obj_lookup (l ++ [(k, x)]) k'
  = match obj_lookup l k' with
    | Some v => Some v
    | None => if text_eqb k k' then Some x else None
    end.
Proof.
  induction l as [|[k0 v0] l IH]; simpl; [reflexivity|].
  destruct (text_eqb k0 k'); [reflexivity | exact IH].
Qed.

Lemma obj_lookup_insert_index (l : list (text * value)) (n : N) (k : text) (x : value) :
  obj_lookup l k = None -> obj_lookup (insert_index l n k x) k = Some x.
Proof.
  induction l as [|[k0 v0] l IH]; simpl.
  - intros _. now rewrite text_eqb_refl.
  - destruct (text_eqb k0 k) eqn:H0; [discriminate|]. intros Hl.
    destruct (array_index k0) as [m|]; [destruct (m <? n) |]; simpl;
      rewrite ?H0, ?text_eqb_refl; auto.
Qed.

Lemma obj_lookup_insert_index_ne (l : list (text * value)) (n : N) (k k' : text)
      (x : value) :
  k <> k' -> obj_lookup (insert_index l n k x) k' = obj_lookup l k'.
Proof.
  intros Hne. induction l as [|[k0 v0] l IH]; simpl.
  - now rewrite text_eqb_ne.
  - destruct (array_index k0) as [m|]; [destruct (m <? n) |]; simpl;
      rewrite ?(text_eqb_ne k k') by assumption; rewrite ?IH; reflexivity.
Qed.

(** Reading back the property just set, and any other one. *)
Lemma obj_lookup_set (l : list (text * value)) (k : text) (x : value) :
  obj_lookup (obj_set l k x) k = Some x.
Proof.
  unfold obj_set. destruct (obj_lookup l k) as [v|] eqn:Hl.
  - apply obj_lookup_replace. congruence.
  - destruct (array_index k) as [n|].
    + now apply obj_lookup_insert_index.
    + now rewrite obj_lookup_app, Hl, text_eqb_refl.
Qed.

Lemma obj_lookup_set_ne (l : list (text * value)) (k k' : text) (x : value) :
  k <> k' -> obj_lookup (obj_set l k x) k' = obj_lookup l k'.
Proof.
  intros Hne. unfold obj_set. destruct (obj_lookup l k) as [v|] eqn:Hl.
  - now apply obj_lookup_replace_ne.
  - destruct (array_index k) as [n|].
    + now apply obj_lookup_insert_index_ne.
    + rewrite obj_lookup_app, text_eqb_ne by assumption.
      now destruct (obj_lookup l k').
Qed.

(** [c.claudeAiOauth.k = x] when [c.claudeAiOauth] is an object: [k] now
    reads [x], the other members read what they did, and
    [c.claudeAiOauth] is still an object. *)
Lemma member_of_assign (c : value) (props : list (text * value)) (k : text)
      (x c' : value) :
  Get c (lit "claudeAiOauth") = inr (VObj props) ->
  assign_member c (lit "claudeAiOauth") k x = inr c' ->
  member_of c' k = inr x
  /\ (forall k', k <> k' -> member_of c' k' = member_of c k')
  /\ Get c' (lit "claudeAiOauth") = inr (VObj (obj_set props k x)).
Proof.
  intros Hget Hassign. unfold assign_member in Hassign. rewrite Hget in Hassign.
  cbn [Set_] in Hassign.
  destruct c as [ | | b | n | s | l | l]; try discriminate.
  injection Hassign as <-. cbn [Get] in Hget.
  destruct (obj_lookup l (lit "claudeAiOauth")) as [o|] eqn:Hl; [|discriminate].
  cbn [default] in Hget. injection Hget as ->.
  assert (Hnew : Get (VObj (replace_prop l (lit "claudeAiOauth") (VObj (obj_set props k x))))
                     (lit "claudeAiOauth") = inr (VObj (obj_set props k x))).
  { cbn [Get]. rewrite obj_lookup_replace by congruence. reflexivity. }
  unfold member_of. rewrite Hnew. cbn [Get]. rewrite Hl. cbn [default].
  repeat split.
  - now rewrite obj_lookup_set.
  - intros k' Hne. now rewrite obj_lookup_set_ne.
Qed.

(** The three assignments, on a record whose [claudeAiOauth] is an object:
    all three members are those of the response. *)
Lemma apply_response_members (c now v c' : value) (props : list (text * value)) :
  Get c (lit "claudeAiOauth") = inr (VObj props) ->
  apply_response c now v = inr c' ->
  exists new_access new_refresh expires_in sum,
    Get v (lit "access_token") = inr new_access
    /\ Get v (lit "refresh_token") = inr new_refresh
    /\ Get v (lit "expires_in") = inr expires_in
    /\ js_add now expires_in = inr sum
    /\ member_of c' (lit "accessToken") = inr new_access
    /\ member_of c' (lit "refreshToken") = inr new_refresh
    /\ member_of c' (lit "expiresAt") = inr sum.
Proof.
  intros Hget Happly. unfold apply_response in Happly.
  destruct (Get v (lit "access_token")) as [|a]; [discriminate|].
  destruct (assign_member c _ _ a) as [|c1] eqn:H1; [discriminate|].
  destruct (Get v (lit "refresh_token")) as [|rt]; [discriminate|].
  destruct (assign_member c1 _ _ rt) as [|c2] eqn:H2; [discriminate|].
  destruct (Get v (lit "expires_in")) as [|n]; [discriminate|].
  destruct (js_add now n) as [|sum] eqn:Hsum; [discriminate|].
  destruct (member_of_assign c props _ a c1 Hget H1) as (Ha1 & _ & Hg1).
  destruct (member_of_assign c1 _ _ rt c2 Hg1 H2) as (Hr2 & Ho2 & Hg2).
  destruct (member_of_assign c2 _ _ _ c' Hg2 Happly) as (He3 & Ho3 & _).
  exists a, rt, n, sum. repeat split; try reflexivity; try exact Hsum.
  - rewrite Ho3, Ho2; [exact Ha1 | |]; intros H; vm_compute in H; discriminate H.
  - rewrite Ho3; [exact Hr2|]. intros H; vm_compute in H; discriminate H.
  - exact He3.
Qed.

(** ** Every run of [ensureValidToken] *)

(** In the refresh branch there is exactly one remote call. *)
Lemma refresh_branch_calls_once (E : env) (c oauth ex rt : value) (remaining : number)
      (w : world) :
  fst (loadCredentials E w) = inr c ->
  ToBoolean c = true ->
  Get c (lit "claudeAiOauth") = inr oauth ->
  Get oauth (lit "expiresAt") = inr ex ->
  Get oauth (lit "refreshToken") = inr rt ->
  js_sub ex (VNum (Int (now_seconds E))) = inr remaining ->
  number_le remaining (Int 300) = true ->
  new_remote_calls w (snd (ensureValidToken E w)) = 1%nat.
Proof.
  intros Hload Htrue Hc Ho Hrt Hsub Hle.
  pose proof (ensure_refresh E c oauth ex rt remaining w Hload Htrue Hc Ho Hrt Hsub Hle)
    as Hrun.
  destruct (refresh_result E rt) as [e|v].
  - rewrite Hrun. apply calls_after_failure.
  - destruct (apply_response c _ v) as [e|c'].
    + rewrite Hrun. apply calls_after_failure.
    + destruct Hrun as (t' & _ & ->). apply calls_after_save.
Qed.

(** What the property accesses and the conversions of this program throw
    is a [TypeError]. *)
Lemma Get_throws (v : value) (k : text) (e : exn) :
  Get v k = inl e -> exn_class e = TypeErrorC.
Proof. destruct v; cbn [Get]; try discriminate; now intros [= <-]. Qed.

Lemma ToString_throws (v : value) (e : exn) : ToString v = inl e -> e = not_primitive.
Proof.
  revert e. induction v as [ | | b | n | s | l IHl | l IHl] using value_induction;
    intros e; cbn [ToString]; try discriminate.
  - destruct (traverse _ l) as [e'|ts] eqn:Hall; [|discriminate].
    intros [= <-]. revert e' Hall.
    induction IHl as [|x l Hx Hl IH]; intros e' Hall; [discriminate|].
    cbn [traverse] in Hall.
    destruct (match x with
              | VUndefined | VNull => inr []
              | _ => ToString x
              end) as [e1|t1] eqn:Hhead.
    + injection Hall as <-. apply Hx. destruct x; (discriminate || exact Hhead).
    + destruct (traverse _ l) as [e2|ts]; [|discriminate].
      injection Hall as <-. now apply IH.
  - destruct (existsb _ l); [|discriminate]. now intros [= <-].
Qed.

Lemma ToNumber_throws (v : value) (e : exn) : ToNumber v = inl e -> e = not_primitive.
Proof.
  unfold ToNumber, ToPrimitive.
  destruct v; try discriminate;
    (destruct (ToString _) as [e'|s] eqn:Hs; [|discriminate]);
    intros [= <-]; apply (ToString_throws _ _ Hs).
Qed.

Lemma js_sub_throws (a b : value) (e : exn) : js_sub a b = inl e -> e = not_primitive.
Proof.
  unfold js_sub. destruct (ToNumber a) as [ea|x] eqn:Ha.
  - intros [= <-]. apply (ToNumber_throws _ _ Ha).
  - destruct (ToNumber b) as [eb|y] eqn:Hb; [|discriminate].
    intros [= <-]. apply (ToNumber_throws _ _ Hb).
Qed.

(** Where a run of [ensureValidToken] stops: before the comparison or at it,
    having done nothing, with "No OAuth credentials found", with the
    [TypeError] of a property access or of the conversion of the expiry, or
    with a token found valid; or it goes on into the refresh branch, with a
    [claudeAiOauth] that is an object. *)
Lemma ensure_quiet (E : env) (w : world) :
  ensureValidToken E w = (inl no_credentials, w)
  \/ (exists e, exn_class e = TypeErrorC /\ ensureValidToken E w = (inl e, w))
  \/ ensureValidToken E w = (inr tt, w)
  \/ exists c props ex remaining,
       fst (loadCredentials E w) = inr c
       /\ ToBoolean c = true
       /\ Get c (lit "claudeAiOauth") = inr (VObj props)
       /\ Get (VObj props) (lit "expiresAt") = inr ex
       /\ js_sub ex (VNum (Int (now_seconds E))) = inr remaining
       /\ number_le remaining (Int 300) = true.
Proof.
  destruct (fst (loadCredentials E w)) as [e|c] eqn:Hload;
    [rewrite load_spec in Hload; discriminate|].
  assert (Hl : loadCredentials E w = (inr c, w)).
  { rewrite (surjective_pairing (loadCredentials E w)), Hload, load_world. reflexivity. }
  destruct (ToBoolean c) eqn:Htrue.
  2:{ left. unfold ensureValidToken, bind. now rewrite Hl, Htrue. }
  right.
  destruct (Get c (lit "claudeAiOauth")) as [e|oauth] eqn:Hc.
  { left. exists e. split; [apply (Get_throws _ _ _ Hc)|].
    unfold ensureValidToken. unfold bind at 1. rewrite Hl, Htrue. cbn [negb].
    unfold bind, lift. now rewrite Hc. }
  destruct (Get oauth (lit "expiresAt")) as [e|ex] eqn:Ho.
  { left. exists e. split; [apply (Get_throws _ _ _ Ho)|].
    unfold ensureValidToken. unfold bind at 1. rewrite Hl, Htrue. cbn [negb].
    unfold bind at 1. unfold lift at 1. rewrite Hc.
    unfold bind, lift. now rewrite Ho. }
  pose proof (ensure_check E c oauth ex w Hload Htrue Hc Ho) as Hcheck.
  destruct (js_sub ex (VNum (Int (now_seconds E)))) as [e|remaining] eqn:Hsub.
  { left. exists e. split; [|exact Hcheck].
    now rewrite (js_sub_throws _ _ _ Hsub). }
  destruct (number_le remaining (Int 300)) eqn:Hle.
  2:{ right. now left. }
  destruct (expiring_is_object oauth ex _ remaining Ho Hsub Hle) as [props ->].
  right. right. exists c, props, ex, remaining. repeat split; assumption.
Qed.

Lemma ensure_stops (E : env) (w : world) :
  snd (ensureValidToken E w) = w
  \/ exists c props ex remaining,
       fst (loadCredentials E w) = inr c
       /\ ToBoolean c = true
       /\ Get c (lit "claudeAiOauth") = inr (VObj props)
       /\ Get (VObj props) (lit "expiresAt") = inr ex
       /\ js_sub ex (VNum (Int (now_seconds E))) = inr remaining
       /\ number_le remaining (Int 300) = true.
Proof.
  destruct (ensure_quiet E w) as [H | [(e & _ & H) | [H | H]]];
    [left; now rewrite H | left; now rewrite H | left; now rewrite H | now right].
Qed.

(** The three ways a run can end: without any effect; after the
    announcement and the remote call, with the error of the [catch] block;
    or after the save. *)
Lemma ensure_cases (E : env) (w : world) :
  snd (ensureValidToken E w) = w
  \/ (exists rt e,
        ensureValidToken E w = (inl (refresh_failed e), called (announced w) rt))
  \/ (exists rt t, ensureValidToken E w = (inr tt, saved E w rt t)).
Proof.
  destruct (ensure_stops E w)
    as [Hsame | (c & props & ex & remaining & Hload & Htrue & Hc & Ho & Hsub & Hle)];
    [now left|].
  right.
  pose proof (ensure_refresh E c (VObj props) ex
                (default VUndefined (obj_lookup props (lit "refreshToken"))) remaining w
                Hload Htrue Hc Ho eq_refl Hsub Hle) as Hrun.
  destruct (refresh_result E _) as [e|v]; [left; eauto|].
  destruct (apply_response c _ v) as [e|c']; [left; eauto|].
  right. destruct Hrun as (t & _ & Hrun). eauto.
Qed.

(** Either the files are left as they are, or the credential file is
    replaced by the serialisation of a record whose access token and expiry
    both come from the response. *)
Lemma ensure_writes_pair (E : env) (w : world) :
  files (snd (ensureValidToken E w)) = files w
  \/ exists rt resp new_access expires_in sum c' t,
       refresh_result E rt = inr resp
       /\ Get resp (lit "access_token") = inr new_access
       /\ Get resp (lit "expires_in") = inr expires_in
       /\ js_add (VNum (Int (now_seconds E))) expires_in = inr sum
       /\ member_of c' (lit "accessToken") = inr new_access
       /\ member_of c' (lit "expiresAt") = inr sum
       /\ JSON_stringify c' 2 = Some t
       /\ files (snd (ensureValidToken E w)) = <[credentialsPath E := t]> (files w).
Proof.
  destruct (ensure_stops E w)
    as [Hsame | (c & props & ex & remaining & Hload & Htrue & Hc & Ho & Hsub & Hle)];
    [left; now rewrite Hsame|].
  pose proof (ensure_refresh E c (VObj props) ex
                (default VUndefined (obj_lookup props (lit "refreshToken"))) remaining w
                Hload Htrue Hc Ho eq_refl Hsub Hle) as Hrun.
  destruct (refresh_result E _) as [e|v] eqn:Hres.
  { left. now rewrite Hrun. }
  destruct (apply_response c _ v) as [e|c'] eqn:Happly.
  { left. now rewrite Hrun. }
  right. destruct Hrun as (t & Ht & Hrun).
  destruct (apply_response_members c _ v c' props Hc Happly)
    as (a & rt' & n & sum & Ha & _ & Hn & Hsum & Hma & _ & Hme).
  exists (default VUndefined (obj_lookup props (lit "refreshToken"))), v, a, n, sum, c', t.
  rewrite Hrun. repeat split; assumption || reflexivity.
Qed.

(** C8. Every write of the credential file, by setup or by a refresh, stores
    a record whose access token and expiry were both set by that run.  Setup
    either returns, having written the token and the parsed expiry of its
    input, or throws and leaves the files as they were.
    [ensureValidToken] either leaves the files as they are or writes a
    record whose token is the response's [access_token] and whose expiry is
    [now + expires_in] of the same response. *)
Theorem token_and_expiry_written_together (E : env) (w : world) :
  (forall c : OAuthCredentials,
     (exists e, fst (setupOAuthCredentials E c w) = inl e
                /\ files (snd (setupOAuthCredentials E c w)) = files w)
     \/ (fst (setupOAuthCredentials E c w) = inr tt
         /\ exists t,
              JSON_stringify (credentialsData c) 2 = Some t
              /\ files (snd (setupOAuthCredentials E c w))
                 = <[credentialsPath E := t]> (files w)
              /\ member_of (credentialsData c) (lit "accessToken")
                 = inr (VStr (in_accessToken c))
              /\ member_of (credentialsData c) (lit "expiresAt")
                 = inr (VNum (parseInt (in_expiresAt c)))))
  /\ (files (snd (ensureValidToken E w)) = files w
      \/ exists rt resp new_access expires_in sum c' t,
           refresh_result E rt = inr resp
           /\ Get resp (lit "access_token") = inr new_access
           /\ Get resp (lit "expires_in") = inr expires_in
           /\ js_add (VNum (Int (now_seconds E))) expires_in = inr sum
           /\ member_of c' (lit "accessToken") = inr new_access
           /\ member_of c' (lit "expiresAt") = inr sum
           /\ JSON_stringify c' 2 = Some t
           /\ files (snd (ensureValidToken E w)) = <[credentialsPath E := t]> (files w)).
Proof.
  split; [|apply ensure_writes_pair].
  intros c. destruct (setup_cases E c w) as (t & Ht & Hrun).
  destruct (writable E w).
  - right. rewrite Hrun. split; [reflexivity|]. exists t.
    repeat split; assumption || reflexivity.
  - left. destruct Hrun as (e & He & Hfiles & _). eauto.
Qed.

(** Both halves at work: a setup that writes, a setup that cannot, and a
    refresh that writes the pair of the response. *)
Lemma token_and_expiry_written_together_witness :
  fst (setupOAuthCredentials Sample.granting (Sample.input "1700000100")
         Sample.empty_world) = inr tt
  /\ (exists e, fst (setupOAuthCredentials Sample.granting (Sample.input "1700000100")
                       Sample.blocked_world) = inl e)
  /\ files (snd (ensureValidToken Sample.granting Sample.expiring_world))
     <> files Sample.expiring_world
  /\ (files (snd (ensureValidToken Sample.granting Sample.expiring_world))
      = files Sample.expiring_world
      \/ exists rt resp new_access expires_in sum c' t,
           refresh_result Sample.granting rt = inr resp
           /\ Get resp (lit "access_token") = inr new_access
           /\ Get resp (lit "expires_in") = inr expires_in
           /\ js_add (VNum (Int (now_seconds Sample.granting))) expires_in = inr sum
           /\ member_of c' (lit "accessToken") = inr new_access
           /\ member_of c' (lit "expiresAt") = inr sum
           /\ JSON_stringify c' 2 = Some t
           /\ files (snd (ensureValidToken Sample.granting Sample.expiring_world))
              = <[credentialsPath Sample.granting := t]> (files Sample.expiring_world)).
Proof.
  split; [reflexivity|]. split; [eexists; reflexivity|]. split.
  - intros H.
    apply (f_equal (fun m => m !! credentialsPath Sample.granting)) in H.
    vm_compute in H. discriminate H.
  - exact (proj2 (token_and_expiry_written_together Sample.granting Sample.expiring_world)).
Defined.

(** ** An expiry that does not parse *)

(** The counterexample to C9: [4102444800abc] is not a number ([Number] of it
    is [NaN]), yet [parseInt] reads the digits; the stored expiry is the year
    2100, and the check at 1 700 000 000 s finds the token valid and makes no
    remote call. *)
Lemma tailed_expiry_is_kept :
  StringToNumber (lit "4102444800abc") = NaN
  /\ fst (loadCredentials Sample.granting (Sample.after_setup "4102444800abc"))
     = inr (persisted_data (Sample.input "4102444800abc"))
  /\ member_of (persisted_data (Sample.input "4102444800abc")) (lit "expiresAt")
     = inr (VNum (Int 4102444800))
  /\ ensureValidToken Sample.granting (Sample.after_setup "4102444800abc")
     = (inr tt, Sample.after_setup "4102444800abc").
Proof. repeat split; vm_compute; reflexivity. Qed.

(** What [ensureValidToken] does with the file a setup has left. *)
Lemma check_after_setup (c : OAuthCredentials) (t : text) (E' : env) (w' : world) :
  JSON_stringify (credentialsData c) 2 = Some t ->
  files w' !! credentialsPath E' = Some t ->
  fst (loadCredentials E' w') = inr (persisted_data c)
  /\ (member_of (persisted_data c) (lit "expiresAt") = inr VNull ->
      (-300 <= now_seconds E')%Z ->
      new_remote_calls w' (snd (ensureValidToken E' w')) = 1%nat)
  /\ (forall z,
        member_of (persisted_data c) (lit "expiresAt") = inr (VNum (Int z)) ->
        ((z - now_seconds E' <= 300)%Z ->
         new_remote_calls w' (snd (ensureValidToken E' w')) = 1%nat)
        /\ ((z - now_seconds E' > 300)%Z -> ensureValidToken E' w' = (inr tt, w'))).
Proof.
  intros Ht Hfile.
  pose proof (parse_credentialsData c t Ht) as Hparse.
  assert (Hload : fst (loadCredentials E' w') = inr (persisted_data c)).
  { now rewrite load_spec, Hfile, Hparse. }
  split; [exact Hload|].
  assert (Hrefresh : forall ex remaining,
            member_of (persisted_data c) (lit "expiresAt") = inr ex ->
            js_sub ex (VNum (Int (now_seconds E'))) = inr remaining ->
            number_le remaining (Int 300) = true ->
            new_remote_calls w' (snd (ensureValidToken E' w')) = 1%nat).
  { intros ex remaining Hex Hsub Hle.
    apply (refresh_branch_calls_once E' (persisted_data c)
             (VObj [(lit "accessToken", VStr (in_accessToken c));
                    (lit "refreshToken", VStr (in_refreshToken c));
                    (lit "expiresAt", match parseInt (in_expiresAt c) with
                                      | NaN | Inf _ => VNull
                                      | n => VNum n
                                      end);
                    (lit "scopes", fixed_scopes)])
             ex (VStr (in_refreshToken c)) remaining w');
      try assumption; reflexivity. }
  split.
  - intros Hex Hnow. apply (Hrefresh VNull (Int (0 - now_seconds E')) Hex eq_refl).
    apply Z.leb_le. lia.
  - intros z Hex. split.
    + intros Hle. apply (Hrefresh (VNum (Int z)) (Int (z - now_seconds E')) Hex eq_refl).
      now apply Z.leb_le.
    + intros Hgt.
      rewrite (ensure_check E' (persisted_data c) _ (VNum (Int z)) w' Hload eq_refl
                 eq_refl Hex).
      rewrite compare_expiry. cbn [number_le].
      destruct (Z.leb_spec (z - now_seconds E') 300); [lia | reflexivity].
Qed.

(** C9, amended. After a setup that returns: when [parseInt] finds no
    integer at the head of the expiry string, or one too large for a double,
    the expiry is written as [null], and as long as the file holds that
    record every check made at a time of -300 s or later takes the refresh
    branch: it makes the remote call.  When [parseInt] finds an integer of
    magnitude up to 2^53, whatever follows the digits, that integer is the
    stored expiry, and a check refreshes exactly when it is within 300 s of
    the clock. *)
Theorem unparsable_expiry_always_refreshes (E : env) (w : world) (c : OAuthCredentials) :
  fst (setupOAuthCredentials E c w) = inr tt ->
  fst (loadCredentials E (snd (setupOAuthCredentials E c w))) = inr (persisted_data c)
  /\ (parseInt (in_expiresAt c) = NaN \/ (exists b, parseInt (in_expiresAt c) = Inf b) ->
      member_of (persisted_data c) (lit "expiresAt") = inr VNull
      /\ forall (E' : env) (w' : world),
           files w' !! credentialsPath E'
           = files (snd (setupOAuthCredentials E c w)) !! credentialsPath E ->
           (-300 <= now_seconds E')%Z ->
           new_remote_calls w' (snd (ensureValidToken E' w')) = 1%nat)
  /\ (forall z : Z,
        parseInt (in_expiresAt c) = Int z -> safe z ->
        member_of (persisted_data c) (lit "expiresAt") = inr (VNum (Int z))
        /\ forall (E' : env) (w' : world),
             files w' !! credentialsPath E'
             = files (snd (setupOAuthCredentials E c w)) !! credentialsPath E ->
             ((z - now_seconds E' <= 300)%Z ->
              new_remote_calls w' (snd (ensureValidToken E' w')) = 1%nat)
             /\ ((z - now_seconds E' > 300)%Z ->
                 ensureValidToken E' w' = (inr tt, w'))).
Proof.
  intros Hret.
  destruct (setup_returns E c w Hret) as (_ & t & Ht & Hrun). rewrite Hrun.
  unfold installed. cbn [snd files]. rewrite lookup_insert_eq.
  split; [|split].
  - apply (check_after_setup c t E _ Ht). cbn [files]. apply lookup_insert_eq.
  - intros Hnull.
    assert (Hex : member_of (persisted_data c) (lit "expiresAt") = inr VNull).
    { unfold persisted_data. destruct Hnull as [-> | [b ->]]; reflexivity. }
    split; [exact Hex|]. intros E' w' Hfile Hnow.
    now apply (check_after_setup c t E' w' Ht Hfile).
  - intros z Hz _.
    assert (Hex : member_of (persisted_data c) (lit "expiresAt") = inr (VNum (Int z))).
    { unfold persisted_data. rewrite Hz. reflexivity. }
    split; [exact Hex|]. intros E' w' Hfile.
    now apply (check_after_setup c t E' w' Ht Hfile).
Qed.

Lemma unparsable_expiry_always_refreshes_witness :
  fst (setupOAuthCredentials Sample.granting (Sample.input "tomorrow") Sample.empty_world)
  = inr tt
  /\ parseInt (in_expiresAt (Sample.input "tomorrow")) = NaN
  /\ member_of (persisted_data (Sample.input "tomorrow")) (lit "expiresAt") = inr VNull
  /\ new_remote_calls (Sample.after_setup "tomorrow")
       (snd (ensureValidToken Sample.refusing (Sample.after_setup "tomorrow"))) = 1%nat.
Proof.
  destruct (unparsable_expiry_always_refreshes Sample.granting Sample.empty_world
              (Sample.input "tomorrow")) as (_ & Hnan & _).
  - reflexivity.
  - split; [reflexivity|]. split; [reflexivity|].
    destruct Hnan as [Hnull Hcalls]; [left; reflexivity|].
    split; [exact Hnull|].
    apply (Hcalls Sample.refusing (Sample.after_setup "tomorrow")).
    + reflexivity.
    + vm_compute. discriminate.
Defined.

(** * Further properties of the program *)

(** ** How a run of [ensureValidToken] can end *)

(** X1.  A run of [ensureValidToken] that throws has written nothing: the
    files and the directories are what they were, there is no write in the
    trace, and the next load reads what this one read. *)
Theorem failure_leaves_store (E : env) (w : world) (e : exn) :
  fst (ensureValidToken E w) = inl e ->
  files (snd (ensureValidToken E w)) = files w
  /\ dirs (snd (ensureValidToken E w)) = dirs w
  /\ new_file_writes w (snd (ensureValidToken E w)) = 0%nat
  /\ fst (loadCredentials E (snd (ensureValidToken E w))) = fst (loadCredentials E w).
Proof.
  intros Hfail.
  destruct (ensure_cases E w) as [Hsame | [(rt & e' & Hrun) | (rt & t & Hrun)]].
  - rewrite Hsame. unfold new_file_writes. repeat split; try reflexivity. lia.
  - rewrite Hrun. cbn [snd]. repeat split.
    + apply calls_after_failure.
    + now rewrite !load_spec.
  - rewrite Hrun in Hfail. discriminate.
Qed.

Lemma failure_leaves_store_witness :
  fst (ensureValidToken Sample.down Sample.expiring_world)
  = inl (refresh_failed (Exn TypeErrorC (lit "fetch failed")))
  /\ files (snd (ensureValidToken Sample.down Sample.expiring_world))
     = files Sample.expiring_world.
Proof.
  split; [reflexivity|].
  apply (failure_leaves_store Sample.down Sample.expiring_world
           (refresh_failed (Exn TypeErrorC (lit "fetch failed")))).
  reflexivity.
Defined.

(** X2.  Whatever the file holds and whatever the remote end does, one run of
    [ensureValidToken] only adds to the trace, makes at most one remote call
    and at most one write, and writes only after having called. *)
Theorem at_most_one_call_and_write (E : env) (w : world) :
  exists evs,
    trace (snd (ensureValidToken E w)) = trace w ++ evs
    /\ (remote_calls evs <= 1)%nat
    /\ (file_writes evs <= remote_calls evs)%nat.
Proof.
  destruct (ensure_cases E w) as [Hsame | [(rt & e' & Hrun) | (rt & t & Hrun)]].
  - exists []. rewrite Hsame, app_nil_r. repeat split; cbn; lia.
  - eexists. rewrite Hrun. cbn [snd called announced trace].
    rewrite <- app_assoc. split; [reflexivity|]. cbn. lia.
  - eexists. rewrite Hrun. cbn [snd saved trace].
    split; [reflexivity|]. cbn. lia.
Qed.

(** X3.  The errors [ensureValidToken] throws: "No OAuth credentials found" or
    a [TypeError] (of a property access, or of the conversion of the expiry to
    a number), both before anything has been done; or, from the refresh
    branch, an [Error] whose message is "Failed to refresh OAuth token: " and
    the message of what was caught, after the one remote call.  It throws
    nothing else, and never after a write. *)
Theorem thrown_errors (E : env) (w : world) (e : exn) :
  fst (ensureValidToken E w) = inl e ->
  (snd (ensureValidToken E w) = w /\ (e = no_credentials \/ exn_class e = TypeErrorC))
  \/ exists caught rt,
       e = Exn ErrorC (lit "Failed to refresh OAuth token: " ++ message caught)
       /\ snd (ensureValidToken E w) = called (announced w) rt.
Proof.
  intros Hfail.
  destruct (ensure_quiet E w)
    as [H | [(e' & Hclass & H) | [H | (c & props & ex & remaining & Hload & Htrue & Hc
                                         & Ho & Hsub & Hle)]]].
  - rewrite H in *. injection Hfail as <-. left. auto.
  - rewrite H in *. injection Hfail as <-. left. auto.
  - rewrite H in Hfail. discriminate.
  - right.
    pose proof (ensure_refresh E c (VObj props) ex
                  (default VUndefined (obj_lookup props (lit "refreshToken"))) remaining w
                  Hload Htrue Hc Ho eq_refl Hsub Hle) as Hrun.
    destruct (refresh_result E _) as [e1|v].
    + rewrite Hrun in *. injection Hfail as <-. eexists _, _. split; reflexivity.
    + destruct (apply_response c _ v) as [e1|c'].
      * rewrite Hrun in *. injection Hfail as <-. eexists _, _. split; reflexivity.
      * destruct Hrun as (t & _ & Hrun). rewrite Hrun in Hfail. discriminate.
Qed.

Lemma thrown_errors_witness :
  fst (ensureValidToken Sample.refusing Sample.expiring_world)
  = inl (Exn ErrorC (lit "Failed to refresh OAuth token: "
                       ++ lit "Failed to refresh token: 401 denied"))
  /\ exists caught rt,
       Exn ErrorC (lit "Failed to refresh OAuth token: "
                     ++ lit "Failed to refresh token: 401 denied")
       = Exn ErrorC (lit "Failed to refresh OAuth token: " ++ message caught)
       /\ snd (ensureValidToken Sample.refusing Sample.expiring_world)
          = called (announced Sample.expiring_world) rt.
Proof.
  split; [reflexivity|].
  destruct (thrown_errors Sample.refusing Sample.expiring_world
              (Exn ErrorC (lit "Failed to refresh OAuth token: "
                             ++ lit "Failed to refresh token: 401 denied")))
    as [[Hsame _] | H].
  - reflexivity.
  - exfalso. apply (f_equal (fun w => length (trace w))) in Hsame.
    vm_compute in Hsame. discriminate Hsame.
  - exact H.
Defined.

(** ** Which files are touched, and by whom *)

(** X4.  The credential file is the only file the program writes: any other
    path holds after [ensureValidToken], after [setupOAuthCredentials] and
    after [saveCredentials] what it held before, whether the run returns or
    throws. *)
Theorem other_files_untouched (E : env) (w : world) (p : path) :
  p <> credentialsPath E ->
  files (snd (ensureValidToken E w)) !! p = files w !! p
  /\ (forall c, files (snd (setupOAuthCredentials E c w)) !! p = files w !! p)
  /\ (forall v, files (snd (saveCredentials E v w)) !! p = files w !! p).
Proof.
  intros Hp. repeat split.
  - destruct (ensure_cases E w) as [Hsame | [(rt & e' & Hrun) | (rt & t & Hrun)]].
    + now rewrite Hsame.
    + now rewrite Hrun.
    + rewrite Hrun. cbn [snd saved files]. now apply lookup_insert_ne.
  - intros c. destruct (setup_cases E c w) as (t & _ & Hrun).
    destruct (writable E w).
    + rewrite Hrun. cbn [snd installed files]. now apply lookup_insert_ne.
    + destruct Hrun as (e & _ & -> & _). reflexivity.
  - intros v.
    destruct (save_cases E v w) as [(t & _ & _ & Hrun) | (e & _ & Hfiles)].
    + rewrite Hrun. cbn [snd written files]. now apply lookup_insert_ne.
    + now rewrite Hfiles.
Qed.

Lemma other_files_untouched_witness :
  [lit "home"; lit "runner"; lit ".npmrc"] <> credentialsPath Sample.granting
  /\ files (snd (ensureValidToken Sample.granting Sample.expiring_world))
       !! [lit "home"; lit "runner"; lit ".npmrc"]
     = files Sample.expiring_world !! [lit "home"; lit "runner"; lit ".npmrc"].
Proof.
  assert (Hne : [lit "home"; lit "runner"; lit ".npmrc"]
                <> credentialsPath Sample.granting).
  { intros H. apply (f_equal (@length text)) in H. vm_compute in H. discriminate H. }
  split; [exact Hne|].
  exact (proj1 (other_files_untouched Sample.granting Sample.expiring_world
                  [lit "home"; lit "runner"; lit ".npmrc"] Hne)).
Defined.

(** X5.  Setup never calls the remote end.  When it returns it has made the
    directory, written the file once and logged the path last; when it throws
    it has written and logged nothing. *)
Theorem setup_effects (E : env) (c : OAuthCredentials) (w : world) :
  new_remote_calls w (snd (setupOAuthCredentials E c w)) = 0%nat
  /\ match fst (setupOAuthCredentials E c w) with
     | inr _ =>
         exists t,
           JSON_stringify (credentialsData c) 2 = Some t
           /\ trace (snd (setupOAuthCredentials E c w))
              = trace w ++ [EMkdir (claudeDir E);
                            EWriteFile (credentialsPath E) t;
                            ELog (lit "OAuth credentials written to "
                                    ++ path_text (credentialsPath E))]
           /\ files (snd (setupOAuthCredentials E c w)) !! credentialsPath E = Some t
           /\ is_directory (snd (setupOAuthCredentials E c w)) (claudeDir E) = true
     | inl _ =>
         new_file_writes w (snd (setupOAuthCredentials E c w)) = 0%nat
         /\ files (snd (setupOAuthCredentials E c w)) = files w
         /\ Forall (fun ev => match ev with ELog _ => False | _ => True end)
                   (drop (length (trace w)) (trace (snd (setupOAuthCredentials E c w))))
     end.
Proof.
  destruct (setup_cases E c w) as (t & Ht & Hrun).
  destruct (writable E w).
  - rewrite Hrun. cbn [fst snd]. split.
    + unfold new_remote_calls, installed. cbn [trace]. rewrite remote_calls_app.
      cbn. lia.
    + exists t. split; [exact Ht|]. split; [reflexivity|]. split.
      * unfold installed. cbn [files]. apply lookup_insert_eq.
      * unfold is_directory, installed. cbn [dirs]. apply bool_decide_eq_true_2. left.
        apply elem_of_union_r, elem_of_list_to_set, prefixes_self.
  - destruct Hrun as (e & He & Hfiles & _ & Htrace). rewrite He.
    unfold new_remote_calls, new_file_writes.
    destruct Htrace as [-> | ->].
    + rewrite drop_all. repeat split; try lia; try assumption. constructor.
    + rewrite remote_calls_app, file_writes_app, drop_app_length.
      repeat split; try (cbn; lia); try assumption.
      repeat constructor.
Qed.

(** ** What a refresh keeps, and what follows it *)

Lemma assign_member_top (c : value) (props : list (text * value)) (k : text)
      (x c' : value) :
  Get c (lit "claudeAiOauth") = inr (VObj props) ->
  assign_member c (lit "claudeAiOauth") k x = inr c' ->
  forall k', k' <> lit "claudeAiOauth" -> Get c' k' = Get c k'.
Proof.
  intros Hget Hassign k' Hk'. unfold assign_member in Hassign. rewrite Hget in Hassign.
  cbn [Set_] in Hassign.
  destruct c as [ | | b | n | s | l | l]; try discriminate.
  injection Hassign as <-. cbn [Get].
  now rewrite obj_lookup_replace_ne by congruence.
Qed.

(** The three assignments leave every other member of [claudeAiOauth], and
    every other member of the document, as it was. *)
Lemma apply_response_frame (c now v c' : value) (props : list (text * value)) :
  Get c (lit "claudeAiOauth") = inr (VObj props) ->
  apply_response c now v = inr c' ->
  (forall k, k <> lit "accessToken" -> k <> lit "refreshToken" -> k <> lit "expiresAt" ->
             member_of c' k = member_of c k)
  /\ (forall k, k <> lit "claudeAiOauth" -> Get c' k = Get c k).
Proof.
  intros Hget Happly. unfold apply_response in Happly.
  destruct (Get v (lit "access_token")) as [|a]; [discriminate|].
  destruct (assign_member c _ _ a) as [|c1] eqn:H1; [discriminate|].
  destruct (Get v (lit "refresh_token")) as [|rt]; [discriminate|].
  destruct (assign_member c1 _ _ rt) as [|c2] eqn:H2; [discriminate|].
  destruct (Get v (lit "expires_in")) as [|n]; [discriminate|].
  destruct (js_add now n) as [|sum]; [discriminate|].
  destruct (member_of_assign c props _ a c1 Hget H1) as (_ & Ho1 & Hg1).
  destruct (member_of_assign c1 _ _ rt c2 Hg1 H2) as (_ & Ho2 & Hg2).
  destruct (member_of_assign c2 _ _ _ c' Hg2 Happly) as (_ & Ho3 & _).
  split.
  - intros k Ha Hr He. rewrite Ho3, Ho2, Ho1 by congruence. reflexivity.
  - intros k Hk.
    rewrite (assign_member_top c2 _ _ _ c' Hg2 Happly k Hk).
    rewrite (assign_member_top c1 _ _ _ c2 Hg1 H2 k Hk).
    apply (assign_member_top c _ _ _ c1 Hget H1 k Hk).
Qed.

(** X6.  A run that changes the files has loaded a document and written it
    back with nothing changed but the three members it assigns: the scopes,
    any other member of [claudeAiOauth] and any other member of the document
    are written as they were read. *)
Theorem refresh_keeps_the_rest (E : env) (w : world) :
  files (snd (ensureValidToken E w)) = files w
  \/ exists c c' t,
       fst (loadCredentials E w) = inr c
       /\ JSON_stringify c' 2 = Some t
       /\ files (snd (ensureValidToken E w)) = <[credentialsPath E := t]> (files w)
       /\ (forall k, k <> lit "accessToken" -> k <> lit "refreshToken" ->
                     k <> lit "expiresAt" -> member_of c' k = member_of c k)
       /\ (forall k, k <> lit "claudeAiOauth" -> Get c' k = Get c k).
Proof.
  destruct (ensure_stops E w)
    as [Hsame | (c & props & ex & remaining & Hload & Htrue & Hc & Ho & Hsub & Hle)];
    [left; now rewrite Hsame|].
  pose proof (ensure_refresh E c (VObj props) ex
                (default VUndefined (obj_lookup props (lit "refreshToken"))) remaining w
                Hload Htrue Hc Ho eq_refl Hsub Hle) as Hrun.
  destruct (refresh_result E _) as [e|v] eqn:Hres.
  { left. now rewrite Hrun. }
  destruct (apply_response c _ v) as [e|c'] eqn:Happly.
  { left. now rewrite Hrun. }
  right. destruct Hrun as (t & Ht & Hrun).
  destruct (apply_response_frame c _ v c' props Hc Happly) as [Hmembers Htop].
  exists c, c', t. rewrite Hrun. repeat split; assumption || reflexivity.
Qed.

(** The run of a well-formed record that expires within 300 seconds, with a
    2xx response that carries the three members. *)
Lemma refresh_run (E : env) (w : world) (r : StoredCredentials) (t : text) (z : Z)
      (status : Z) (body : text) (v : value) (resp : RefreshTokenResponse) :
  files w !! credentialsPath E = Some t ->
  JSON_parse t = Some (stored_value r) ->
  expiresAt r = Int z ->
  (z - now_seconds E <= 300)%Z ->
  fetch E (refresh_request (VStr (refreshToken r))) = FetchResponse status body ->
  response_ok status = true ->
  JSON_parse body = Some v ->
  carries v resp ->
  exists t',
    JSON_stringify (stored_value (refreshed r resp (now_seconds E))) 2 = Some t'
    /\ JSON_parse t' = Some (stored_value (refreshed r resp (now_seconds E)))
    /\ ensureValidToken E w = (inr tt, saved E w (VStr (refreshToken r)) t').
Proof.
  intros Hfile Hparse Hexp Hle Hfetch Hok Hbody Hcarries.
  assert (Hsub : js_sub (VNum (expiresAt r)) (VNum (Int (now_seconds E)))
                 = inr (Int (z - now_seconds E))).
  { rewrite Hexp. apply compare_expiry. }
  assert (Hcmp : number_le (Int (z - now_seconds E)) (Int 300) = true).
  { now apply Z.leb_le. }
  pose proof (ensure_refresh E (stored_value r) (oauth_value r) (VNum (expiresAt r))
                (VStr (refreshToken r)) _ w (load_stored E r t w Hfile Hparse) eq_refl
                (Get_stored r) (Get_expiresAt r) (Get_refreshToken r) Hsub Hcmp) as Hrun.
  unfold refresh_result in Hrun. rewrite Hfetch, Hok, Hbody in Hrun.
  rewrite (apply_response_stored r resp v (now_seconds E) Hcarries) in Hrun.
  destruct Hrun as (t' & Ht' & Hrun). exists t'. split; [exact Ht'|]. split; [|exact Hrun].
  apply (JSON_parse_stringify _ 2 t'); [|lia|exact Ht'].
  apply (plain_stored_value _ (now_seconds E + expires_in resp)). reflexivity.
Qed.

(** X7.  After a refresh that was granted a lifetime [expires_in], every check
    made from the same home directory more than 300 seconds before the new
    expiry, [now + expires_in], finds the token valid: it returns and does
    nothing, whatever the remote end of that later run. *)
Theorem later_checks_are_quiet (E E' : env) (w : world) (r : StoredCredentials)
        (t : text) (z : Z) (status : Z) (body : text) (v : value)
        (resp : RefreshTokenResponse) :
  files w !! credentialsPath E = Some t ->
  JSON_parse t = Some (stored_value r) ->
  expiresAt r = Int z ->
  (z - now_seconds E <= 300)%Z ->
  fetch E (refresh_request (VStr (refreshToken r))) = FetchResponse status body ->
  response_ok status = true ->
  JSON_parse body = Some v ->
  carries v resp ->
  safe (now_seconds E + expires_in resp) ->
  homedir E' = homedir E ->
  (now_seconds E + expires_in resp - now_seconds E' > 300)%Z ->
  fst (ensureValidToken E w) = inr tt
  /\ ensureValidToken E' (snd (ensureValidToken E w))
     = (inr tt, snd (ensureValidToken E w)).
Proof.
  intros Hfile Hparse Hexp Hle Hfetch Hok Hbody Hcarries _ Hhome Hlater.
  destruct (refresh_run E w r t z status body v resp Hfile Hparse Hexp Hle Hfetch Hok
              Hbody Hcarries) as (t' & Ht' & Hback & Hrun).
  rewrite Hrun. cbn [fst snd]. split; [reflexivity|].
  set (r' := refreshed r resp (now_seconds E)) in *.
  assert (Hpath : credentialsPath E' = credentialsPath E).
  { unfold credentialsPath, claudeDir. now rewrite Hhome. }
  assert (Hfile' : files (saved E w (VStr (refreshToken r)) t') !! credentialsPath E'
                   = Some t').
  { rewrite Hpath. unfold saved. cbn [files]. apply lookup_insert_eq. }
  rewrite (ensure_check E' (stored_value r') (oauth_value r') (VNum (expiresAt r')) _
             (load_stored E' r' t' _ Hfile' Hback) eq_refl (Get_stored r')
             (Get_expiresAt r')).
  cbn [r' refreshed expiresAt]. rewrite compare_expiry. cbn [number_le].
  destruct (Z.leb_spec (now_seconds E + expires_in resp - now_seconds E') 300);
    [lia | reflexivity].
Qed.

Lemma later_checks_are_quiet_witness :
  fst (ensureValidToken Sample.granting Sample.expiring_world) = inr tt
  /\ ensureValidToken Sample.down
       (snd (ensureValidToken Sample.granting Sample.expiring_world))
     = (inr tt, snd (ensureValidToken Sample.granting Sample.expiring_world)).
Proof.
  apply (later_checks_are_quiet Sample.granting Sample.down Sample.expiring_world
           (Sample.record (Int 1700000100)) (Sample.document (Int 1700000100))
           1700000100%Z 200%Z Sample.good_body
           (VObj [(lit "access_token", VStr (lit "A2"));
                  (lit "refresh_token", VStr (lit "R2"));
                  (lit "expires_in", VNum (Int 3600))])
           Sample.good_response).
  - reflexivity.
  - vm_compute. reflexivity.
  - reflexivity.
  - vm_compute. discriminate.
  - reflexivity.
  - reflexivity.
  - vm_compute. reflexivity.
  - repeat split.
  - unfold safe. vm_compute. discriminate.
  - reflexivity.
  - vm_compute. reflexivity.
Defined.

(** X8.  The response is not validated either.  When its [expires_in] is a
    string, [now + expires_in] is a concatenation: the run returns, and the
    expiry it has stored is the string made of the numeral of [now] and that
    string. *)
Theorem string_lifetime_is_appended (E : env) (w : world) (r : StoredCredentials)
        (t : text) (z : Z) (status : Z) (body : text) (v : value) (a rt s : text) :
  files w !! credentialsPath E = Some t ->
  JSON_parse t = Some (stored_value r) ->
  expiresAt r = Int z ->
  (z - now_seconds E <= 300)%Z ->
  fetch E (refresh_request (VStr (refreshToken r))) = FetchResponse status body ->
  response_ok status = true ->
  JSON_parse body = Some v ->
  Get v (lit "access_token") = inr (VStr a) ->
  Get v (lit "refresh_token") = inr (VStr rt) ->
  Get v (lit "expires_in") = inr (VStr s) ->
  safe (now_seconds E) ->
  fst (ensureValidToken E w) = inr tt
  /\ exists c',
       fst (loadCredentials E (snd (ensureValidToken E w))) = inr c'
       /\ member_of c' (lit "accessToken") = inr (VStr a)
       /\ member_of c' (lit "expiresAt") = inr (VStr (dec_of_Z (now_seconds E) ++ s)).
Proof.
  intros Hfile Hparse Hexp Hle Hfetch Hok Hbody Ha Hrt Hs _.
  assert (Hsub : js_sub (VNum (expiresAt r)) (VNum (Int (now_seconds E)))
                 = inr (Int (z - now_seconds E))).
  { rewrite Hexp. apply compare_expiry. }
  assert (Hcmp : number_le (Int (z - now_seconds E)) (Int 300) = true).
  { now apply Z.leb_le. }
  pose proof (ensure_refresh E (stored_value r) (oauth_value r) (VNum (expiresAt r))
                (VStr (refreshToken r)) _ w (load_stored E r t w Hfile Hparse) eq_refl
                (Get_stored r) (Get_expiresAt r) (Get_refreshToken r) Hsub Hcmp) as Hrun.
  unfold refresh_result in Hrun. rewrite Hfetch, Hok, Hbody in Hrun.
  set (c' := VObj [(lit "claudeAiOauth",
                    VObj [(lit "accessToken", VStr a);
                          (lit "refreshToken", VStr rt);
                          (lit "expiresAt", VStr (dec_of_Z (now_seconds E) ++ s));
                          (lit "scopes", VArr (map VStr (scopes r)))])]).
  assert (Happly : apply_response (stored_value r) (VNum (Int (now_seconds E))) v
                   = inr c').
  { unfold apply_response. rewrite Ha, Hrt, Hs. reflexivity. }
  rewrite Happly in Hrun. destruct Hrun as (t' & Ht' & Hrun).
  rewrite Hrun. cbn [fst snd]. split; [reflexivity|].
  exists c'. split; [|split; reflexivity].
  assert (Hplain : plain c' = true).
  { unfold c'. cbn [plain map fst snd forallb]. rewrite plain_strings.
    repeat (apply andb_true_intro; split); try reflexivity;
      try (apply bool_decide_eq_true; vm_compute; repeat constructor; set_solver). }
  rewrite load_spec. unfold saved. cbn [files fst]. rewrite lookup_insert_eq.
  now rewrite (JSON_parse_stringify c' 2 t' Hplain ltac:(lia) Ht').
Qed.

Lemma string_lifetime_is_appended_witness :
  fst (ensureValidToken Sample.quoting Sample.expiring_world) = inr tt
  /\ exists c',
       fst (loadCredentials Sample.quoting
              (snd (ensureValidToken Sample.quoting Sample.expiring_world))) = inr c'
       /\ member_of c' (lit "accessToken") = inr (VStr (lit "A2"))
       /\ member_of c' (lit "expiresAt")
          = inr (VStr (dec_of_Z (now_seconds Sample.quoting) ++ lit "3600")).
Proof.
  apply (string_lifetime_is_appended Sample.quoting Sample.expiring_world
           (Sample.record (Int 1700000100)) (Sample.document (Int 1700000100))
           1700000100%Z 200%Z
           (qlit "{'access_token':'A2','refresh_token':'R2','expires_in':'3600'}")
           (VObj [(lit "access_token", VStr (lit "A2"));
                  (lit "refresh_token", VStr (lit "R2"));
                  (lit "expires_in", VStr (lit "3600"))])
           (lit "A2") (lit "R2") (lit "3600")).
  - reflexivity.
  - vm_compute. reflexivity.
  - reflexivity.
  - vm_compute. discriminate.
  - reflexivity.
  - reflexivity.
  - vm_compute. reflexivity.
  - reflexivity.
  - reflexivity.
  - reflexivity.
  - unfold safe. vm_compute. discriminate.
Defined.

(** X9.  A record whose [claudeAiOauth] has no [expiresAt] is never refreshed:
    [undefined - now] is [NaN], no comparison with [NaN] holds, and the token
    passes for valid at every clock reading. *)
Theorem missing_expiry_never_refreshes (E : env) (w : world) (t : text)
        (c oauth : value) :
  files w !! credentialsPath E = Some t ->
  JSON_parse t = Some c ->
  ToBoolean c = true ->
  Get c (lit "claudeAiOauth") = inr oauth ->
  Get oauth (lit "expiresAt") = inr VUndefined ->
  ensureValidToken E w = (inr tt, w).
Proof.
  intros Hfile Hparse Htrue Hc Ho.
  assert (Hload : fst (loadCredentials E w) = inr c) by now rewrite load_spec, Hfile, Hparse.
  now rewrite (ensure_check E c oauth VUndefined w Hload Htrue Hc Ho).
Qed.

Lemma missing_expiry_never_refreshes_witness :
  ensureValidToken Sample.granting
    (Sample.holding (qlit "{'claudeAiOauth':{'accessToken':'A1'}}"))
  = (inr tt, Sample.holding (qlit "{'claudeAiOauth':{'accessToken':'A1'}}")).
Proof.
  apply (missing_expiry_never_refreshes Sample.granting _
           (qlit "{'claudeAiOauth':{'accessToken':'A1'}}")
           (VObj [(lit "claudeAiOauth", VObj [(lit "accessToken", VStr (lit "A1"))])])
           (VObj [(lit "accessToken", VStr (lit "A1"))])).
  - reflexivity.
  - vm_compute. reflexivity.
  - reflexivity.
  - reflexivity.
  - reflexivity.
Defined.

(** ** Documents and requests *)

(** X10.  The round trip does not depend on the shape of the record: whatever
    document is saved (a record with more members, an array, a string), as
    long as its numbers are integers up to 2^53 and its keys are distinct and
    not array indices, a save that returns is followed by a load of the same
    document. *)
Theorem any_document_roundtrip (E : env) (w : world) (v : value) :
  plain v = true ->
  exact_value v = true ->
  fst (saveCredentials E v w) = inr tt ->
  fst (loadCredentials E (snd (saveCredentials E v w))) = inr v.
Proof.
  intros Hplain _ Hret.
  destruct (save_cases E v w) as [(t & Ht & _ & Hrun) | (e & He & _)]; [|congruence].
  rewrite Hrun, load_spec. unfold written. cbn [snd fst files].
  rewrite lookup_insert_eq.
  now rewrite (JSON_parse_stringify v 2 t Hplain ltac:(lia) Ht).
Qed.

Lemma any_document_roundtrip_witness :
  fst (loadCredentials Sample.granting
         (snd (saveCredentials Sample.granting
                 (VObj [(lit "claudeAiOauth", VObj [(lit "subscriptionType", VStr (lit "max"))]);
                        (lit "extra", VArr [VNum (Int (-1)); VNull; VBool true])])
                 Sample.empty_world)))
  = inr (VObj [(lit "claudeAiOauth", VObj [(lit "subscriptionType", VStr (lit "max"))]);
               (lit "extra", VArr [VNum (Int (-1)); VNull; VBool true])]).
Proof.
  apply (any_document_roundtrip Sample.granting Sample.empty_world).
  - vm_compute. reflexivity.
  - vm_compute. reflexivity.
  - vm_compute. reflexivity.
Defined.

(** X11.  The request of a refresh: one [POST] to the token endpoint, declared
    as JSON, whose body is valid JSON for every refresh token, whatever
    characters it holds, and reads back as the grant type and that very token. *)
Theorem request_carries_token (s : text) :
  req_url (refresh_request (VStr s)) = lit "https://api.anthropic.com/v1/oauth/token"
  /\ req_method (refresh_request (VStr s)) = lit "POST"
  /\ req_headers (refresh_request (VStr s)) = [(lit "Content-Type", lit "application/json")]
  /\ exists body,
       req_body (refresh_request (VStr s)) = Some body
       /\ JSON_parse body
          = Some (VObj [(lit "grant_type", VStr (lit "refresh_token"));
                        (lit "refresh_token", VStr s)]).
Proof.
  split; [reflexivity|]. split; [reflexivity|]. split; [reflexivity|].
  exists (wrap [] [] 123 125
            [member [] (lit "grant_type") (quote (lit "refresh_token"));
             member [] (lit "refresh_token") (quote s)]).
  split; [reflexivity|].
  apply (JSON_parse_any_fuel _ 5 _ []); [|reflexivity].
  unfold wrap, member. cbn [join]. rewrite <- !app_assoc. cbn [app].
  rewrite skip_ws_head by reflexivity.
  rewrite parse_value_S. cbn [N.eqb Pos.eqb].
  rewrite (skip_ws_head (quote _ ++ _)) by reflexivity.
  rewrite expect_head by (reflexivity || auto).
  rewrite parse_members_S.
  destruct (parse_string_quote (lit "grant_type")
              (58 :: quote (lit "refresh_token")
                 ++ 44 :: quote (lit "refresh_token") ++ 58 :: quote s ++ [125]))
    as [-> ->].
  rewrite (skip_ws_head (58 :: _)) by reflexivity. cbn [expect]. rewrite N.eqb_refl.
  rewrite (skip_ws_head (quote _ ++ _)) by reflexivity.
  unfold quote at 1. cbn [app]. rewrite parse_value_S. cbn [N.eqb Pos.eqb QUOTE].
  rewrite <- app_assoc. cbn [app]. rewrite parse_quote_units.
  rewrite (skip_ws_head (44 :: _)) by reflexivity. rewrite N.eqb_refl.
  rewrite (skip_ws_head (quote _ ++ _)) by reflexivity.
  rewrite parse_members_S.
  destruct (parse_string_quote (lit "refresh_token") (58 :: quote s ++ [125])) as [-> ->].
  rewrite (skip_ws_head (58 :: _)) by reflexivity. cbn [expect]. rewrite N.eqb_refl.
  rewrite (skip_ws_head (quote _ ++ _)) by reflexivity.
  unfold quote at 1. cbn [app]. rewrite parse_value_S. cbn [N.eqb Pos.eqb QUOTE].
  rewrite <- app_assoc. cbn [app]. rewrite parse_quote_units.
  cbn [skip_ws is_json_ws N.eqb Pos.eqb orb].
  reflexivity.
Qed.

(** ** The expiry setup reads *)

Lemma is_digit_cases (c : N) :
  is_digit c = true ->
  c = 48 \/ c = 49 \/ c = 50 \/ c = 51 \/ c = 52 \/ c = 53 \/ c = 54 \/ c = 55
  \/ c = 56 \/ c = 57.
Proof. intros H%is_digit_range. lia. Qed.

Lemma is_radix_digit_10 (c : N) : is_radix_digit 10 c = is_digit c.
Proof.
  unfold is_radix_digit, digit_of_radix, hex_value.
  destruct (is_digit c) eqn:Hd.
  - apply is_digit_range in Hd.
    destruct (N.ltb_spec (c - 48) 10); [reflexivity | lia].
  - destruct ((97 <=? c) && (c <=? 102)) eqn:Hlow.
    + apply andb_true_iff in Hlow as [H1%N.leb_le H2%N.leb_le].
      destruct (N.ltb_spec (c - 87) 10); [lia | reflexivity].
    + destruct ((65 <=? c) && (c <=? 70)) eqn:Hup; [|reflexivity].
      apply andb_true_iff in Hup as [H1%N.leb_le H2%N.leb_le].
      destruct (N.ltb_spec (c - 55) 10); [lia | reflexivity].
Qed.

(** Reading digits from the left, as [parseInt] does, gives the value of the
    numeral. *)
Lemma radix_value_acc (s : text) (a : Decimal.uint) :
  forallb is_digit s = true ->
  fold_left (fun acc c => acc * 10 + default 0 (digit_of_radix 10 c)) s
            (DecimalPos.Unsigned.of_lu a)
  = DecimalPos.Unsigned.of_lu (Decimal.revapp (uint_of_chars s) a).
Proof.
  revert a. induction s as [|c s IH]; intros a; [reflexivity|].
  cbn [forallb fold_left uint_of_chars]. intros [Hc Hs]%andb_true_iff.
  destruct (is_digit_cases c Hc) as [-> | [-> | [-> | [-> | [-> | [-> | [-> | [-> | [-> | ->]]]]]]]]];
    unfold digit_cons; cbn [N.eqb Pos.eqb Decimal.revapp];
    rewrite <- (IH _ Hs); f_equal;
    cbn [DecimalPos.Unsigned.of_lu digit_of_radix hex_value is_digit default];
    vm_compute (default _ _); lia.
Qed.

Lemma radix_value_numeral (n : N) : radix_value 10 (dec_of_N n) = n.
Proof.
  pose proof (radix_value_acc (dec_of_N n) Decimal.Nil (chars_of_uint_digits _)) as H.
  change (DecimalPos.Unsigned.of_lu Decimal.Nil) with 0 in H.
  unfold radix_value. rewrite H.
  rewrite <- (N_of_dec_of_N n) at 2. unfold N_of_dec, N.of_uint.
  now rewrite DecimalPos.Unsigned.of_uint_alt.
Qed.

Lemma numeral_digits (n : N) (rest : text) :
  ends_numeral rest = true ->
  take_radix (dec_of_N n ++ rest) = (10, dec_of_N n ++ rest)
  /\ fst (span (is_radix_digit 10) (dec_of_N n ++ rest)) = dec_of_N n.
Proof.
  intros Hrest. split.
  - destruct (dec_of_N_head n) as (c & r & -> & Hc & Hzero).
    unfold take_radix, strip_radix_prefix. cbn [app].
    destruct (N.eqb_spec c 48) as [->|Hne].
    + rewrite (Hzero eq_refl). cbn [app].
      destruct rest as [|x rest']; [reflexivity|]. cbn [ends_numeral] in Hrest.
      apply negb_true_iff in Hrest.
      apply orb_false_iff in Hrest as [Hrest H88].
      apply orb_false_iff in Hrest as [_ H120].
      now rewrite H120, H88.
    + destruct (r ++ rest); reflexivity.
  - rewrite span_app.
    + reflexivity.
    + unfold dec_of_N. generalize (N.to_uint n). intros d.
      induction d; cbn [chars_of_uint forallb]; rewrite ?is_radix_digit_10; auto.
    + destruct rest as [|x rest']; [exact I|]. cbn [ends_numeral] in Hrest.
      apply negb_true_iff in Hrest.
      apply orb_false_iff in Hrest as [Hrest _].
      apply orb_false_iff in Hrest as [Hd _].
      now rewrite is_radix_digit_10.
Qed.

Lemma numeral_head (n : N) (rest : text) :
  trim_start (dec_of_N n ++ rest) = dec_of_N n ++ rest
  /\ take_sign (dec_of_N n ++ rest) = (false, dec_of_N n ++ rest).
Proof.
  destruct (dec_of_N_head n) as (c & r & -> & Hc%is_digit_range & _).
  cbn [app trim_start take_sign]. split.
  - unfold is_str_ws.
    repeat match goal with
           | |- context [?a =? ?b] => destruct (N.eqb_spec a b); [lia|]
           | |- context [?a <=? ?b] => destruct (N.leb_spec a b); try lia
           end; reflexivity.
  - destruct (N.eqb_spec c 45); [lia|]. destruct (N.eqb_spec c 43); [lia|]. reflexivity.
Qed.

(** [parseInt] of the numeral of an integer up to 2^53, followed by anything
    that does not go on the numeral, is that integer. *)
Lemma parseInt_numeral (z : Z) (rest : text) :
  safe z -> ends_numeral rest = true -> parseInt (dec_of_Z z ++ rest) = Int z.
Proof.
  intros Hsafe Hrest.
  assert (Hread : forall neg n,
            match fst (span (is_radix_digit 10) (dec_of_N n ++ rest)) with
            | [] => NaN
            | ds => round_double (signed neg (radix_value 10 ds))
            end = round_double (signed neg n)).
  { intros neg n. destruct (numeral_digits n rest Hrest) as [_ ->].
    destruct (dec_of_N_head n) as (c & r & Heq & _).
    rewrite Heq. cbn iota. rewrite <- Heq. now rewrite radix_value_numeral. }
  assert (Hpos : forall n, safe (Z.of_N n) ->
            parseInt (dec_of_N n ++ rest) = Int (Z.of_N n)).
  { intros n Hn. unfold parseInt.
    destruct (numeral_head n rest) as [-> ->].
    destruct (numeral_digits n rest Hrest) as [-> _].
    rewrite Hread. now apply round_double_safe. }
  unfold dec_of_Z. destruct z as [|p|p].
  - apply (Hpos 0%N Hsafe).
  - apply (Hpos (Npos p) Hsafe).
  - unfold parseInt. cbn [app trim_start].
    change (is_str_ws 45) with false. cbn iota.
    cbn [take_sign N.eqb Pos.eqb].
    destruct (numeral_digits (Npos p) rest Hrest) as [-> _].
    rewrite Hread. now apply round_double_safe.
Qed.

(** X12.  The expiry setup stores is the integer its input spells: for every
    integer up to 2^53, written as its decimal numeral and followed by
    anything that does not go on the numeral (nothing, a unit, a fraction),
    the record built has that integer as its expiry, and so has what is read
    from the file after a setup that returns. *)
Theorem setup_reads_numeral (E : env) (w : world) (c : OAuthCredentials) (z : Z)
        (rest : text) :
  safe z ->
  ends_numeral rest = true ->
  in_expiresAt c = dec_of_Z z ++ rest ->
  member_of (credentialsData c) (lit "expiresAt") = inr (VNum (Int z))
  /\ (fst (setupOAuthCredentials E c w) = inr tt ->
      exists v,
        fst (loadCredentials E (snd (setupOAuthCredentials E c w))) = inr v
        /\ member_of v (lit "expiresAt") = inr (VNum (Int z))).
Proof.
  intros Hsafe Hrest Hin.
  pose proof (parseInt_numeral z rest Hsafe Hrest) as Hparse. rewrite <- Hin in Hparse.
  split.
  - unfold credentialsData, member_of. cbn. now rewrite Hparse.
  - intros Hret. destruct (setup_returns E c w Hret) as (_ & t & Ht & Hrun).
    exists (persisted_data c). rewrite Hrun, load_spec. unfold installed.
    cbn [snd fst files]. rewrite lookup_insert_eq, (parse_credentialsData c t Ht).
    split; [reflexivity|]. unfold persisted_data, member_of. cbn. now rewrite Hparse.
Qed.

Lemma setup_reads_numeral_witness :
  member_of (credentialsData (Sample.input "-1700000100.75s")) (lit "expiresAt")
  = inr (VNum (Int (-1700000100))).
Proof.
  apply (setup_reads_numeral Sample.granting Sample.empty_world
           (Sample.input "-1700000100.75s") (-1700000100) (lit ".75s")).
  - unfold safe. vm_compute. discriminate.
  - reflexivity.
  - reflexivity.
Defined.
